(** * FileTree: path-tree reconstruction and hierarchical selection

    A shallow embedding of the [FileTree] component
    (src/unnamed/part_000): [buildTree] with its inner [convert], the
    selection handlers [toggleFile], [toggleFolder] with
    [updateParentStates], and the expansion handler [toggleExpand].

    JavaScript strings are modelled as [string] (text outside ASCII as the
    bytes of its UTF-8 encoding), arrays as [list], the
    plain objects used as maps ([Record<string, any>]) as association lists
    in property-creation order, and the [Set<string>] of expanded folders as
    a duplicate-free list in insertion order.  A thrown [TypeError] is
    [None].  The engine's bound on the depth of recursion (a [RangeError]
    in [convert] on a path of thousands of segments) is not modelled:
    [Some tree] is what [buildTree] returns when it returns. *)

From Stdlib Require Import List String Ascii Bool Arith NArith Lia Permutation Sorted.
Import ListNotations.
Open Scope string_scope.
Open Scope list_scope.

Set Implicit Arguments.
Set Warnings "-register-all".

(** ** Strings *)

Definition slash : ascii := "/"%char.
Definition backslash : ascii := "\"%char.

(** [filePath.replace(/\\/g, "/")] *)
Fixpoint replace_backslashes (s : string) : string :=
  match s with
  | EmptyString => EmptyString
  | String c r =>
      String (if Ascii.eqb c backslash then slash else c) (replace_backslashes r)
  end.

(** [s.split("/")]: the pieces between the separators, empty ones included;
    the empty string splits into one empty piece. *)
Fixpoint split_slash (s : string) : list string :=
  match s with
  | EmptyString => [EmptyString]
  | String c r =>
      if Ascii.eqb c slash then EmptyString :: split_slash r
      else match split_slash r with
           | [] => [String c EmptyString]
           | h :: t => String c h :: t
           end
  end.

(** [Boolean(s)] on a string: every string but the empty one is truthy. *)
Definition truthy (s : string) : bool := negb (String.eqb s "").

(** [filePath.replace(/\\/g, "/").split("/").filter(Boolean)] *)
Definition path_parts (filePath : string) : list string :=
  filter truthy (split_slash (replace_backslashes filePath)).

(** [currentPath ? `${currentPath}/${part}` : part] *)
Definition join_path (currentPath part : string) : string :=
  if truthy currentPath then (currentPath ++ "/" ++ part)%string else part.

(** [arr.includes(x)] on an array of strings. *)
Definition includes (arr : list string) (x : string) : bool :=
  existsb (String.eqb x) arr.

(** ** Plain objects used as maps

    An object literal [{}] inherits the properties of [Object.prototype]:
    reading one of these names from any such object yields a truthy value
    (a function, or the prototype itself for [__proto__]) which has no
    [__node] property. *)
Definition Object_prototype_keys : list string :=
  [ "constructor"; "hasOwnProperty"; "isPrototypeOf"; "propertyIsEnumerable";
    "toLocaleString"; "toString"; "valueOf"; "__proto__";
    "__defineGetter__"; "__defineSetter__"; "__lookupGetter__";
    "__lookupSetter__" ].

Definition inherited (k : string) : bool := includes Object_prototype_keys k.

Definition digit_of (c : ascii) : option N :=
  let n := N_of_ascii c in
  if ((48 <=? n) && (n <=? 57))%N then Some (n - 48)%N else None.

Fixpoint decimal (s : string) (acc : N) : option N :=
  match s with
  | EmptyString => Some acc
  | String c r =>
      match digit_of c with
      | Some d => decimal r (10 * acc + d)%N
      | None => None
      end
  end.

(** A property key is an array index when it is the canonical decimal
    numeral of an integer in [0, 2^32 - 2]. *)
Definition array_index (k : string) : option N :=
  match k with
  | EmptyString => None
  | String c r =>
      if Ascii.eqb c "0"%char && truthy r then None
      else match decimal k 0 with
           | Some n => if (n <? 4294967295)%N then Some n else None
           | None => None
           end
  end.

Section PlainObject.
Variable A : Type.

(** An object's own properties, in creation order. *)
Definition Obj := list (string * A).

Fixpoint own (k : string) (o : Obj) : option A :=
  match o with
  | [] => None
  | (k', v) :: t => if String.eqb k k' then Some v else own k t
  end.

(** Mutation of the value stored under an existing key. *)
Fixpoint replace_own (k : string) (v : A) (o : Obj) : Obj :=
  match o with
  | [] => []
  | (k', v') :: t =>
      if String.eqb k k' then (k', v) :: t else (k', v') :: replace_own k v t
  end.

(** [o[k] = v] for a key that [o] does not have yet. *)
Definition define_own (k : string) (v : A) (o : Obj) : Obj := o ++ [(k, v)].

Fixpoint insert_by_index (i : N) (v : A) (l : list (N * A)) : list (N * A) :=
  match l with
  | [] => [(i, v)]
  | (j, w) :: t =>
      if (i <? j)%N then (i, v) :: (j, w) :: t
      else (j, w) :: insert_by_index i v t
  end.

(** The array-index properties, in ascending numeric order. *)
Fixpoint indexed (o : Obj) : list (N * A) :=
  match o with
  | [] => []
  | (k, v) :: t =>
      match array_index k with
      | Some i => insert_by_index i v (indexed t)
      | None => indexed t
      end
  end.

(** The other string-keyed properties, in creation order. *)
Fixpoint named (o : Obj) : list A :=
  match o with
  | [] => []
  | (k, v) :: t =>
      match array_index k with
      | Some _ => named t
      | None => v :: named t
      end
  end.

(** [Object.values(o)]: array-index keys first, ascending, then the rest in
    creation order. *)
Definition Object_values (o : Obj) : list A := map snd (indexed o) ++ named o.
End PlainObject.

(** ** The tree *)

(** [interface FileNode { name; path; children? }] *)
Inductive FileNode : Type :=
  mkFileNode { name : string; path : string; children : option (list FileNode) }.

(** The value stored under [__node] while the tree is built: [children] is
    [undefined] or an object mapping a segment to its entry. *)
Inductive RawNode : Type :=
  mkRawNode { raw_name : string;
              raw_path : string;
              raw_children : option (list (string * RawNode)) }.

Definition with_children (n : RawNode) (ch : list (string * RawNode)) : RawNode :=
  mkRawNode (raw_name n) (raw_path n) (Some ch).

(** The body of [parts.forEach((part, i) => ...)], started at [current] with
    [currentPath]; the result is [current] after the mutations.  Walking past
    a node whose [children] is [undefined] continues in a fresh object
    ([?? {}]) that nothing refers to, so its content is dropped; the walk is
    still performed, since it can throw. *)
Fixpoint walk (parts : list string) (currentPath : string)
    (current : Obj RawNode) : option (Obj RawNode) :=
  match parts with
  | [] => Some current
  | part :: rest =>
      let currentPath' := join_path currentPath part in
      if inherited part then None
      else
        match own part current with
        | None =>
            match rest with
            | [] =>
                Some (define_own part (mkRawNode part currentPath' None) current)
            | _ :: _ =>
                match walk rest currentPath' [] with
                | Some ch =>
                    Some (define_own part
                            (mkRawNode part currentPath' (Some ch)) current)
                | None => None
                end
            end
        | Some n =>
            match raw_children n with
            | Some ch =>
                match walk rest currentPath' ch with
                | Some ch' => Some (replace_own part (with_children n ch') current)
                | None => None
                end
            | None =>
                match walk rest currentPath' [] with
                | Some _ => Some current
                | None => None
                end
            end
        end
  end.

(** The body of [files.forEach((filePath) => ...)]. *)
Definition add_file (root : Obj RawNode) (filePath : string)
    : option (Obj RawNode) :=
  if truthy filePath then walk (path_parts filePath) "" root else Some root.

Fixpoint add_files (files : list string) (root : Obj RawNode)
    : option (Obj RawNode) :=
  match files with
  | [] => Some root
  | filePath :: rest =>
      match add_file root filePath with
      | Some root' => add_files rest root'
      | None => None
      end
  end.

(** The callback of [.map] inside [convert]. *)
Fixpoint convert_entry (entry : RawNode) : FileNode :=
  mkFileNode (raw_name entry) (raw_path entry)
    match raw_children entry with
    | Some ch =>
        if (0 <? List.length ch)%nat
        then Some (Object_values
                     (map (fun kv => (fst kv, convert_entry (snd kv))) ch))
        else None
    | None => None
    end.

(** [convert(node)]: the entries are converted in place and then enumerated
    in [Object.values] order, which is the same as enumerating first. *)
Definition convert (node : Obj RawNode) : list FileNode :=
  Object_values (map (fun kv => (fst kv, convert_entry (snd kv))) node).

Definition buildTree (files : list string) : option (list FileNode) :=
  match add_files files [] with
  | Some root => Some (convert root)
  | None => None
  end.


(** ** The [Set<string>] of expanded folders, in insertion order *)

Definition Set_has (s : list string) (x : string) : bool := includes s x.

Definition Set_add (s : list string) (x : string) : list string :=
  if includes s x then s else s ++ [x].

Definition Set_delete (s : list string) (x : string) : list string :=
  filter (fun y => negb (String.eqb y x)) s.

(** [new Set(iterable)] *)
Definition Set_from (l : list string) : list string := fold_left Set_add l [].

(** ** Component state: the [selected] prop and the [tree] and [expanded]
    state variables; [setSelected] and [setExpanded] replace one field. *)
Record FileTreeState : Type :=
  mkState { selected : list string;
            tree : list FileNode;
            expanded : list string }.

Definition setSelected (st : FileTreeState) (files : list string) : FileTreeState :=
  mkState files (tree st) (expanded st).

Definition setExpanded (st : FileTreeState) (e : list string) : FileTreeState :=
  mkState (selected st) (tree st) e.

Fixpoint getAllDescendantFiles (node : FileNode) : list string :=
  match children node with
  | None => [path node]
  | Some ch => flat_map getAllDescendantFiles ch
  end.

Definition areAllChildrenSelected (selected : list string) (node : FileNode) : bool :=
  match children node with
  | None => includes selected (path node)
  | Some _ => forallb (includes selected) (getAllDescendantFiles node)
  end.

(** [arr.splice(arr.indexOf(x), 1)] when [indexOf] is not [-1]: the first
    occurrence is removed; nothing happens when there is none. *)
Fixpoint remove_first (x : string) (l : list string) : list string :=
  match l with
  | [] => []
  | y :: t => if String.eqb x y then t else y :: remove_first x t
  end.

(** [nodes.map(child => process(child))] over the shared, mutable
    [updatedSelected], threaded through the calls in order. *)
Section ProcessChildren.
Variable process : FileNode -> list string -> bool * list string.

Fixpoint process_children (nodes : list FileNode) (updatedSelected : list string)
    : list bool * list string :=
  match nodes with
  | [] => ([], updatedSelected)
  | child :: rest =>
      let '(state, s1) := process child updatedSelected in
      let '(states, s2) := process_children rest s1 in
      (state :: states, s2)
  end.
End ProcessChildren.

Fixpoint processNode (node : FileNode) (updatedSelected : list string)
    : bool * list string :=
  match children node with
  | None => (includes updatedSelected (path node), updatedSelected)
  | Some ch =>
      let '(childStates, s) := process_children processNode ch updatedSelected in
      let allChildrenSelected := forallb (fun state => state) childStates in
      if allChildrenSelected
      then (allChildrenSelected,
            if negb (includes s (path node)) then s ++ [path node] else s)
      else (allChildrenSelected, remove_first (path node) s)
  end.

Definition updateParentStates (tree : list FileNode) (newSelected : list string)
    : list string :=
  snd (process_children processNode tree newSelected).

Definition toggleFile (st : FileTreeState) (path : string) : FileTreeState :=
  let newSelected :=
    if includes (selected st) path
    then filter (fun f => negb (String.eqb f path)) (selected st)
    else selected st ++ [path] in
  let finalSelected := updateParentStates (tree st) newSelected in
  setSelected st finalSelected.

Definition toggleFolder (st : FileTreeState) (node : FileNode) : FileTreeState :=
  match children node with
  | None => st
  | Some _ =>
      let descendantFiles := getAllDescendantFiles node in
      let isCurrentlySelected := areAllChildrenSelected (selected st) node in
      let newSelected :=
        if isCurrentlySelected
        then filter (fun f => negb (includes descendantFiles f)) (selected st)
        else Set_from (selected st ++ descendantFiles) in
      setSelected st newSelected
  end.

Definition toggleExpand (st : FileTreeState) (path : string) : FileTreeState :=
  let newExpanded := Set_from (expanded st) in
  setExpanded st
    (if Set_has newExpanded path
     then Set_delete newExpanded path
     else Set_add newExpanded path).

(** [isChecked] in [renderTree]: what the checkbox of a node shows. *)
Definition isChecked (selected : list string) (node : FileNode) : bool :=
  let isFolder :=
    match children node with
    | Some ch => (0 <? List.length ch)%nat
    | None => false
    end in
  if isFolder then areAllChildrenSelected selected node
  else includes selected (path node).

(** A user action on the selection, and a run of such actions. *)
Inductive SelectionOp : Type :=
| ToggleLeaf (path : string)
| ToggleFolder (node : FileNode).

Definition apply_op (st : FileTreeState) (op : SelectionOp) : FileTreeState :=
  match op with
  | ToggleLeaf p => toggleFile st p
  | ToggleFolder n => toggleFolder st n
  end.

Definition run (st : FileTreeState) (ops : list SelectionOp) : FileTreeState :=
  fold_left apply_op ops st.

(** ** Nodes of a tree *)

Fixpoint subnodes (node : FileNode) : list FileNode :=
  node :: match children node with
          | None => []
          | Some ch => flat_map subnodes ch
          end.

Definition all_nodes (tree : list FileNode) : list FileNode :=
  flat_map subnodes tree.

Definition all_paths (tree : list FileNode) : list string :=
  map path (all_nodes tree).

Definition is_folder (node : FileNode) : Prop := children node <> None.

Definition is_leaf (node : FileNode) : Prop := children node = None.

(** Stored folder membership agrees with leaf membership: the path of a
    folder is selected exactly when all its descendant leaf paths are. *)
Definition folders_consistent (tree : list FileNode) (selected : list string) : Prop :=
  forall f, In f (all_nodes tree) -> is_folder f ->
    (In (path f) selected <->
     forall q, In q (getAllDescendantFiles f) -> In q selected).

(** A path that no folder among [nodes] carries. *)
Definition not_folder_of (nodes : list FileNode) (q : string) : Prop :=
  forall m, In m nodes -> is_folder m -> path m <> q.

(** What [processNode] achieves on [nodes] whose leaves are [leaves]: the
    selection [s] it leaves has no duplicate, the state [b] it returns tells
    whether all the leaves are selected, and every folder among [nodes] is
    stored exactly when all its leaves are. *)
Definition derived (nodes : list FileNode) (leaves : list string)
    (b : bool) (s : list string) : Prop :=
  NoDup s /\
  (b = true <-> forall q, In q leaves -> In q s) /\
  (forall m, In m nodes -> is_folder m ->
     (In (path m) s <-> forall q, In q (getAllDescendantFiles m) -> In q s)).

(** ** Sample listings *)

Definition leaf (name path : string) : FileNode := mkFileNode name path None.

(** The tree [root/{a.txt, sub/{b.txt, c.txt}}]. *)
Definition demo_files : list string :=
  ["root/a.txt"; "root/sub/b.txt"; "root/sub/c.txt"].

Definition demo_sub : FileNode :=
  mkFileNode "sub" "root/sub"
    (Some [leaf "b.txt" "root/sub/b.txt"; leaf "c.txt" "root/sub/c.txt"]).

Definition demo_root : FileNode :=
  mkFileNode "root" "root" (Some [leaf "a.txt" "root/a.txt"; demo_sub]).

Definition demo_tree : list FileNode := [demo_root].

Definition demo_state (selected : list string) : FileTreeState :=
  mkState selected demo_tree ["root"; "root/sub"].

(** ** Induction over a node and its descendants *)

Section FileNode_induction.
Variable P : FileNode -> Prop.
Hypothesis leaf_case : forall n p, P (mkFileNode n p None).
Hypothesis folder_case :
  forall n p ch, Forall P ch -> P (mkFileNode n p (Some ch)).

Fixpoint FileNode_nested_ind (node : FileNode) : P node :=
  match node with
  | mkFileNode n p None => leaf_case n p
  | mkFileNode n p (Some ch) =>
      folder_case n p
        ((fix all (l : list FileNode) : Forall P l :=
            match l with
            | [] => Forall_nil P
            | c :: l' => Forall_cons c (FileNode_nested_ind c) (all l')
            end) ch)
  end.
End FileNode_induction.

Section RawNode_induction.
Variable P : RawNode -> Prop.
Hypothesis leaf_case : forall n p, P (mkRawNode n p None).
Hypothesis folder_case :
  forall n p ch, Forall (fun kv => P (snd kv)) ch -> P (mkRawNode n p (Some ch)).

Fixpoint RawNode_nested_ind (node : RawNode) : P node :=
  match node with
  | mkRawNode n p None => leaf_case n p
  | mkRawNode n p (Some ch) =>
      folder_case n p
        ((fix all (l : list (string * RawNode))
            : Forall (fun kv => P (snd kv)) l :=
            match l with
            | [] => Forall_nil _
            | kv :: l' =>
                Forall_cons kv
                  (match kv return P (snd kv) with
                   | (_, e) => RawNode_nested_ind e
                   end) (all l')
            end) ch)
  end.
End RawNode_induction.

(** ** Shapes of paths *)

Fixpoint has_char (c : ascii) (s : string) : bool :=
  match s with
  | EmptyString => false
  | String d r => Ascii.eqb d c || has_char c r
  end.

(** A path segment: not empty, and free of both separators. *)
Definition is_segment (s : string) : Prop :=
  s <> "" /\ has_char slash s = false /\ has_char backslash s = false.

Definition no_backslash (p : string) : Prop := has_char backslash p = false.

(** No leading, trailing or doubled ["/"]: no piece between separators is
    empty. *)
Definition no_empty_segment (p : string) : Prop := ~ In "" (split_slash p).

(** The path built for the node reached through [segments] from a node with
    path [currentPath]. *)
Definition path_of (currentPath : string) (segments : list string) : string :=
  fold_left join_path segments currentPath.

(** What follows a segment inside a path: nothing, or a separator. *)
Definition tail_ok (x : string) : Prop := x = "" \/ exists r, x = String slash r.

(** A path that can be extended by a segment: it has no backslash and no
    empty piece. *)
Definition clean (p : string) : Prop := no_backslash p /\ no_empty_segment p.

(** ** Well-formed entries and nodes *)

Inductive wf_raw : string -> string -> RawNode -> Prop :=
| wf_raw_intro parent key n :
    raw_name n = key ->
    is_segment key ->
    raw_path n = join_path parent key ->
    (forall ch, raw_children n = Some ch ->
       ch <> [] /\ NoDup (map fst ch) /\
       Forall (fun kv => wf_raw (raw_path n) (fst kv) (snd kv)) ch) ->
    wf_raw parent key n.

Definition wf_obj (parent : string) (o : Obj RawNode) : Prop :=
  NoDup (map fst o) /\ Forall (fun kv => wf_raw parent (fst kv) (snd kv)) o.

Inductive wf_node : string -> FileNode -> Prop :=
| wf_node_intro parent n :
    is_segment (name n) ->
    path n = join_path parent (name n) ->
    (forall ch, children n = Some ch ->
       ch <> [] /\ NoDup (map name ch) /\ Forall (wf_node (path n)) ch) ->
    wf_node parent n.

Definition wf_forest (parent : string) (l : list FileNode) : Prop :=
  NoDup (map name l) /\ Forall (wf_node parent) l.

(** [q] is [p] or lies below it. *)
Definition under (p q : string) : Prop :=
  q = p \/ exists r, q = (p ++ "/" ++ r)%string.

(** ** Following a chain of segments through the entries *)

(** The [children] object reached from [o] through folders named by
    [segments]. *)
Fixpoint descend (o : Obj RawNode) (segments : list string)
    : option (Obj RawNode) :=
  match segments with
  | [] => Some o
  | k :: rest =>
      match own k o with
      | Some n =>
          match raw_children n with
          | Some ch => descend ch rest
          | None => None
          end
      | None => None
      end
  end.

(** No entry met along [segments] has been created as a leaf. *)
Fixpoint leaf_free (o : Obj RawNode) (segments : list string) : Prop :=
  match segments with
  | [] => True
  | k :: rest =>
      match own k o with
      | Some n =>
          match raw_children n with
          | Some ch => leaf_free ch rest
          | None => False
          end
      | None => True
      end
  end.

(** The entry reached from [o] through [segments]; its ancestors are
    folders. *)
Fixpoint entry_at (o : Obj RawNode) (segments : list string) : option RawNode :=
  match segments with
  | [] => None
  | k :: rest =>
      match own k o with
      | Some n =>
          match rest with
          | [] => Some n
          | _ :: _ =>
              match raw_children n with
              | Some ch => entry_at ch rest
              | None => None
              end
          end
      | None => None
      end
  end.

(** [l] is an initial part of [m]. *)
Fixpoint is_prefix (l m : list string) : bool :=
  match l, m with
  | [], _ => true
  | x :: l', y :: m' => String.eqb x y && is_prefix l' m'
  | _ :: _, [] => false
  end.

(** [parts] names the node reached through [segments] or one of its
    ancestors. *)
Definition names_prefix (parts segments : list string) : bool :=
  match parts with
  | [] => false
  | _ :: _ => is_prefix parts segments
  end.

(** The segment that follows [segments] in [parts], when [parts] extends
    [segments]. *)
Fixpoint next_segment (segments parts : list string) : option string :=
  match segments, parts with
  | [], s :: _ => Some s
  | k :: segments', part :: parts' =>
      if String.eqb k part then next_segment segments' parts' else None
  | _, [] => None
  end.

(** The segments that follow [segments] in the listing, in input order. *)
Fixpoint next_segments (segments : list string) (files : list string)
    : list string :=
  match files with
  | [] => []
  | filePath :: rest =>
      match next_segment segments (path_parts filePath) with
      | Some s => s :: next_segments segments rest
      | None => next_segments segments rest
      end
  end.

(** The order in which the properties named [keys], created in that order,
    are enumerated. *)
Definition enumeration_order (keys : list string) : list string :=
  Object_values (map (fun k => (k, k)) keys).

(** The keys of the [children] object reached through [segments]; none when
    it is not there. *)
Definition keys_at (o : Obj RawNode) (segments : list string) : list string :=
  match descend o segments with
  | Some ch => map fst ch
  | None => []
  end.

(** ** Mounting the component

    The effect run when [files] changes: blank entries are dropped, the tree
    is rebuilt and every folder is expanded. *)

(** [String.prototype.trim] removes the WhiteSpace and LineTerminator code
    points from both ends.  A [string] holds the UTF-8 encoding of the
    JavaScript string, so a code point above U+007F is the byte sequence
    that encodes it:
    - one byte: U+0009 to U+000D, U+0020;
    - two bytes: U+00A0 (C2 A0);
    - three bytes: U+1680 (E1 9A 80), U+2000 to U+200A (E2 80 80 to
      E2 80 8A), U+2028, U+2029 and U+202F (E2 80 A8, A9, AF), U+205F
      (E2 81 9F), U+3000 (E3 80 80) and U+FEFF (EF BB BF). *)
Definition is_white_space (c : ascii) : bool :=
  let n := nat_of_ascii c in
  ((9 <=? n)%nat && (n <=? 13)%nat) || (n =? 32)%nat.

Definition is_white_space2 (a b : ascii) : bool :=
  (nat_of_ascii a =? 194)%nat && (nat_of_ascii b =? 160)%nat.

Definition is_white_space3 (a b c : ascii) : bool :=
  let x := nat_of_ascii a in
  let y := nat_of_ascii b in
  let z := nat_of_ascii c in
  ((x =? 225)%nat && (y =? 154)%nat && (z =? 128)%nat) ||
  ((x =? 226)%nat && (y =? 128)%nat &&
   (((128 <=? z)%nat && (z <=? 138)%nat) ||
    (z =? 168)%nat || (z =? 169)%nat || (z =? 175)%nat)) ||
  ((x =? 226)%nat && (y =? 129)%nat && (z =? 159)%nat) ||
  ((x =? 227)%nat && (y =? 128)%nat && (z =? 128)%nat) ||
  ((x =? 239)%nat && (y =? 187)%nat && (z =? 191)%nat).

(** The bytes left once the white space at the front is removed; the
    tests take the bytes of a code point in the order in which the list
    presents them. *)
Fixpoint strip_white_space (w2 : ascii -> ascii -> bool)
    (w3 : ascii -> ascii -> ascii -> bool) (l : list ascii) : list ascii :=
  match l with
  | [] => []
  | a :: r1 =>
      if is_white_space a then strip_white_space w2 w3 r1
      else
        match r1 with
        | [] => l
        | b :: r2 =>
            if w2 a b then strip_white_space w2 w3 r2
            else
              match r2 with
              | [] => l
              | c :: r3 =>
                  if w3 a b c then strip_white_space w2 w3 r3 else l
              end
        end
  end.

Definition trim_start (s : string) : string :=
  string_of_list_ascii
    (strip_white_space is_white_space2 is_white_space3
       (list_ascii_of_string s)).

(** From the end the bytes of a code point come last byte first. *)
Definition trim_end (s : string) : string :=
  string_of_list_ascii
    (rev (strip_white_space
            (fun b a => is_white_space2 a b)
            (fun c b a => is_white_space3 a b c)
            (rev (list_ascii_of_string s)))).

(** [s.trim()] *)
Definition trim (s : string) : string := trim_end (trim_start s).

(** U+00A0 and U+3000, as entries of a listing. *)
Definition no_break_space : string :=
  String (ascii_of_nat 194) (String (ascii_of_nat 160) EmptyString).

Definition ideographic_space : string :=
  String (ascii_of_nat 227)
    (String (ascii_of_nat 128) (String (ascii_of_nat 128) EmptyString)).

(** [collectFolders] applied to one node; [n.children?.length] is truthy
    when the node has at least one child. *)
Fixpoint collectFolders_node (n : FileNode) (allFolders : list string)
    : list string :=
  match children n with
  | Some (c :: rest) =>
      fold_left (fun acc child => collectFolders_node child acc) (c :: rest)
        (Set_add allFolders (path n))
  | _ => allFolders
  end.

Definition collectFolders (nodes : list FileNode) (allFolders : list string)
    : list string :=
  fold_left (fun acc n => collectFolders_node n acc) nodes allFolders.

Definition mount (files : list string) (st : FileTreeState)
    : option FileTreeState :=
  let cleaned := filter (fun f => negb (String.eqb (trim f) "")) files in
  match buildTree cleaned with
  | Some built => Some (mkState (selected st) built (collectFolders built []))
  | None => None
  end.

(** ** Rendering

    [renderTree] as the rows it produces, in document order: one row per
    rendered node, with what its checkbox shows and what its handlers do; the
    children of a folder are rendered when the folder is expanded. *)
Record Row : Type :=
  mkRow { row_node : FileNode;
          row_prefix : list bool;
          row_isLast : bool;
          row_isFolder : bool;
          row_isChecked : bool;
          row_expanded : bool;
          row_onChange : SelectionOp }.

Definition isFolder (node : FileNode) : bool :=
  match children node with
  | Some ch => (0 <? List.length ch)%nat
  | None => false
  end.

Section RenderTree.
Variables (selected expanded : list string).

Fixpoint renderNode (node : FileNode) (prefix : list bool) (isLast : bool)
    : list Row :=
  mkRow node prefix isLast (isFolder node) (isChecked selected node)
    (Set_has expanded (path node))
    (if isFolder node then ToggleFolder node else ToggleLeaf (path node))
  :: match children node with
     | Some ch =>
         if isFolder node && Set_has expanded (path node)
         then (fix rows (nodes : list FileNode) : list Row :=
                 match nodes with
                 | [] => []
                 | child :: rest =>
                     renderNode child (prefix ++ [negb isLast])
                       match rest with [] => true | _ :: _ => false end
                     ++ rows rest
                 end) ch
         else []
     | None => []
     end.

Fixpoint renderTree (nodes : list FileNode) (prefix : list bool) : list Row :=
  match nodes with
  | [] => []
  | node :: rest =>
      renderNode node prefix match rest with [] => true | _ :: _ => false end
      ++ renderTree rest prefix
  end.
End RenderTree.

(** ** The selection panel and the application handlers *)

(** [s.endsWith(suffix)] *)
Definition endsWith (s suffix : string) : bool :=
  let n := String.length s in
  let m := String.length suffix in
  (m <=? n)%nat && String.eqb (substring (n - m) m s) suffix.

(** [selectedCount] and [totalFiles] of [FileSelectionPanel]. *)
Definition selectedCount (files selected : list string) : nat :=
  List.length
    (filter (fun s => existsb (fun f => String.eqb f s && negb (endsWith f "/")) files)
       selected).

Definition totalFiles (files : list string) : nat :=
  List.length (filter (fun f => negb (endsWith f "/")) files).

(** The state of [App]. *)
Record AppState : Type :=
  mkApp { app_files : list string;
          app_selected : list string;
          app_loading : bool;
          app_sessionId : option string }.

Definition handleSelectAll (a : AppState) : AppState :=
  mkApp (app_files a) (app_files a) (app_loading a) (app_sessionId a).

Definition handleDeselectAll (a : AppState) : AppState :=
  mkApp (app_files a) [] (app_loading a) (app_sessionId a).

Definition handleBack (a : AppState) : AppState :=
  mkApp [] [] (app_loading a) None.

(** ** Paths already in the tree *)

(** Walking [parts] from [o] meets entries that are there, up to the end of
    [parts] or to a leaf. *)
Fixpoint settled (o : Obj RawNode) (parts : list string) : Prop :=
  match parts with
  | [] => True
  | k :: rest =>
      match own k o with
      | Some n =>
          match raw_children n with
          | Some ch => settled ch rest
          | None => True
          end
      | None => False
      end
  end.

(** * Properties *)

(** ** Strings *)

Lemma includes_In (l : list string) (x : string) : includes l x = true <-> In x l.
Proof.
  unfold includes. rewrite existsb_exists. split.
  - intros [y [Hy He]]. apply String.eqb_eq in He. now subst.
  - intros H. exists x. split; [assumption | apply String.eqb_refl].
Qed.

Lemma includes_not_In (l : list string) (x : string) :
  includes l x = false <-> ~ In x l.
Proof.
  rewrite <- includes_In. destruct (includes l x); split; congruence.
Qed.

Lemma truthy_true (s : string) : truthy s = true <-> s <> "".
Proof.
  unfold truthy. rewrite negb_true_iff. apply String.eqb_neq.
Qed.

Lemma has_char_append (c : ascii) (s t : string) :
  has_char c (s ++ t) = has_char c s || has_char c t.
Proof.
  induction s as [|d s IH]; simpl; [reflexivity|].
  rewrite IH. now rewrite orb_assoc.
Qed.

Lemma replace_backslashes_clean (s : string) :
  has_char backslash (replace_backslashes s) = false.
Proof.
  induction s as [|c s IH]; simpl; [reflexivity|].
  rewrite IH, orb_false_r.
  destruct (Ascii.eqb c backslash) eqn:E; [reflexivity | exact E].
Qed.

Lemma split_slash_nonempty (s : string) : split_slash s <> [].
Proof.
  destruct s as [|c s]; simpl; [discriminate|].
  destruct (Ascii.eqb c slash); [discriminate|].
  destruct (split_slash s); discriminate.
Qed.

Lemma split_slash_pieces (c : ascii) (s : string) :
  has_char c s = false ->
  Forall (fun piece => has_char c piece = false) (split_slash s).
Proof.
  induction s as [|d s IH]; simpl; intros H.
  - constructor; [reflexivity | constructor].
  - apply orb_false_iff in H as [Hd Hs]. specialize (IH Hs).
    destruct (Ascii.eqb d slash).
    + constructor; [reflexivity | assumption].
    + destruct (split_slash s) as [|h t]; inversion IH; subst;
        constructor; simpl; try rewrite Hd; auto.
Qed.

Lemma split_slash_no_slash (s : string) :
  Forall (fun piece => has_char slash piece = false) (split_slash s).
Proof.
  induction s as [|d s IH]; simpl.
  - constructor; [reflexivity | constructor].
  - destruct (Ascii.eqb d slash) eqn:E.
    + constructor; [reflexivity | assumption].
    + destruct (split_slash s) as [|h t]; inversion IH; subst;
        constructor; simpl; try rewrite E; auto.
Qed.

Lemma path_parts_segments (filePath : string) :
  Forall is_segment (path_parts filePath).
Proof.
  unfold path_parts. apply Forall_forall. intros s Hs.
  apply filter_In in Hs as [Hin Ht].
  pose proof (split_slash_no_slash (replace_backslashes filePath)) as H1.
  pose proof (split_slash_pieces backslash _
                (replace_backslashes_clean filePath)) as H2.
  rewrite Forall_forall in H1, H2.
  repeat split; [now apply truthy_true | now apply H1 | now apply H2].
Qed.

(** ** Plain objects *)

Section PlainObjectFacts.
Variable A : Type.
Implicit Types (o : Obj A) (k : string) (v : A).

Lemma own_In k o v : own k o = Some v -> In (k, v) o.
Proof.
  induction o as [|[k' v'] t IH]; simpl; [discriminate|].
  destruct (String.eqb k k') eqn:E.
  - apply String.eqb_eq in E. intros [= ->]. subst. now left.
  - intros H. right. now apply IH.
Qed.

Lemma own_None k o : own k o = None <-> ~ In k (map fst o).
Proof.
  induction o as [|[k' v'] t IH]; simpl; [tauto|].
  destruct (String.eqb k k') eqn:E.
  - apply String.eqb_eq in E. subst. split; [discriminate | tauto].
  - apply String.eqb_neq in E. rewrite IH. split; intros H.
    + intros [H1 | H1]; [congruence | tauto].
    + tauto.
Qed.

Lemma In_own k o v : NoDup (map fst o) -> In (k, v) o -> own k o = Some v.
Proof.
  induction o as [|[k' v'] t IH]; simpl; [tauto|].
  intros Hnd [H | H]; inversion Hnd; subst.
  - inversion H; subst. now rewrite String.eqb_refl.
  - destruct (String.eqb k k') eqn:E; [|now apply IH].
    apply String.eqb_eq in E. subst. exfalso. apply H2.
    apply (in_map fst) in H. exact H.
Qed.

Lemma own_define_own k k' v o :
  own k (define_own k' v o) =
  match own k o with
  | Some x => Some x
  | None => if String.eqb k k' then Some v else None
  end.
Proof.
  unfold define_own.
  induction o as [|[k0 v0] t IH]; simpl; [reflexivity|].
  destruct (String.eqb k k0); [reflexivity | exact IH].
Qed.

Lemma own_replace_own k k' v o :
  own k (replace_own k' v o) =
  if String.eqb k k'
  then match own k o with Some _ => Some v | None => None end
  else own k o.
Proof.
  induction o as [|[k0 v0] t IH]; simpl.
  - now destruct (String.eqb k k').
  - destruct (String.eqb k' k0) eqn:E1; simpl.
    + apply String.eqb_eq in E1. subst k0.
      destruct (String.eqb k k'); reflexivity.
    + destruct (String.eqb k k0) eqn:E2.
      * apply String.eqb_eq in E2. subst k0.
        rewrite String.eqb_sym, E1. reflexivity.
      * exact IH.
Qed.

Lemma keys_replace_own k v o : map fst (replace_own k v o) = map fst o.
Proof.
  induction o as [|[k0 v0] t IH]; simpl; [reflexivity|].
  destruct (String.eqb k k0); simpl; [reflexivity | now rewrite IH].
Qed.

Lemma keys_define_own k v o : map fst (define_own k v o) = map fst o ++ [k].
Proof. unfold define_own. now rewrite map_app. Qed.

Lemma Forall_replace_own (P : string * A -> Prop) k v o :
  Forall P o -> P (k, v) -> Forall P (replace_own k v o).
Proof.
  intros H Hk. induction H as [|[k0 v0] t H0 Ht IH]; simpl; [constructor|].
  destruct (String.eqb k k0) eqn:E.
  - apply String.eqb_eq in E. subst. now constructor.
  - now constructor.
Qed.

Lemma replace_own_nonempty k v o : o <> [] -> replace_own k v o <> [].
Proof.
  destruct o as [|[k0 v0] t]; simpl; [congruence|].
  destruct (String.eqb k k0); discriminate.
Qed.

Lemma insert_by_index_perm i v (l : list (N * A)) :
  Permutation (insert_by_index i v l) ((i, v) :: l).
Proof.
  induction l as [|[j w] t IH]; simpl; [reflexivity|].
  destruct (i <? j)%N; [reflexivity|].
  rewrite IH. apply perm_swap.
Qed.

Lemma Object_values_perm o : Permutation (Object_values o) (map snd o).
Proof.
  unfold Object_values.
  induction o as [|[k v] t IH]; simpl; [reflexivity|].
  destruct (array_index k) as [i|].
  - rewrite insert_by_index_perm. simpl. now constructor.
  - rewrite <- Permutation_middle. now constructor.
Qed.

Lemma Object_values_In o v : In v (Object_values o) <-> In v (map snd o).
Proof.
  split; apply Permutation_in;
    [| symmetry]; apply Object_values_perm.
Qed.

Lemma Object_values_no_index o :
  Forall (fun kv => array_index (fst kv) = None) o ->
  Object_values o = map snd o.
Proof.
  intros H. unfold Object_values.
  assert (E : indexed o = [] /\ named o = map snd o).
  { induction H as [|[k v] t Hk Ht [IH1 IH2]]; simpl in *; [auto|].
    rewrite Hk, IH1, IH2. auto. }
  destruct E as [-> ->]. reflexivity.
Qed.
End PlainObjectFacts.

Section ObjectValuesMap.
Variables A B : Type.
Variable f : A -> B.

Lemma insert_by_index_map i v (l : list (N * A)) :
  insert_by_index i (f v) (map (fun iv => (fst iv, f (snd iv))) l)
  = map (fun iv => (fst iv, f (snd iv))) (insert_by_index i v l).
Proof.
  induction l as [|[j w] t IH]; simpl; [reflexivity|].
  destruct (i <? j)%N; simpl; [reflexivity | now rewrite IH].
Qed.

(** Enumerating the values and mapping them commute. *)
Lemma Object_values_map (o : Obj A) :
  Object_values (map (fun kv => (fst kv, f (snd kv))) o)
  = map f (Object_values o).
Proof.
  unfold Object_values. rewrite map_app, map_map. f_equal.
  - assert (H : indexed (map (fun kv => (fst kv, f (snd kv))) o)
                = map (fun iv => (fst iv, f (snd iv))) (indexed o)).
    { induction o as [|[k v] t IH]; simpl; [reflexivity|].
      destruct (array_index k); [|exact IH].
      rewrite IH. apply insert_by_index_map. }
    rewrite H, map_map. reflexivity.
  - induction o as [|[k v] t IH]; simpl; [reflexivity|].
    destruct (array_index k); simpl; [exact IH | now rewrite IH].
Qed.
End ObjectValuesMap.

Lemma convert_values (o : Obj RawNode) :
  convert o = map convert_entry (Object_values o).
Proof. unfold convert. apply Object_values_map. Qed.

Lemma convert_entry_children (n : RawNode) :
  children (convert_entry n) =
  match raw_children n with
  | Some ch =>
      if (0 <? List.length ch)%nat then Some (convert ch) else None
  | None => None
  end.
Proof. destruct n as [nm p [ch|]]; reflexivity. Qed.

Lemma convert_In (o : Obj RawNode) (m : FileNode) :
  In m (convert o) <-> exists kv, In kv o /\ m = convert_entry (snd kv).
Proof.
  rewrite convert_values, in_map_iff. split.
  - intros [e [He Hin]]. apply Object_values_In, in_map_iff in Hin.
    destruct Hin as [kv [Hkv Hin]]. exists kv. subst. auto.
  - intros [kv [Hin ->]]. exists (snd kv). split; [reflexivity|].
    apply Object_values_In, in_map. exact Hin.
Qed.

Lemma convert_perm (o : Obj RawNode) :
  Permutation (convert o) (map convert_entry (map snd o)).
Proof.
  rewrite convert_values. apply Permutation_map, Object_values_perm.
Qed.

(** ** Building the entries *)

Lemma walk_cons_inv part rest cp (o o' : Obj RawNode) :
  walk (part :: rest) cp o = Some o' ->
  inherited part = false /\
  ((own part o = None /\ rest = [] /\
    o' = define_own part (mkRawNode part (join_path cp part) None) o)
   \/ (own part o = None /\ rest <> [] /\
       exists ch, walk rest (join_path cp part) [] = Some ch /\
         o' = define_own part (mkRawNode part (join_path cp part) (Some ch)) o)
   \/ (exists n ch ch', own part o = Some n /\ raw_children n = Some ch /\
         walk rest (join_path cp part) ch = Some ch' /\
         o' = replace_own part (with_children n ch') o)
   \/ (exists n, own part o = Some n /\ raw_children n = None /\
         (exists d, walk rest (join_path cp part) [] = Some d) /\ o' = o)).
Proof.
  simpl. destruct (inherited part); [discriminate|].
  intros H. split; [reflexivity|].
  destruct (own part o) as [n|] eqn:Eo.
  - destruct (raw_children n) as [ch|] eqn:Ec.
    + destruct (walk rest (join_path cp part) ch) as [ch'|] eqn:Ew;
        [|discriminate].
      injection H as <-. right. right. left. exists n, ch, ch'. auto.
    + destruct (walk rest (join_path cp part) []) as [d|] eqn:Ew;
        [|discriminate].
      injection H as <-. right. right. right. exists n.
      repeat split; eauto.
  - destruct rest as [|r rest'].
    + injection H as <-. left. auto.
    + destruct (walk (r :: rest') (join_path cp part) []) as [ch|] eqn:Ew;
        [|discriminate].
      injection H as <-. right. left.
      repeat split; [discriminate|]. exists ch. auto.
Qed.

Lemma define_own_nonempty (A : Type) k (v : A) (o : Obj A) : define_own k v o <> [].
Proof. unfold define_own. destruct o; discriminate. Qed.

Lemma own_Some_nonempty (A : Type) k (v : A) (o : Obj A) :
  own k o = Some v -> o <> [].
Proof. destruct o; [discriminate | discriminate]. Qed.

Lemma walk_nonempty parts cp (o o' : Obj RawNode) :
  walk parts cp o = Some o' -> parts <> [] \/ o <> [] -> o' <> [].
Proof.
  destruct parts as [|part rest].
  - simpl. intros [= <-] [H | H]; congruence.
  - intros H _. apply walk_cons_inv in H as [_ H].
    destruct H as [(_ & _ & ->) | [(_ & _ & ch & _ & ->) |
                  [(n & ch & ch' & Ho & _ & _ & ->) | (n & Ho & _ & _ & ->)]]].
    + apply define_own_nonempty.
    + apply define_own_nonempty.
    + apply replace_own_nonempty. eapply own_Some_nonempty; eauto.
    + eapply own_Some_nonempty; eauto.
Qed.

Lemma is_segment_nonempty s : is_segment s -> s <> "".
Proof. now intros [H _]. Qed.

Lemma join_path_nonempty cp part : part <> "" -> join_path cp part <> "".
Proof.
  unfold join_path. destruct (truthy cp) eqn:E; [|auto].
  intros _. apply truthy_true in E. destruct cp; [congruence | discriminate].
Qed.

Lemma wf_obj_nil parent : wf_obj parent [].
Proof. split; constructor. Qed.

Lemma walk_wf parts :
  Forall is_segment parts ->
  forall cp o o', wf_obj cp o -> walk parts cp o = Some o' -> wf_obj cp o'.
Proof.
  induction 1 as [|part rest Hseg Hrest IH]; intros cp o o' [Hnd Hall] Hw.
  - simpl in Hw. injection Hw as <-. now split.
  - apply walk_cons_inv in Hw as [_ Hw].
    destruct Hw as [(Ho & -> & ->) | [(Ho & Hne & ch & Hch & ->) |
                  [(n & ch & ch' & Ho & Hc & Hch & ->) | (n & _ & _ & _ & ->)]]].
    + split.
      * rewrite keys_define_own.
        apply Permutation_NoDup with (l := part :: map fst o).
        { apply Permutation_cons_append. }
        constructor; [now apply own_None | assumption].
      * unfold define_own. apply Forall_app. split; [assumption|].
        constructor; [|constructor]. simpl.
        constructor; simpl; auto. discriminate.
    + split.
      * rewrite keys_define_own.
        apply Permutation_NoDup with (l := part :: map fst o).
        { apply Permutation_cons_append. }
        constructor; [now apply own_None | assumption].
      * unfold define_own. apply Forall_app. split; [assumption|].
        constructor; [|constructor]. simpl.
        constructor; simpl; auto.
        intros ch0 [= <-].
        pose proof (IH _ _ _ (wf_obj_nil _) Hch) as [H1 H2].
        repeat split; auto.
        eapply walk_nonempty; eauto.
    + split.
      * now rewrite keys_replace_own.
      * apply own_In in Ho as Hin.
        rewrite Forall_forall in Hall. pose proof (Hall _ Hin) as Hn.
        simpl in Hn. inversion Hn as [? ? ? Hname Hk Hpath Hkids]; subst.
        destruct (Hkids _ Hc) as (Hne & Hndc & Hallc).
        rewrite <- Hpath in Hch.
        pose proof (IH _ _ _ (conj Hndc Hallc) Hch) as [H1 H2].
        apply Forall_replace_own; [now apply Forall_forall|]. simpl.
        constructor; simpl; auto.
        intros ch0 [= <-]. repeat split; auto.
        eapply walk_nonempty; eauto.
    + now split.
Qed.

Lemma add_file_wf (root root' : Obj RawNode) filePath :
  wf_obj "" root -> add_file root filePath = Some root' -> wf_obj "" root'.
Proof.
  unfold add_file. intros Hwf. destruct (truthy filePath).
  - apply walk_wf; [apply path_parts_segments | assumption].
  - now intros [= <-].
Qed.

Lemma add_files_wf files :
  forall root root',
    wf_obj "" root -> add_files files root = Some root' -> wf_obj "" root'.
Proof.
  induction files as [|f files IH]; simpl; intros root root' Hwf H.
  - now injection H as <-.
  - destruct (add_file root f) as [r|] eqn:E; [|discriminate].
    eapply IH; [|exact H]. eapply add_file_wf; eauto.
Qed.

(** ** From entries to nodes *)

Lemma convert_names (o : Obj RawNode) parent :
  Forall (fun kv => wf_raw parent (fst kv) (snd kv)) o ->
  Permutation (map name (convert o)) (map fst o).
Proof.
  intros Hall.
  rewrite (Permutation_map name (convert_perm o)), !map_map.
  assert (E : map fst o = map (fun x => name (convert_entry (snd x))) o).
  { apply map_ext_in. intros kv Hin.
    rewrite Forall_forall in Hall. specialize (Hall _ Hin).
    inversion Hall; subst. destruct (snd kv); simpl in *. congruence. }
  rewrite E. reflexivity.
Qed.

Lemma convert_length (o : Obj RawNode) : List.length (convert o) = List.length o.
Proof. rewrite (Permutation_length (convert_perm o)). now rewrite !length_map. Qed.

Lemma convert_entry_wf (n : RawNode) :
  forall parent key, wf_raw parent key n -> wf_node parent (convert_entry n).
Proof.
  induction n as [nm p | nm p ch IH] using RawNode_nested_ind;
    intros parent key Hwf; inversion Hwf as [? ? ? Hname Hk Hpath Hkids]; subst.
  - constructor; simpl; auto. discriminate.
  - destruct (Hkids _ eq_refl) as (Hne & Hnd & Hall).
    constructor; [exact Hk | exact Hpath |].
    intros l. rewrite convert_entry_children. simpl raw_children.
    cbv beta iota. destruct (0 <? List.length ch)%nat; [|discriminate].
    intros [= <-]. simpl path. simpl raw_path in Hall. repeat split.
    + intros E. apply (f_equal (@List.length _)) in E.
      rewrite convert_length in E. destruct ch; [congruence | discriminate E].
    + apply Permutation_NoDup with (l := map fst ch); [|assumption].
      symmetry. eapply convert_names; eauto.
    + apply Forall_forall. intros m Hm.
      apply convert_In in Hm as [kv [Hin ->]].
      rewrite Forall_forall in IH, Hall.
      eapply IH; eauto.
Qed.

Lemma convert_wf parent (o : Obj RawNode) :
  wf_obj parent o -> wf_forest parent (convert o).
Proof.
  intros [Hnd Hall]. split.
  - apply Permutation_NoDup with (l := map fst o); [|assumption].
    symmetry. eapply convert_names; eauto.
  - apply Forall_forall. intros m Hm.
    apply convert_In in Hm as [kv [Hin ->]].
    rewrite Forall_forall in Hall.
    eapply convert_entry_wf. apply (Hall _ Hin).
Qed.

Lemma buildTree_wf files tree :
  buildTree files = Some tree -> wf_forest "" tree.
Proof.
  unfold buildTree. destruct (add_files files []) as [root|] eqn:E; [|discriminate].
  intros [= <-]. apply convert_wf.
  eapply add_files_wf; [apply wf_obj_nil | exact E].
Qed.

(** ** Paths of the nodes *)

Lemma append_assoc (a b c : string) : ((a ++ b) ++ c = a ++ (b ++ c))%string.
Proof. induction a as [|x a IH]; simpl; [reflexivity | now rewrite IH]. Qed.

Lemma append_nil_r (a : string) : (a ++ "")%string = a.
Proof. induction a as [|x a IH]; simpl; [reflexivity | now rewrite IH]. Qed.

Lemma append_inv_head (a b c : string) : (a ++ b = a ++ c)%string -> b = c.
Proof. induction a as [|x a IH]; simpl; [auto | intros [= H]; auto]. Qed.

Lemma length_append (a b : string) :
  String.length (a ++ b) = String.length a + String.length b.
Proof. induction a as [|x a IH]; simpl; [reflexivity | now rewrite IH]. Qed.

Lemma append_self (a b : string) : a = (a ++ b)%string -> b = "".
Proof.
  intros H. apply (f_equal String.length) in H. rewrite length_append in H.
  destruct b; [reflexivity | simpl in H; lia].
Qed.

Lemma split_slash_append (a b : string) :
  split_slash (a ++ String slash b) = split_slash a ++ split_slash b.
Proof.
  induction a as [|c a IH]; simpl; [reflexivity|].
  destruct (Ascii.eqb c slash); [now rewrite IH|].
  rewrite IH. pose proof (split_slash_nonempty a) as Hne.
  destruct (split_slash a); [congruence | reflexivity].
Qed.

Lemma split_slash_segment (s : string) :
  has_char slash s = false -> split_slash s = [s].
Proof.
  induction s as [|c s IH]; simpl; [reflexivity|].
  intros H. apply orb_false_iff in H as [Hc Hs].
  rewrite Hc, (IH Hs). reflexivity.
Qed.

Lemma segment_cancel (a : string) :
  forall b x y,
    has_char slash a = false -> has_char slash b = false ->
    tail_ok x -> tail_ok y -> (a ++ x = b ++ y)%string -> a = b.
Proof.
  induction a as [|c a IH]; intros b x y Ha Hb Hx Hy E; simpl in *.
  - destruct b as [|d b]; [reflexivity|]. exfalso. simpl in *.
    apply orb_false_iff in Hb as [Hd _].
    destruct Hx as [-> | [r ->]]; [discriminate|].
    injection E as E1 _. subst d. unfold slash in Hd.
    now rewrite Ascii.eqb_refl in Hd.
  - apply orb_false_iff in Ha as [Hc Ha].
    destruct b as [|d b]; simpl in *.
    + exfalso. destruct Hy as [-> | [r ->]]; [discriminate|].
      injection E as E1 _. subst c. unfold slash in Hc.
      now rewrite Ascii.eqb_refl in Hc.
    + apply orb_false_iff in Hb as [Hd Hb].
      injection E as -> E. f_equal. exact (IH b x y Ha Hb Hx Hy E).
Qed.

Lemma under_tail (p q : string) :
  under p q <-> exists x, tail_ok x /\ q = (p ++ x)%string.
Proof.
  unfold under, tail_ok. split.
  - intros [-> | [r ->]].
    + exists "". rewrite append_nil_r. auto.
    + exists (String slash r). split; [eauto | reflexivity].
  - intros [x [[-> | [r ->]] ->]].
    + left. apply append_nil_r.
    + right. exists r. reflexivity.
Qed.

Lemma under_refl (p : string) : under p p.
Proof. now left. Qed.

Lemma under_trans (p q r : string) : under p q -> under q r -> under p r.
Proof.
  unfold under. intros [-> | [a ->]] [-> | [b ->]]; eauto.
  right. exists (a ++ "/" ++ b)%string.
  rewrite !append_assoc. reflexivity.
Qed.

Lemma under_join (p s : string) : p <> "" -> under p (join_path p s).
Proof.
  intros H. unfold join_path. apply truthy_true in H. rewrite H.
  right. now exists s.
Qed.

Lemma under_longer (p s q : string) :
  p <> "" -> s <> "" -> under (join_path p s) q -> q <> p.
Proof.
  intros Hp Hs Hu E. subst q. unfold join_path in Hu.
  apply truthy_true in Hp. rewrite Hp in Hu.
  destruct Hu as [Hu | [r Hu]].
  - apply append_self in Hu. discriminate.
  - rewrite append_assoc in Hu. apply append_self in Hu. discriminate.
Qed.

Lemma siblings_apart (parent a b q : string) :
  is_segment a -> is_segment b ->
  under (join_path parent a) q -> under (join_path parent b) q -> a = b.
Proof.
  intros (_ & Ha & _) (_ & Hb & _) Hua Hub.
  apply under_tail in Hua as [x [Hx ->]].
  apply under_tail in Hub as [y [Hy E]].
  unfold join_path in E. destruct (truthy parent).
  - rewrite !append_assoc in E. apply append_inv_head in E.
    simpl in E. injection E as E. exact (segment_cancel a b Ha Hb Hx Hy E).
  - exact (segment_cancel a b Ha Hb Hx Hy E).
Qed.

Lemma subnodes_under (n : FileNode) :
  forall parent, wf_node parent n ->
    forall m, In m (subnodes n) -> under (path n) (path m).
Proof.
  induction n as [nm p | nm p ch IH] using FileNode_nested_ind;
    intros parent Hwf m Hm; simpl in Hm.
  - destruct Hm as [<- | []]. apply under_refl.
  - destruct Hm as [<- | Hm]; [apply under_refl|].
    apply in_flat_map in Hm as [c [Hc Hm]].
    inversion Hwf as [? ? Hs Hp Hkids]; subst.
    destruct (Hkids _ eq_refl) as (_ & _ & Hall).
    rewrite Forall_forall in IH, Hall. simpl in *.
    pose proof (Hall _ Hc) as Hwc.
    apply under_trans with (q := path c).
    + inversion Hwc as [? ? _ Hpc _]; subst. rewrite Hpc.
      apply under_join.
      apply join_path_nonempty, is_segment_nonempty, Hs.
    + eapply IH; eauto.
Qed.

Lemma forest_paths_NoDup parent (l : list FileNode) :
  NoDup (map name l) ->
  Forall (wf_node parent) l ->
  Forall (fun c => NoDup (map path (subnodes c))) l ->
  NoDup (map path (flat_map subnodes l)).
Proof.
  induction l as [|c l IH]; simpl; intros Hnd Hwf Hsub; [constructor|].
  inversion Hnd as [|? ? Hnotin Hnd']; subst.
  inversion Hwf as [|? ? Hwc Hwl]; subst.
  inversion Hsub as [|? ? Hsc Hsl]; subst.
  rewrite map_app. apply NoDup_app; [assumption | now apply IH |].
  intros q Hq1 Hq2.
  apply in_map_iff in Hq1 as [m1 [<- Hm1]].
  apply in_map_iff in Hq2 as [m2 [E Hm2]].
  apply in_flat_map in Hm2 as [c' [Hc' Hm2]].
  rewrite Forall_forall in Hwl. pose proof (Hwl _ Hc') as Hwc'.
  pose proof (subnodes_under Hwc _ Hm1) as U1.
  pose proof (subnodes_under Hwc' _ Hm2) as U2.
  rewrite E in U2.
  inversion Hwc as [? ? Hs1 Hp1 _]; subst.
  inversion Hwc' as [? ? Hs2 Hp2 _]; subst.
  rewrite Hp1 in U1. rewrite Hp2 in U2.
  apply Hnotin.
  rewrite (@siblings_apart parent (name c) (name c') (path m1) Hs1 Hs2 U1 U2).
  now apply in_map.
Qed.

Lemma subnodes_paths_NoDup (n : FileNode) :
  forall parent, wf_node parent n -> NoDup (map path (subnodes n)).
Proof.
  induction n as [nm p | nm p ch IH] using FileNode_nested_ind;
    intros parent Hwf; simpl.
  - constructor; [tauto | constructor].
  - inversion Hwf as [? ? Hs Hp Hkids]; subst.
    destruct (Hkids _ eq_refl) as (_ & Hnd & Hall). simpl in *.
    constructor.
    + intros Hin. apply in_map_iff in Hin as [m [E Hm]].
      apply in_flat_map in Hm as [c [Hc Hm]].
      rewrite Forall_forall in Hall. pose proof (Hall _ Hc) as Hwc.
      pose proof (subnodes_under Hwc _ Hm) as U.
      inversion Hwc as [? ? Hsc Hpc _]; subst. rewrite Hpc, E in U.
      assert (Hne : join_path parent nm <> "")
        by apply join_path_nonempty, is_segment_nonempty, Hs.
      exact (@under_longer _ _ _ Hne (is_segment_nonempty Hsc) U eq_refl).
    + eapply forest_paths_NoDup; eauto.
      rewrite Forall_forall in IH, Hall |- *.
      intros c Hc. eapply IH; eauto.
Qed.

Lemma wf_forest_paths_NoDup parent (l : list FileNode) :
  wf_forest parent l -> NoDup (all_paths l).
Proof.
  intros [Hnd Hall]. unfold all_paths, all_nodes.
  eapply forest_paths_NoDup; eauto.
  rewrite Forall_forall in Hall |- *.
  intros c Hc. eapply subnodes_paths_NoDup; eauto.
Qed.

Lemma buildTree_paths_NoDup files tree :
  buildTree files = Some tree -> NoDup (all_paths tree).
Proof.
  intros H. eapply wf_forest_paths_NoDup, buildTree_wf, H.
Qed.

(** ** Shape of the built tree *)

Lemma subnodes_self (n : FileNode) : In n (subnodes n).
Proof. destruct n as [nm p [ch|]]; simpl; auto. Qed.

Lemma subnodes_child (n c m : FileNode) ch :
  children n = Some ch -> In c ch -> In m (subnodes c) -> In m (subnodes n).
Proof.
  destruct n as [nm p kids]. simpl. intros -> Hc Hm. right.
  apply in_flat_map. eauto.
Qed.

Lemma subnodes_inv (n m : FileNode) :
  In m (subnodes n) ->
  m = n \/ exists ch c, children n = Some ch /\ In c ch /\ In m (subnodes c).
Proof.
  destruct n as [nm p [ch|]]; simpl.
  - intros [<- | H]; [auto|]. right. apply in_flat_map in H as [c [Hc Hm]].
    exists ch, c. auto.
  - intros [<- | []]. auto.
Qed.

Lemma convert_entry_no_empty_children (e : RawNode) :
  forall m, In m (subnodes (convert_entry e)) -> children m <> Some [].
Proof.
  induction e as [nm p | nm p ch IH] using RawNode_nested_ind; intros m Hm.
  - destruct Hm as [<- | []]. discriminate.
  - apply subnodes_inv in Hm as [-> | (l & c & Hl & Hc & Hm)].
    + rewrite convert_entry_children. simpl raw_children. cbv beta iota.
      destruct ch as [|kv ch']; [discriminate|].
      simpl Nat.ltb. cbv iota. intros [= E].
      apply (f_equal (@List.length _)) in E. rewrite convert_length in E.
      discriminate E.
    + rewrite convert_entry_children in Hl. simpl raw_children in Hl.
      cbv beta iota in Hl.
      destruct (0 <? List.length ch)%nat; [|discriminate Hl].
      injection Hl as <-. apply convert_In in Hc as [kv [Hin ->]].
      rewrite Forall_forall in IH. exact (IH _ Hin _ Hm).
Qed.

Lemma join_path_clean parent s :
  parent = "" \/ clean parent -> is_segment s -> clean (join_path parent s).
Proof.
  intros Hp (Hne & Hsl & Hbs).
  unfold join_path, clean, no_backslash, no_empty_segment in *.
  destruct (truthy parent) eqn:Et.
  - destruct Hp as [-> | [Hb He]]; [discriminate Et|].
    split.
    + rewrite has_char_append. rewrite Hb. simpl. exact Hbs.
    + change ("/" ++ s)%string with (String slash s).
      rewrite split_slash_append, (split_slash_segment _ Hsl).
      intros Hin. apply in_app_or in Hin as [Hin | [E | []]]; [tauto | congruence].
  - split; [exact Hbs|]. rewrite (split_slash_segment _ Hsl).
    intros [E | []]. congruence.
Qed.

Lemma join_path_below p s : p <> "" -> join_path p s = (p ++ "/" ++ s)%string.
Proof. intros H. unfold join_path. apply truthy_true in H. now rewrite H. Qed.

Lemma wf_node_shape (n : FileNode) :
  forall parent, wf_node parent n -> parent = "" \/ clean parent ->
    forall m, In m (subnodes n) ->
      clean (path m) /\
      forall ch c, children m = Some ch -> In c ch ->
        path c = (path m ++ "/" ++ name c)%string.
Proof.
  induction n as [nm p | nm p ch IH] using FileNode_nested_ind;
    intros parent Hwf Hpar m Hm;
    inversion Hwf as [? ? Hs Hp Hkids]; subst; simpl in Hp, Hs.
  - destruct Hm as [<- | []]. simpl. split; [|discriminate].
    subst p. now apply join_path_clean.
  - assert (Hclean : clean p) by (subst p; now apply join_path_clean).
    destruct (Hkids _ eq_refl) as (_ & _ & Hall). simpl in Hall.
    rewrite Forall_forall in Hall.
    apply subnodes_inv in Hm as [-> | (l & c & Hl & Hc & Hm)].
    + simpl. split; [exact Hclean|]. intros l c [= <-] Hc.
      specialize (Hall _ Hc). inversion Hall as [? ? _ Hpc _]; subst.
      rewrite Hpc. apply join_path_below.
      apply join_path_nonempty, is_segment_nonempty, Hs.
    + simpl in Hl. injection Hl as <-.
      rewrite Forall_forall in IH.
      exact (IH _ Hc _ (Hall _ Hc) (or_intror Hclean) _ Hm).
Qed.

Lemma all_nodes_inv (tree : list FileNode) (m : FileNode) :
  In m (all_nodes tree) <-> exists n, In n tree /\ In m (subnodes n).
Proof. apply in_flat_map. Qed.

(** C9: no node of a tree returned by [buildTree] has an empty [children]
    collection; a node has no [children] field (a leaf) or at least one
    child (a folder). *)
Theorem buildTree_no_empty_children (files : list string) (tree : list FileNode) :
  buildTree files = Some tree ->
  forall n, In n (all_nodes tree) ->
    children n = None \/
    exists c rest, children n = Some (c :: rest).
Proof.
  unfold buildTree.
  destruct (add_files files []) as [root|]; [|discriminate].
  intros [= <-] n Hn.
  apply all_nodes_inv in Hn as [top [Htop Hn]].
  apply convert_In in Htop as [kv [_ ->]].
  pose proof (convert_entry_no_empty_children _ _ Hn) as H.
  destruct (children n) as [[|c rest]|]; [congruence | right; eauto | now left].
Qed.

Lemma buildTree_no_empty_children_witness :
  buildTree demo_files = Some demo_tree /\
  (children demo_sub = None \/
   exists c rest, children demo_sub = Some (c :: rest)).
Proof.
  split; [reflexivity|].
  apply (@buildTree_no_empty_children demo_files demo_tree eq_refl demo_sub).
  simpl. auto.
Defined.

(** C10: in a tree returned by [buildTree], the path of a top-level node is
    its name, the path of a child is its parent's path, ["/"], and its
    name, and no node path contains a backslash or an empty segment (no
    leading, trailing or doubled ["/"]). *)
Theorem buildTree_path_shape (files : list string) (tree : list FileNode) :
  buildTree files = Some tree ->
  (forall n, In n tree -> path n = name n) /\
  (forall n, In n (all_nodes tree) ->
     no_backslash (path n) /\ no_empty_segment (path n) /\
     forall ch c, children n = Some ch -> In c ch ->
       path c = (path n ++ "/" ++ name c)%string).
Proof.
  intros H. apply buildTree_wf in H as [_ Hall].
  rewrite Forall_forall in Hall. split.
  - intros n Hn. specialize (Hall _ Hn).
    inversion Hall as [? ? _ Hp _]; subst. exact Hp.
  - intros n Hn. apply all_nodes_inv in Hn as [top [Htop Hn]].
    destruct (wf_node_shape (Hall _ Htop) (or_introl eq_refl) _ Hn)
      as [[Hb He] Hkids].
    auto.
Qed.

Lemma buildTree_path_shape_witness :
  buildTree demo_files = Some demo_tree /\
  path demo_root = name demo_root /\
  no_backslash (path demo_sub) /\ no_empty_segment (path demo_sub) /\
  path (leaf "b.txt" "root/sub/b.txt")
  = (path demo_sub ++ "/" ++ name (leaf "b.txt" "root/sub/b.txt"))%string.
Proof.
  destruct (@buildTree_path_shape demo_files demo_tree eq_refl) as [Htop Hall].
  split; [reflexivity|]. split; [apply Htop; simpl; auto|].
  destruct (Hall demo_sub) as (Hb & He & Hkids); [simpl; auto|].
  split; [exact Hb|]. split; [exact He|].
  eapply Hkids; [reflexivity | simpl; auto].
Defined.

(** ** Sets in insertion order *)

Lemma Set_add_In (s : list string) (x q : string) :
  In q (Set_add s x) <-> In q s \/ q = x.
Proof.
  unfold Set_add. destruct (includes s x) eqn:E.
  - apply includes_In in E. split; [auto | intros [H | ->]; auto].
  - rewrite in_app_iff. simpl. split; intros [H | H]; auto.
    + destruct H as [<- | []]. auto.
Qed.

Lemma Set_add_NoDup (s : list string) (x : string) :
  NoDup s -> NoDup (Set_add s x).
Proof.
  unfold Set_add. intros H. destruct (includes s x) eqn:E; [assumption|].
  apply includes_not_In in E.
  apply Permutation_NoDup with (l := x :: s);
    [apply Permutation_cons_append | now constructor].
Qed.

Lemma fold_Set_add_In (l s : list string) (q : string) :
  In q (fold_left Set_add l s) <-> In q s \/ In q l.
Proof.
  revert s. induction l as [|x l IH]; intros s; simpl; [tauto|].
  rewrite IH, Set_add_In. split; intros H; intuition auto.
Qed.

Lemma fold_Set_add_NoDup (l s : list string) :
  NoDup s -> NoDup (fold_left Set_add l s).
Proof.
  revert s. induction l as [|x l IH]; intros s H; simpl; [assumption|].
  apply IH, Set_add_NoDup, H.
Qed.

Lemma Set_from_In (l : list string) (q : string) : In q (Set_from l) <-> In q l.
Proof. unfold Set_from. rewrite fold_Set_add_In. simpl. tauto. Qed.

Lemma Set_from_NoDup (l : list string) : NoDup (Set_from l).
Proof. apply fold_Set_add_NoDup. constructor. Qed.

(** ** Re-deriving the folders *)

Lemma remove_first_other (x q : string) (l : list string) :
  q <> x -> (In q (remove_first x l) <-> In q l).
Proof.
  intros Hne. induction l as [|y l IH]; simpl; [tauto|].
  destruct (String.eqb x y) eqn:E.
  - apply String.eqb_eq in E. subst y. split; [auto | intros [H | H]; congruence || auto].
  - simpl. rewrite IH. tauto.
Qed.

Lemma remove_first_NoDup (x : string) (l : list string) :
  NoDup l -> NoDup (remove_first x l) /\ ~ In x (remove_first x l).
Proof.
  induction 1 as [|y l Hy Hl [IH1 IH2]]; simpl.
  - split; [constructor | tauto].
  - destruct (String.eqb x y) eqn:E.
    + apply String.eqb_eq in E. subst y. auto.
    + apply String.eqb_neq in E. split.
      * constructor; [|assumption].
        intros Hin. apply Hy. apply remove_first_other in Hin; congruence.
      * intros [H | H]; [congruence | tauto].
Qed.

Lemma processNode_folder (n : FileNode) ch (s : list string) :
  children n = Some ch ->
  processNode n s =
  let r := process_children processNode ch s in
  let all := forallb (fun state => state) (fst r) in
  (all,
   if all
   then if negb (includes (snd r) (path n)) then snd r ++ [path n] else snd r
   else remove_first (path n) (snd r)).
Proof.
  destruct n as [nm p kids]. simpl. intros ->.
  destruct (process_children processNode ch s) as [states s1]. simpl.
  destruct (forallb (fun state => state) states); reflexivity.
Qed.

Lemma process_children_cons process (c : FileNode) l (s : list string) :
  process_children process (c :: l) s =
  (fst (process c s) :: fst (process_children process l (snd (process c s))),
   snd (process_children process l (snd (process c s)))).
Proof.
  simpl. destruct (process c s) as [b s1]. simpl.
  destruct (process_children process l s1); reflexivity.
Qed.

Lemma process_children_frame (l : list FileNode) (q : string) :
  Forall (fun c => forall s, not_folder_of (subnodes c) q ->
            (In q (snd (processNode c s)) <-> In q s)) l ->
  forall s, not_folder_of (flat_map subnodes l) q ->
    (In q (snd (process_children processNode l s)) <-> In q s).
Proof.
  induction 1 as [|c l Hc Hl IH]; intros s Hq; [reflexivity|].
  rewrite process_children_cons. simpl snd.
  rewrite IH, Hc; [reflexivity | |];
    intros m Hm; apply Hq; simpl; apply in_or_app; auto.
Qed.

(** [processNode] changes the membership of folder paths of the node's
    subtree only. *)
Lemma processNode_frame (n : FileNode) (q : string) :
  forall s, not_folder_of (subnodes n) q ->
    (In q (snd (processNode n s)) <-> In q s).
Proof.
  induction n as [nm p | nm p ch IH] using FileNode_nested_ind; intros s Hq.
  - reflexivity.
  - rewrite (@processNode_folder (mkFileNode nm p (Some ch)) ch s eq_refl).
    cbv zeta. simpl snd. simpl path.
    assert (Hne : q <> p).
    { intros ->. apply (Hq (mkFileNode nm p (Some ch)));
        [apply subnodes_self | discriminate | reflexivity]. }
    assert (Hkids : In q (snd (process_children processNode ch s)) <-> In q s).
    { apply process_children_frame; [exact IH|].
      intros m Hm. apply Hq. simpl. auto. }
    destruct (forallb _ _).
    + destruct (negb _); [|exact Hkids].
      rewrite in_app_iff, Hkids. simpl. intuition congruence.
    + rewrite remove_first_other; assumption.
Qed.

Lemma updateParentStates_frame (tree : list FileNode) (s : list string) (q : string) :
  not_folder_of (all_nodes tree) q ->
  (In q (updateParentStates tree s) <-> In q s).
Proof.
  intros Hq. unfold updateParentStates.
  apply process_children_frame; [|exact Hq].
  apply Forall_forall. intros c _ s'. apply processNode_frame.
Qed.

(** In a tree whose node paths are pairwise distinct, the path of a leaf is
    the path of no folder. *)
Lemma NoDup_map_eq (A B : Type) (f : A -> B) (l : list A) (a b : A) :
  NoDup (map f l) -> In a l -> In b l -> f a = f b -> a = b.
Proof.
  induction l as [|x l IH]; simpl; [tauto|].
  intros Hnd Ha Hb E. inversion Hnd as [|? ? Hx Hl]; subst.
  destruct Ha as [-> | Ha], Hb as [-> | Hb]; auto.
  - exfalso. apply Hx. rewrite E. now apply in_map.
  - exfalso. apply Hx. rewrite <- E. now apply in_map.
Qed.

Lemma leaf_not_folder (nodes : list FileNode) (n : FileNode) :
  NoDup (map path nodes) -> In n nodes -> is_leaf n ->
  not_folder_of nodes (path n).
Proof.
  intros Hnd Hn Hleaf m Hm Hfolder E.
  rewrite (NoDup_map_eq path nodes m n Hnd Hm Hn E) in Hfolder.
  exact (Hfolder Hleaf).
Qed.

Lemma toggleFile_selected (st : FileTreeState) (p : string) :
  selected (toggleFile st p) =
  updateParentStates (tree st)
    (if includes (selected st) p
     then filter (fun f => negb (String.eqb f p)) (selected st)
     else selected st ++ [p]).
Proof. reflexivity. Qed.

Lemma flip_other (s : list string) (p q : string) :
  q <> p ->
  (In q (if includes s p
         then filter (fun f => negb (String.eqb f p)) s
         else s ++ [p]) <-> In q s).
Proof.
  intros Hne. destruct (includes s p).
  - rewrite filter_In. apply String.eqb_neq in Hne. rewrite Hne. simpl. tauto.
  - rewrite in_app_iff. simpl. intuition congruence.
Qed.

Lemma flip_self (s : list string) (p : string) :
  In p (if includes s p
        then filter (fun f => negb (String.eqb f p)) s
        else s ++ [p]) <-> ~ In p s.
Proof.
  destruct (includes s p) eqn:E.
  - apply includes_In in E. rewrite filter_In, String.eqb_refl. simpl.
    intuition congruence.
  - apply includes_not_In in E. rewrite in_app_iff. simpl. tauto.
Qed.

(** ** Toggling a leaf *)

(** C8: toggling the leaf [p] changes the membership of no other leaf of
    the tree; more generally, apart from [p] only folder paths can be added
    or removed. *)
Theorem toggleFile_other_leaves
    (files : list string) (st : FileTreeState) (p : string) :
  buildTree files = Some (tree st) ->
  (forall n, In n (all_nodes (tree st)) -> is_leaf n -> path n <> p ->
     (In (path n) (selected (toggleFile st p)) <-> In (path n) (selected st)))
  /\
  (forall q, q <> p -> not_folder_of (all_nodes (tree st)) q ->
     (In q (selected (toggleFile st p)) <-> In q (selected st))).
Proof.
  intros Hbuild.
  assert (Hframe : forall q, q <> p -> not_folder_of (all_nodes (tree st)) q ->
            (In q (selected (toggleFile st p)) <-> In q (selected st))).
  { intros q Hne Hq. rewrite toggleFile_selected.
    rewrite updateParentStates_frame by exact Hq.
    now apply flip_other. }
  split; [|exact Hframe].
  intros n Hn Hleaf Hne. apply Hframe; [exact Hne|].
  apply leaf_not_folder; [|exact Hn | exact Hleaf].
  apply (buildTree_paths_NoDup _ Hbuild).
Qed.

Lemma toggleFile_other_leaves_witness :
  buildTree demo_files = Some (tree (demo_state ["root/a.txt"])) /\
  (In "root/a.txt" (selected (toggleFile (demo_state ["root/a.txt"]) "root/sub/b.txt"))
   <-> In "root/a.txt" (selected (demo_state ["root/a.txt"]))).
Proof.
  split; [reflexivity|].
  apply (proj1 (@toggleFile_other_leaves demo_files (demo_state ["root/a.txt"])
                  "root/sub/b.txt" eq_refl) (leaf "a.txt" "root/a.txt")).
  - simpl. auto.
  - reflexivity.
  - discriminate.
Defined.

(** C4, as stated, fails: toggling a path that names no node of the tree
    adds it to the selection. *)
Lemma toggleFile_absent_path_counterexample :
  ~ In "notes.txt" (all_paths demo_tree) /\
  ~ (forall q, In q (selected (toggleFile (demo_state []) "notes.txt"))
               <-> In q (selected (demo_state []))).
Proof.
  split.
  - simpl. intros H. repeat (destruct H as [H | H]; [discriminate H|]). exact H.
  - intros H. apply (proj1 (H "notes.txt")). vm_compute. auto.
Qed.

(** C4, amended: toggling a path [p] that names no node of the tree flips
    the membership of [p] itself and leaves the membership of every other
    path unchanged, folder paths apart (these are re-derived). *)
Theorem toggleFile_absent_path (st : FileTreeState) (p : string) :
  ~ In p (all_paths (tree st)) ->
  (In p (selected (toggleFile st p)) <-> ~ In p (selected st)) /\
  (forall q, q <> p -> not_folder_of (all_nodes (tree st)) q ->
     (In q (selected (toggleFile st p)) <-> In q (selected st))).
Proof.
  intros Habsent. split.
  - rewrite toggleFile_selected, updateParentStates_frame; [apply flip_self|].
    intros m Hm _ E. apply Habsent. rewrite <- E.
    unfold all_paths. now apply in_map.
  - intros q Hne Hq. rewrite toggleFile_selected.
    rewrite updateParentStates_frame by exact Hq.
    now apply flip_other.
Qed.

Lemma not_in_demo_paths (p : string) :
  p <> "root" -> p <> "root/a.txt" -> p <> "root/sub" ->
  p <> "root/sub/b.txt" -> p <> "root/sub/c.txt" ->
  ~ In p (all_paths demo_tree).
Proof. simpl. intuition congruence. Qed.

Lemma toggleFile_absent_path_witness :
  ~ In "notes.txt" (all_paths (tree (demo_state ["root/a.txt"]))) /\
  (In "notes.txt" (selected (toggleFile (demo_state ["root/a.txt"]) "notes.txt"))
   <-> ~ In "notes.txt" (selected (demo_state ["root/a.txt"]))).
Proof.
  assert (H : ~ In "notes.txt" (all_paths (tree (demo_state ["root/a.txt"]))))
    by (apply not_in_demo_paths; discriminate).
  split; [exact H|].
  exact (proj1 (@toggleFile_absent_path (demo_state ["root/a.txt"]) "notes.txt" H)).
Defined.

(** ** Toggling a folder *)

Lemma areAllChildrenSelected_folder (s : list string) (n : FileNode) :
  is_folder n ->
  (areAllChildrenSelected s n = true <->
   forall q, In q (getAllDescendantFiles n) -> In q s).
Proof.
  unfold is_folder, areAllChildrenSelected. destruct (children n); [|congruence].
  intros _. rewrite forallb_forall. split; intros H q Hq.
  - now apply includes_In, H.
  - now apply includes_In, H.
Qed.

(** C2, as stated, fails: on a partially selected folder the first toggle
    selects every descendant and the second removes them all, so the
    descendant selected at the start is lost. *)
Lemma toggleFolder_twice_counterexample :
  ~ (forall q,
       In q (selected (toggleFolder (toggleFolder (demo_state ["root/sub/b.txt"])
                                       demo_sub) demo_sub))
       <-> In q (selected (demo_state ["root/sub/b.txt"]))).
Proof.
  intros H. apply (proj2 (H "root/sub/b.txt")). simpl. auto.
Qed.

(** C2, amended: when the descendant leaves of the folder are all selected,
    or none of them is, toggling the folder twice gives back a selection
    with the same members. *)
Theorem toggleFolder_twice (st : FileTreeState) (f : FileNode) :
  (forall q, In q (getAllDescendantFiles f) -> In q (selected st)) \/
  (forall q, In q (getAllDescendantFiles f) -> ~ In q (selected st)) ->
  forall q,
    In q (selected (toggleFolder (toggleFolder st f) f)) <-> In q (selected st).
Proof.
  intros Hcase q. unfold toggleFolder.
  destruct (children f) as [ch|] eqn:Ech; [|reflexivity].
  assert (Hf : is_folder f) by (unfold is_folder; congruence).
  pose proof (fun s' => @areAllChildrenSelected_folder s' f Hf) as Hsel.
  set (d := getAllDescendantFiles f) in *.
  set (s := selected st) in *.
  assert (Hd : forall l x, In x (filter (fun g => negb (includes d g)) l)
                           <-> In x l /\ ~ In x d).
  { intros l x. rewrite filter_In, negb_true_iff, includes_not_In. tauto. }
  cbv zeta. simpl selected. fold d. fold s.
  destruct (areAllChildrenSelected s f) eqn:Eall.
  - (* every descendant was selected *)
    pose proof (proj1 (Hsel _) Eall) as Hin1. clear Eall.
    destruct (areAllChildrenSelected (filter _ s) f) eqn:E2.
    + pose proof (proj1 (Hsel _) E2) as Hin2.
      rewrite !Hd. split; [tauto|]. intros Hq.
      assert (~ In q d); [|tauto].
      intros Hin. pose proof (Hin2 _ Hin) as H2. apply Hd in H2. tauto.
    + rewrite Set_from_In, in_app_iff, Hd. split; [|intros Hq].
      * intros [[H _] | H]; auto.
      * destruct (in_dec string_dec q d); auto.
  - (* some descendant was not selected *)
    assert (Hnone : forall x, In x d -> ~ In x s).
    { destruct Hcase as [Hall | Hnone]; [|exact Hnone].
      pose proof (proj2 (Hsel _) Hall). congruence. }
    clear Eall. destruct (areAllChildrenSelected (Set_from _) f) eqn:E2.
    + rewrite Hd, Set_from_In, in_app_iff. split.
      * intros [[H | H] Hn]; tauto.
      * intros Hq. split; [auto|]. intros Hin. exact (Hnone _ Hin Hq).
    + exfalso.
      assert (H : areAllChildrenSelected (Set_from (s ++ d)) f = true).
      { apply (proj2 (Hsel _)). intros x Hx. apply Set_from_In, in_or_app. auto. }
      congruence.
Qed.

Lemma toggleFolder_twice_witness :
  In "root/a.txt"
    (selected (toggleFolder (toggleFolder (demo_state ["root/a.txt"])
                               demo_sub) demo_sub))
  <-> In "root/a.txt" (selected (demo_state ["root/a.txt"])).
Proof.
  apply (@toggleFolder_twice (demo_state ["root/a.txt"]) demo_sub).
  right. simpl. intros q [<- | [<- | []]] [H | []]; discriminate H.
Defined.

(** C6: in the tree [root/{a.txt, sub/{b.txt, c.txt}}], toggling the folder
    [sub] from the empty selection selects exactly [root/sub/b.txt] and
    [root/sub/c.txt]; [sub] is then shown selected and [root] is not. *)
Theorem toggleFolder_cascade :
  buildTree demo_files = Some demo_tree /\
  selected (toggleFolder (demo_state []) demo_sub)
  = ["root/sub/b.txt"; "root/sub/c.txt"] /\
  isChecked (selected (toggleFolder (demo_state []) demo_sub)) demo_sub = true /\
  isChecked (selected (toggleFolder (demo_state []) demo_sub)) demo_root = false /\
  areAllChildrenSelected (selected (toggleFolder (demo_state []) demo_sub)) demo_sub
  = true /\
  areAllChildrenSelected (selected (toggleFolder (demo_state []) demo_sub)) demo_root
  = false.
Proof. repeat split; reflexivity. Qed.

(** C7: the selection handlers leave the expanded set as it is, and the
    expansion handler, in both of its branches (expand and collapse), leaves
    the selection as it is; neither touches the tree. *)
Theorem selection_expansion_independent
    (st : FileTreeState) (p : string) (node : FileNode) :
  (expanded (toggleFile st p) = expanded st /\
   expanded (toggleFolder st node) = expanded st) /\
  selected (toggleExpand st p) = selected st /\
  (tree (toggleFile st p) = tree st /\
   tree (toggleFolder st node) = tree st /\
   tree (toggleExpand st p) = tree st).
Proof.
  unfold toggleFolder. destruct (children node); repeat split; reflexivity.
Qed.

(** ** Folders and what is added below them *)

Lemma add_file_walk (root : Obj RawNode) (filePath : string) :
  add_file root filePath = walk (path_parts filePath) "" root.
Proof.
  unfold add_file. destruct (truthy filePath) eqn:E; [reflexivity|].
  unfold truthy in E. apply negb_false_iff, String.eqb_eq in E. now subst.
Qed.

Lemma add_files_app (a b : list string) (o : Obj RawNode) :
  add_files (a ++ b) o =
  match add_files a o with
  | Some o1 => add_files b o1
  | None => None
  end.
Proof.
  revert o. induction a as [|f a IH]; intros o; simpl; [reflexivity|].
  destruct (add_file o f); [apply IH | reflexivity].
Qed.

(** A walk removes no key. *)
Lemma walk_keeps_keys parts cp (o o' : Obj RawNode) s :
  walk parts cp o = Some o' -> own s o <> None -> own s o' <> None.
Proof.
  destruct parts as [|part rest]; [simpl; now intros [= <-]|].
  intros H Hs. apply walk_cons_inv in H as [_ H].
  destruct H as [(_ & _ & ->) | [(_ & _ & ch & _ & ->) |
                [(n & ch & ch' & Ho & _ & _ & ->) | (n & _ & _ & _ & ->)]]];
    try rewrite own_define_own; try rewrite own_replace_own; try assumption.
  - destruct (own s o); [discriminate | congruence].
  - destruct (own s o); [discriminate | congruence].
  - destruct (String.eqb s part); [|assumption].
    destruct (own s o); [discriminate | congruence].
Qed.

(** A walk keeps the folders that are there, and their children. *)
Lemma walk_keeps parts :
  forall cp (o o' : Obj RawNode) P ch,
    walk parts cp o = Some o' -> descend o P = Some ch ->
    exists ch', descend o' P = Some ch' /\
      forall s, own s ch <> None -> own s ch' <> None.
Proof.
  induction parts as [|part rest IH]; intros cp o o' P ch Hw Hd.
  - simpl in Hw. injection Hw as <-. eauto.
  - destruct P as [|k P'].
    + simpl in Hd. injection Hd as <-. exists o'. split; [reflexivity|].
      intros s. eapply walk_keeps_keys; eauto.
    + simpl in Hd. destruct (own k o) as [n|] eqn:Ek; [|discriminate].
      destruct (raw_children n) as [c|] eqn:Ec; [|discriminate].
      apply walk_cons_inv in Hw as [_ Hw].
      destruct Hw as [(_ & _ & ->) | [(_ & _ & c0 & _ & ->) |
                    [(n0 & c0 & c0' & Ho & Hc0 & Hw & ->) | (n0 & _ & _ & _ & ->)]]].
      * simpl. rewrite own_define_own, Ek, Ec. eauto.
      * simpl. rewrite own_define_own, Ek, Ec. eauto.
      * simpl. rewrite own_replace_own.
        destruct (String.eqb k part) eqn:E.
        -- apply String.eqb_eq in E. subst k.
           rewrite Ek in Ho |- *. injection Ho as <-.
           rewrite Ec in Hc0. injection Hc0 as <-. simpl.
           eapply IH; eauto.
        -- rewrite Ek, Ec. eauto.
      * simpl. rewrite Ek, Ec. eauto.
Qed.

Lemma leaf_free_nil P : leaf_free [] P.
Proof. destruct P; simpl; exact I. Qed.

(** A walk along a path that names neither the node nor an ancestor creates
    no leaf on the way to the node. *)
Lemma walk_leaf_free parts :
  forall cp (o o' : Obj RawNode) P,
    walk parts cp o = Some o' -> leaf_free o P ->
    names_prefix parts P = false -> leaf_free o' P.
Proof.
  induction parts as [|part rest IH]; intros cp o o' P Hw Hfree Hnp.
  - simpl in Hw. now injection Hw as <-.
  - destruct P as [|k P']; [exact I|].
    simpl in Hfree |- *.
    apply walk_cons_inv in Hw as [_ Hw].
    destruct (String.eqb k part) eqn:E.
    + apply String.eqb_eq in E. subst k. simpl in Hnp.
      rewrite String.eqb_refl in Hnp. simpl in Hnp.
      destruct Hw as [(Ho & -> & ->) | [(Ho & Hne & c0 & Hw & ->) |
                    [(n0 & c0 & c0' & Ho & Hc0 & Hw & ->) | (n0 & Ho & Hc0 & _ & ->)]]].
      * discriminate Hnp.
      * rewrite own_define_own, Ho, String.eqb_refl. simpl.
        eapply IH; [exact Hw | apply leaf_free_nil |].
        destruct rest; [congruence | exact Hnp].
      * rewrite own_replace_own, String.eqb_refl, Ho. simpl.
        rewrite Ho, Hc0 in Hfree.
        eapply IH; [exact Hw | exact Hfree |].
        destruct rest; [discriminate Hnp | exact Hnp].
      * exact Hfree.
    + destruct Hw as [(Ho & -> & ->) | [(Ho & Hne & c0 & Hw & ->) |
                    [(n0 & c0 & c0' & Ho & Hc0 & Hw & ->) | (n0 & Ho & Hc0 & _ & ->)]]].
      * rewrite own_define_own, E. destruct (own k o); exact Hfree.
      * rewrite own_define_own, E. destruct (own k o); exact Hfree.
      * rewrite own_replace_own, E. exact Hfree.
      * exact Hfree.
Qed.

(** A walk that goes through [P] and on to [s], meeting no leaf on the way,
    leaves a folder at [P] with [s] among its children. *)
Lemma walk_creates P :
  forall s rest cp (o o' : Obj RawNode),
    walk (P ++ s :: rest) cp o = Some o' -> leaf_free o P ->
    exists ch, descend o' P = Some ch /\ own s ch <> None.
Proof.
  induction P as [|k P' IH]; intros s rest cp o o' Hw Hfree.
  - simpl app in Hw. exists o'. split; [reflexivity|].
    apply walk_cons_inv in Hw as [_ Hw].
    destruct Hw as [(Ho & _ & ->) | [(Ho & _ & c0 & _ & ->) |
                  [(n0 & c0 & c0' & Ho & _ & _ & ->) | (n0 & Ho & _ & _ & ->)]]].
    + rewrite own_define_own, Ho, String.eqb_refl. discriminate.
    + rewrite own_define_own, Ho, String.eqb_refl. discriminate.
    + rewrite own_replace_own, String.eqb_refl, Ho. discriminate.
    + congruence.
  - simpl app in Hw. simpl in Hfree |- *.
    apply walk_cons_inv in Hw as [_ Hw].
    destruct Hw as [(Ho & Hnil & ->) | [(Ho & _ & c0 & Hw & ->) |
                  [(n0 & c0 & c0' & Ho & Hc0 & Hw & ->) | (n0 & Ho & Hc0 & _ & ->)]]].
    + destruct P'; discriminate Hnil.
    + rewrite own_define_own, Ho, String.eqb_refl. simpl.
      eapply IH; [exact Hw | apply leaf_free_nil].
    + rewrite own_replace_own, String.eqb_refl, Ho. simpl.
      rewrite Ho, Hc0 in Hfree. eapply IH; eauto.
    + rewrite Ho, Hc0 in Hfree. contradiction.
Qed.

Lemma add_files_keeps files :
  forall (o o' : Obj RawNode) P ch s,
    add_files files o = Some o' -> descend o P = Some ch -> own s ch <> None ->
    exists ch', descend o' P = Some ch' /\ own s ch' <> None.
Proof.
  induction files as [|f files IH]; intros o o' P ch s H Hd Hs; simpl in H.
  - injection H as <-. eauto.
  - rewrite add_file_walk in H.
    destruct (walk (path_parts f) "" o) as [o1|] eqn:Ew; [|discriminate].
    destruct (walk_keeps _ _ _ _ Ew Hd) as (ch1 & Hd1 & Hk).
    eapply IH; eauto.
Qed.

Lemma add_files_leaf_free files :
  forall (o o' : Obj RawNode) P,
    add_files files o = Some o' -> leaf_free o P ->
    (forall g, In g files -> names_prefix (path_parts g) P = false) ->
    leaf_free o' P.
Proof.
  induction files as [|f files IH]; intros o o' P H Hfree Hnp; simpl in H.
  - now injection H as <-.
  - rewrite add_file_walk in H.
    destruct (walk (path_parts f) "" o) as [o1|] eqn:Ew; [|discriminate].
    eapply IH; [exact H | | intros g Hg; apply Hnp; now right].
    eapply walk_leaf_free; [exact Ew | exact Hfree | apply Hnp; now left].
Qed.

(** ** Entries and the nodes made from them *)

Lemma descend_entry_at P :
  forall (o : Obj RawNode) ch,
    P <> [] -> descend o P = Some ch ->
    exists e, entry_at o P = Some e /\ raw_children e = Some ch.
Proof.
  induction P as [|k P' IH]; intros o ch Hne Hd; [congruence|].
  simpl in Hd |- *. destruct (own k o) as [n|]; [|discriminate].
  destruct (raw_children n) as [c|] eqn:Ec; [|discriminate].
  destruct P' as [|k' P''].
  - simpl in Hd. injection Hd as <-. eauto.
  - apply IH; [discriminate | exact Hd].
Qed.

Lemma entry_at_descend P :
  forall (o : Obj RawNode) e ch,
    entry_at o P = Some e -> raw_children e = Some ch -> descend o P = Some ch.
Proof.
  induction P as [|k P' IH]; intros o e ch He Hc; [discriminate|].
  simpl in He |- *. destruct (own k o) as [n|]; [|discriminate].
  destruct P' as [|k' P''].
  - injection He as ->. now rewrite Hc.
  - destruct (raw_children n) as [c|]; [|discriminate]. eapply IH; eauto.
Qed.

Lemma all_nodes_child (m x : FileNode) l :
  children m = Some l -> In x (all_nodes l) -> In x (subnodes m).
Proof.
  destruct m as [nm p kids]. simpl. intros -> H. now right.
Qed.

Lemma all_nodes_top (l : list FileNode) (n x : FileNode) :
  In n l -> In x (subnodes n) -> In x (all_nodes l).
Proof. intros Hn Hx. apply all_nodes_inv. eauto. Qed.

Lemma convert_entry_folder (n : RawNode) c :
  raw_children n = Some c -> c <> [] ->
  children (convert_entry n) = Some (convert c).
Proof.
  intros Hc Hne. rewrite convert_entry_children, Hc.
  destruct c; [congruence | reflexivity].
Qed.

Lemma convert_entry_path (e : RawNode) : path (convert_entry e) = raw_path e.
Proof. now destruct e. Qed.

Lemma convert_entry_name (e : RawNode) : name (convert_entry e) = raw_name e.
Proof. now destruct e. Qed.

Lemma convert_own (o : Obj RawNode) k e :
  own k o = Some e -> In (convert_entry e) (convert o).
Proof.
  intros H. apply convert_In. exists (k, e). split; [|reflexivity].
  now apply own_In.
Qed.

Lemma entry_at_node P :
  forall (o : Obj RawNode) e,
    entry_at o P = Some e -> In (convert_entry e) (all_nodes (convert o)).
Proof.
  induction P as [|k P' IH]; intros o e He; [discriminate|].
  simpl in He. destruct (own k o) as [n|] eqn:Ek; [|discriminate].
  apply convert_own in Ek.
  destruct P' as [|k' P''].
  - injection He as ->. eapply all_nodes_top; [exact Ek | apply subnodes_self].
  - destruct (raw_children n) as [c|] eqn:Ec; [|discriminate].
    eapply all_nodes_top; [exact Ek|].
    eapply all_nodes_child; [|apply (IH _ _ He)].
    apply convert_entry_folder; [exact Ec|].
    simpl in He. destruct c; [discriminate He | discriminate].
Qed.

Lemma wf_obj_own cp (o : Obj RawNode) k n :
  wf_obj cp o -> own k o = Some n -> wf_raw cp k n.
Proof.
  intros [_ Hall] Ho. apply own_In in Ho.
  rewrite Forall_forall in Hall. exact (Hall _ Ho).
Qed.

Lemma wf_raw_children cp k n c :
  wf_raw cp k n -> raw_children n = Some c -> wf_obj (join_path cp k) c.
Proof.
  intros H Hc. inversion H as [? ? ? _ _ Hp Hkids]; subst.
  destruct (Hkids _ Hc) as (_ & Hnd & Hall). rewrite <- Hp. now split.
Qed.

Lemma wf_raw_path cp k n : wf_raw cp k n -> raw_path n = join_path cp k.
Proof. intros H. now inversion H. Qed.

Lemma wf_raw_name cp k n : wf_raw cp k n -> raw_name n = k.
Proof. intros H. now inversion H. Qed.

Lemma descend_wf P :
  forall cp (o : Obj RawNode) ch,
    wf_obj cp o -> descend o P = Some ch -> wf_obj (path_of cp P) ch.
Proof.
  induction P as [|k P' IH]; intros cp o ch Hwf Hd; simpl in Hd.
  - now injection Hd as <-.
  - destruct (own k o) as [n|] eqn:Ek; [|discriminate].
    destruct (raw_children n) as [c|] eqn:Ec; [|discriminate].
    unfold path_of. simpl. apply IH with (o := c); [|exact Hd].
    eapply wf_raw_children; [|exact Ec]. eapply wf_obj_own; eauto.
Qed.

Lemma entry_at_path P :
  forall cp (o : Obj RawNode) e,
    wf_obj cp o -> entry_at o P = Some e -> raw_path e = path_of cp P.
Proof.
  induction P as [|k P' IH]; intros cp o e Hwf He; [discriminate|].
  simpl in He. destruct (own k o) as [n|] eqn:Ek; [|discriminate].
  pose proof (@wf_obj_own cp o k n Hwf Ek) as Hn.
  destruct P' as [|k' P''].
  - injection He as ->. now apply wf_raw_path.
  - destruct (raw_children n) as [c|] eqn:Ec; [|discriminate].
    unfold path_of. simpl fold_left at 1.
    apply IH with (o := c); [|exact He].
    eapply wf_raw_children; eauto.
Qed.

Lemma path_of_concat P :
  forall cp, cp <> "" -> path_of cp P = String.concat "/" (cp :: P).
Proof.
  induction P as [|k P' IH]; intros cp Hne; [reflexivity|].
  unfold path_of. simpl fold_left.
  fold (path_of (join_path cp k) P').
  rewrite join_path_below by exact Hne.
  rewrite IH by (destruct cp; [congruence | discriminate]).
  destruct P' as [|k' P'']; simpl; [reflexivity|].
  rewrite !append_assoc. reflexivity.
Qed.

Lemma path_of_top k P :
  k <> "" -> path_of "" (k :: P) = String.concat "/" (k :: P).
Proof. intros H. unfold path_of. simpl. now apply path_of_concat. Qed.

(** The normal form of a path: its segments joined by ["/"]. *)
Lemma path_parts_head_nonempty filePath k P :
  path_parts filePath = k :: P -> k <> "".
Proof.
  intros H. pose proof (path_parts_segments filePath) as Hs.
  rewrite H in Hs. inversion Hs; subst. now apply is_segment_nonempty.
Qed.

(** C3: [buildTree] never turns a leaf into a folder.  A node created from
    the last segment of a path has no [children] object, and a later path
    that extends it walks on in an object that is thrown away.  On a
    listing that names the directories before their files,
    [proj/], [proj/src/], [proj/src/main.ts], [proj/README.md], the tree is
    the single leaf [proj]: no node is a folder and the two files are not in
    the tree.  The same happens on [a/], [a/b.txt] and on [a], [a/b.txt].
    The same paths in the opposite order give the folder [a] with the child
    [b.txt]. *)
Theorem buildTree_directory_entry_hides_files :
  buildTree ["proj/"; "proj/src/"; "proj/src/main.ts"; "proj/README.md"]
  = Some [leaf "proj" "proj"] /\
  (forall n, In n (all_nodes [leaf "proj" "proj"]) -> children n = None) /\
  ~ In "proj/src/main.ts" (all_paths [leaf "proj" "proj"]) /\
  ~ In "proj/README.md" (all_paths [leaf "proj" "proj"]) /\
  buildTree ["a/"; "a/b.txt"] = Some [leaf "a" "a"] /\
  buildTree ["a"; "a/b.txt"] = Some [leaf "a" "a"] /\
  path_parts "a/b.txt" = path_parts "a/" ++ ["b.txt"] /\
  ~ (exists n ch c,
       In n (all_nodes [leaf "a" "a"]) /\ path n = "a" /\
       children n = Some ch /\ In c ch /\ name c = "b.txt") /\
  buildTree ["a/b.txt"; "a/"]
  = Some [mkFileNode "a" "a" (Some [leaf "b.txt" "a/b.txt"])].
Proof.
  split; [reflexivity|].
  split; [intros n [<- | []]; reflexivity|].
  split; [intros [H | []]; discriminate H|].
  split; [intros [H | []]; discriminate H|].
  split; [reflexivity|]. split; [reflexivity|]. split; [reflexivity|].
  split; [|reflexivity].
  intros (n & ch & c & [<- | []] & _ & Hch & _). discriminate Hch.
Qed.

(** A sufficient condition for the folder to be built: when a path of the
    listing strictly extends [p] past a separator, and no earlier path of
    the listing names [p] or an ancestor of [p] (with or without a trailing
    separator), the tree that [buildTree] returns contains exactly one node
    whose path is [p] in normal form, that node is a folder, and the next
    segment of the extending path is the name of one of its children. *)
Theorem buildTree_folder_of_first_extension
    (files pre post : list string) (f p s : string) (rest : list string)
    (tree : list FileNode) :
  buildTree files = Some tree ->
  files = pre ++ f :: post ->
  path_parts p <> [] ->
  path_parts f = path_parts p ++ s :: rest ->
  (forall g, In g pre -> names_prefix (path_parts g) (path_parts p) = false) ->
  count_occ string_dec (all_paths tree) (String.concat "/" (path_parts p)) = 1 /\
  exists n ch c,
    In n (all_nodes tree) /\ path n = String.concat "/" (path_parts p) /\
    children n = Some ch /\ In c ch /\ name c = s.
Proof.
  intros Hbuild -> Hne Hf Hpre.
  pose proof (@buildTree_paths_NoDup _ _ Hbuild) as Hnodup.
  set (P := path_parts p) in *.
  unfold buildTree in Hbuild.
  destruct (add_files (pre ++ f :: post) []) as [root|] eqn:Eall; [|discriminate].
  injection Hbuild as <-.
  pose proof (@add_files_wf _ _ _ (wf_obj_nil "") Eall) as Hwf.
  rewrite add_files_app in Eall.
  destruct (add_files pre []) as [r1|] eqn:E1; [|discriminate].
  simpl in Eall. rewrite add_file_walk, Hf in Eall.
  destruct (walk (P ++ s :: rest) "" r1) as [r2|] eqn:E2; [|discriminate].
  pose proof (@add_files_leaf_free _ _ _ _ E1 (leaf_free_nil P) Hpre) as Hfree.
  destruct (@walk_creates _ _ _ _ _ _ E2 Hfree) as (ch2 & Hd2 & Hs2).
  destruct (@add_files_keeps _ _ _ _ _ _ Eall Hd2 Hs2) as (ch & Hd & Hs).
  destruct (@descend_entry_at _ _ _ Hne Hd) as (e & He & Hch).
  destruct (own s ch) as [e'|] eqn:Es; [clear Hs | congruence].
  assert (Hpath : path (convert_entry e) = String.concat "/" P).
  { rewrite convert_entry_path.
    rewrite (@entry_at_path _ _ _ _ Hwf He).
    destruct P as [|k P'] eqn:EP; [congruence|].
    apply path_of_top.
    apply (@path_parts_head_nonempty f k (P' ++ s :: rest)). exact Hf. }
  assert (Hin : In (convert_entry e) (all_nodes (convert root)))
    by (eapply entry_at_node; eauto).
  split.
  - apply NoDup_count_occ'; [exact Hnodup|].
    rewrite <- Hpath. unfold all_paths. now apply in_map.
  - exists (convert_entry e), (convert ch), (convert_entry e').
    repeat split; auto.
    + apply convert_entry_folder; [exact Hch|]. destruct ch; discriminate.
    + eapply convert_own; eauto.
    + rewrite convert_entry_name.
      eapply wf_raw_name. eapply wf_obj_own; [|exact Es].
      eapply descend_wf; eauto.
Qed.

Lemma buildTree_folder_of_first_extension_witness :
  buildTree ["docs/readme.md"; "a/b.txt"; "a/"; "a/c/d.txt"]
  = Some [mkFileNode "docs" "docs" (Some [leaf "readme.md" "docs/readme.md"]);
          mkFileNode "a" "a"
            (Some [leaf "b.txt" "a/b.txt";
                   mkFileNode "c" "a/c" (Some [leaf "d.txt" "a/c/d.txt"])])] /\
  count_occ string_dec
    (all_paths
       [mkFileNode "docs" "docs" (Some [leaf "readme.md" "docs/readme.md"]);
        mkFileNode "a" "a"
          (Some [leaf "b.txt" "a/b.txt";
                 mkFileNode "c" "a/c" (Some [leaf "d.txt" "a/c/d.txt"])])])
    (String.concat "/" (path_parts "a/")) = 1.
Proof.
  split; [reflexivity|].
  refine (proj1 (@buildTree_folder_of_first_extension
                   ["docs/readme.md"; "a/b.txt"; "a/"; "a/c/d.txt"]
                   ["docs/readme.md"] ["a/"; "a/c/d.txt"]
                   "a/b.txt" "a/" "b.txt" [] _ eq_refl eq_refl _ eq_refl _)).
  - discriminate.
  - intros g [<- | []]. reflexivity.
Defined.

(** ** Order of creation of the children *)

Lemma keys_at_cons (o : Obj RawNode) k P :
  keys_at o (k :: P) =
  match own k o with
  | Some n =>
      match raw_children n with
      | Some c => keys_at c P
      | None => []
      end
  | None => []
  end.
Proof.
  unfold keys_at. simpl. destruct (own k o) as [n|]; [|reflexivity].
  destruct (raw_children n); reflexivity.
Qed.

Lemma keys_at_nil P : keys_at [] P = [].
Proof. destruct P; reflexivity. Qed.

Lemma includes_keys (A : Type) (o : Obj A) k :
  includes (map fst o) k = match own k o with Some _ => true | None => false end.
Proof.
  destruct (own k o) eqn:E.
  - apply includes_In. apply own_In in E. now apply (in_map fst) in E.
  - apply includes_not_In. now apply own_None.
Qed.

(** A leaf met on the way to a node stays where it is. *)
Lemma walk_leaf_free_before parts :
  forall cp (o o' : Obj RawNode) P,
    walk parts cp o = Some o' -> leaf_free o' P -> leaf_free o P.
Proof.
  induction parts as [|part rest IH]; intros cp o o' P Hw Hfree.
  - simpl in Hw. now injection Hw as <-.
  - destruct P as [|k P']; [exact I|].
    simpl in Hfree |- *.
    destruct (own k o) as [n|] eqn:Ek; [|exact I].
    apply walk_cons_inv in Hw as [_ Hw].
    destruct Hw as [(Ho & _ & ->) | [(Ho & _ & c0 & _ & ->) |
                  [(n0 & c0 & c0' & Ho & Hc0 & Hw & ->) | (n0 & Ho & Hc0 & _ & ->)]]].
    + rewrite own_define_own, Ek in Hfree. exact Hfree.
    + rewrite own_define_own, Ek in Hfree. exact Hfree.
    + rewrite own_replace_own, Ek in Hfree.
      destruct (String.eqb k part) eqn:E; [|exact Hfree].
      apply String.eqb_eq in E. subst k. rewrite Ek in Ho. injection Ho as <-.
      rewrite Hc0. simpl in Hfree. eapply IH; eauto.
    + rewrite Ek in Hfree. exact Hfree.
Qed.

(** What one walk adds to the children of the folder reached through [P]:
    the segment that follows [P] in the walked path, if it is new. *)
Lemma walk_keys_at parts :
  forall cp (o o' : Obj RawNode) P,
    walk parts cp o = Some o' -> leaf_free o' P ->
    keys_at o' P =
    match next_segment P parts with
    | Some s => Set_add (keys_at o P) s
    | None => keys_at o P
    end.
Proof.
  induction parts as [|part rest IH]; intros cp o o' P Hw Hfree.
  - simpl in Hw. injection Hw as <-. now destruct P.
  - apply walk_cons_inv in Hw as [_ Hw]. destruct P as [|k P'].
    + simpl next_segment.
      change (keys_at o' []) with (map fst o').
      change (keys_at o []) with (map fst o).
      unfold Set_add. rewrite includes_keys.
      destruct Hw as [(Ho & _ & ->) | [(Ho & _ & c0 & _ & ->) |
                    [(n0 & c0 & c0' & Ho & _ & _ & ->) | (n0 & Ho & _ & _ & ->)]]];
        rewrite Ho.
      * apply keys_define_own.
      * apply keys_define_own.
      * apply keys_replace_own.
      * reflexivity.
    + simpl next_segment. rewrite !keys_at_cons. simpl in Hfree.
      destruct (String.eqb k part) eqn:E.
      * apply String.eqb_eq in E. subst k.
        destruct Hw as [(Ho & _ & ->) | [(Ho & _ & c0 & Hw & ->) |
                      [(n0 & c0 & c0' & Ho & Hc0 & Hw & ->) | (n0 & Ho & Hc0 & _ & ->)]]].
        -- rewrite own_define_own, Ho, String.eqb_refl in Hfree. contradiction.
        -- rewrite own_define_own, Ho, String.eqb_refl in Hfree |- *.
           simpl in Hfree |- *.
           rewrite (IH _ _ _ _ Hw Hfree), keys_at_nil. reflexivity.
        -- rewrite own_replace_own, String.eqb_refl, Ho in Hfree |- *.
           simpl in Hfree |- *. rewrite Hc0.
           exact (IH _ _ _ _ Hw Hfree).
        -- rewrite Ho, Hc0 in Hfree. contradiction.
      * destruct Hw as [(Ho & _ & ->) | [(Ho & _ & c0 & Hw & ->) |
                      [(n0 & c0 & c0' & Ho & Hc0 & Hw & ->) | (n0 & Ho & Hc0 & _ & ->)]]].
        -- rewrite own_define_own, E. now destruct (own k o).
        -- rewrite own_define_own, E. now destruct (own k o).
        -- rewrite own_replace_own, E. reflexivity.
        -- reflexivity.
Qed.

Lemma add_files_leaf_free_before files :
  forall (o o' : Obj RawNode) P,
    add_files files o = Some o' -> leaf_free o' P -> leaf_free o P.
Proof.
  induction files as [|f files IH]; intros o o' P H Hfree; simpl in H.
  - now injection H as <-.
  - rewrite add_file_walk in H.
    destruct (walk (path_parts f) "" o) as [o1|] eqn:Ew; [|discriminate].
    eapply walk_leaf_free_before; [exact Ew|]. eapply IH; eauto.
Qed.

Lemma add_files_keys_at files :
  forall (o o' : Obj RawNode) P,
    add_files files o = Some o' -> leaf_free o' P ->
    keys_at o' P = fold_left Set_add (next_segments P files) (keys_at o P).
Proof.
  induction files as [|f files IH]; intros o o' P H Hfree; simpl in H.
  - now injection H as <-.
  - rewrite add_file_walk in H.
    destruct (walk (path_parts f) "" o) as [o1|] eqn:Ew; [|discriminate].
    rewrite (IH _ _ _ H Hfree).
    rewrite (@walk_keys_at _ _ _ _ P Ew
               (@add_files_leaf_free_before _ _ _ P H Hfree)).
    simpl. destruct (next_segment P (path_parts f)); reflexivity.
Qed.

(** The keys of a folder's children, in creation order, are the segments
    that follow the folder in the listing, in order of first occurrence. *)
Lemma add_files_creation_order files (root : Obj RawNode) P :
  add_files files [] = Some root -> leaf_free root P ->
  keys_at root P = Set_from (next_segments P files).
Proof.
  intros H Hfree. rewrite (@add_files_keys_at _ _ _ P H Hfree), keys_at_nil.
  reflexivity.
Qed.

(** ** Order of the siblings *)

Lemma entry_at_leaf_free P :
  forall (o : Obj RawNode) e c,
    entry_at o P = Some e -> raw_children e = Some c -> leaf_free o P.
Proof.
  induction P as [|k P' IH]; intros o e c He Hc; [exact I|].
  simpl in He |- *. destruct (own k o) as [n|]; [|exact I].
  destruct P' as [|k' P''].
  - injection He as ->. rewrite Hc. exact I.
  - destruct (raw_children n) as [c0|]; [|discriminate]. eapply IH; eauto.
Qed.

Lemma entry_at_segments P :
  forall cp (o : Obj RawNode) e,
    wf_obj cp o -> entry_at o P = Some e -> Forall is_segment P.
Proof.
  induction P as [|k P' IH]; intros cp o e Hwf He; [constructor|].
  simpl in He. destruct (own k o) as [n|] eqn:Ek; [|discriminate].
  pose proof (@wf_obj_own cp o k n Hwf Ek) as Hn.
  constructor; [now inversion Hn|].
  destruct P' as [|k' P'']; [constructor|].
  destruct (raw_children n) as [c0|] eqn:Ec; [|discriminate].
  eapply IH; [|exact He]. eapply wf_raw_children; eauto.
Qed.

Lemma entry_at_cons (o : Obj RawNode) k n c P e :
  own k o = Some n -> raw_children n = Some c -> entry_at c P = Some e ->
  entry_at o (k :: P) = Some e.
Proof.
  intros Hk Hc He. simpl. rewrite Hk, Hc.
  destruct P; [discriminate He | exact He].
Qed.

(** Every node made from an entry comes from the entry itself or from an
    entry below it. *)
Lemma subnodes_entry (n : RawNode) :
  forall cp k m,
    wf_raw cp k n -> In m (subnodes (convert_entry n)) ->
    m = convert_entry n \/
    exists c P e, raw_children n = Some c /\ entry_at c P = Some e /\
                  m = convert_entry e.
Proof.
  induction n as [nm p | nm p ch IH] using RawNode_nested_ind;
    intros cp k m Hwf Hm.
  - destruct Hm as [<- | []]. now left.
  - apply subnodes_inv in Hm as [-> | (l & c & Hl & Hc & Hm)]; [now left|].
    right. exists ch.
    rewrite convert_entry_children in Hl. simpl raw_children in Hl.
    cbv beta iota in Hl.
    destruct (0 <? List.length ch)%nat; [|discriminate Hl].
    injection Hl as <-. apply convert_In in Hc as [[k' n'] [Hin ->]].
    pose proof (@wf_raw_children cp k _ ch Hwf eq_refl) as Hwfc.
    assert (Hown : own k' ch = Some n') by (apply In_own; [apply Hwfc | exact Hin]).
    rewrite Forall_forall in IH. simpl snd in Hm.
    destruct (IH _ Hin _ _ m (@wf_obj_own _ _ _ _ Hwfc Hown) Hm)
      as [-> | (c2 & P & e & Hc2 & He & ->)].
    + exists [k'], n'. simpl. rewrite Hown. auto.
    + exists (k' :: P), e. split; [reflexivity|]. split; [|reflexivity].
      eapply entry_at_cons; eauto.
Qed.

Lemma all_nodes_entry cp (o : Obj RawNode) (m : FileNode) :
  wf_obj cp o -> In m (all_nodes (convert o)) ->
  exists P e, entry_at o P = Some e /\ m = convert_entry e.
Proof.
  intros Hwf Hm. apply all_nodes_inv in Hm as [top [Htop Hm]].
  apply convert_In in Htop as [[k n] [Hin ->]]. simpl snd in Hm.
  assert (Hown : own k o = Some n) by (apply In_own; [apply Hwf | exact Hin]).
  destruct (@subnodes_entry n cp k m (@wf_obj_own _ _ _ _ Hwf Hown) Hm)
    as [-> | (c & P & e & Hc & He & ->)].
  - exists [k], n. simpl. rewrite Hown. auto.
  - exists (k :: P), e. split; [|reflexivity]. eapply entry_at_cons; eauto.
Qed.

Lemma replace_backslashes_id (s : string) :
  has_char backslash s = false -> replace_backslashes s = s.
Proof.
  induction s as [|c s IH]; simpl; [reflexivity|].
  intros H. apply orb_false_iff in H as [Hc Hs]. now rewrite Hc, IH.
Qed.

Lemma concat_no_backslash (P : list string) :
  Forall is_segment P -> has_char backslash (String.concat "/" P) = false.
Proof.
  induction 1 as [|k P' (_ & _ & Hb) HP IH]; [reflexivity|].
  destruct P' as [|k' P'']; [exact Hb|].
  change (String.concat "/" (k :: k' :: P''))
    with (k ++ "/" ++ String.concat "/" (k' :: P''))%string.
  rewrite !has_char_append, Hb, IH. reflexivity.
Qed.

Lemma split_slash_concat (P : list string) :
  Forall is_segment P -> P <> [] -> split_slash (String.concat "/" P) = P.
Proof.
  induction 1 as [|k P' (_ & Hs & _) HP IH]; intros Hne; [congruence|].
  destruct P' as [|k' P'']; [now apply split_slash_segment|].
  change (String.concat "/" (k :: k' :: P''))
    with (k ++ String slash (String.concat "/" (k' :: P'')))%string.
  rewrite split_slash_append, (split_slash_segment _ Hs), IH by discriminate.
  reflexivity.
Qed.

Lemma filter_truthy_segments (P : list string) :
  Forall is_segment P -> filter truthy P = P.
Proof.
  induction 1 as [|k P' (Hne & _) HP IH]; [reflexivity|].
  simpl. apply truthy_true in Hne. now rewrite Hne, IH.
Qed.

(** Splitting the normal form of a path gives back its segments. *)
Lemma path_parts_concat (P : list string) :
  Forall is_segment P -> P <> [] -> path_parts (String.concat "/" P) = P.
Proof.
  intros HP Hne. unfold path_parts.
  rewrite replace_backslashes_id by now apply concat_no_backslash.
  rewrite split_slash_concat by assumption.
  now apply filter_truthy_segments.
Qed.

Lemma convert_names_order cp (c : Obj RawNode) :
  wf_obj cp c -> map name (convert c) = enumeration_order (map fst c).
Proof.
  intros [_ Hall]. unfold enumeration_order.
  rewrite convert_values, map_map.
  rewrite <- (Object_values_map (fun e => name (convert_entry e))).
  rewrite map_map. f_equal. apply map_ext_in. intros kv Hin. simpl.
  rewrite Forall_forall in Hall.
  rewrite convert_entry_name, (wf_raw_name (Hall _ Hin)). reflexivity.
Qed.

(** When no key is an array index, enumeration follows creation. *)
Lemma enumeration_order_plain (keys : list string) :
  Forall (fun k => array_index k = None) keys -> enumeration_order keys = keys.
Proof.
  intros H. unfold enumeration_order.
  rewrite Object_values_no_index, map_map, map_id; [reflexivity|].
  apply Forall_forall. intros kv Hin. apply in_map_iff in Hin as [k [<- Hk]].
  rewrite Forall_forall in H. now apply H.
Qed.

(** In general the array indices come first, and the other keys follow in
    creation order. *)
Lemma enumeration_order_named (keys : list string) :
  enumeration_order keys =
  map snd (indexed (map (fun k => (k, k)) keys)) ++
  filter (fun k => match array_index k with Some _ => false | None => true end)
    keys.
Proof.
  unfold enumeration_order, Object_values. f_equal.
  induction keys as [|k keys IH]; simpl; [reflexivity|].
  destruct (array_index k); [exact IH | now rewrite IH].
Qed.

Lemma insert_by_index_sorted (A : Type) i (v : A) (l : list (N * A)) :
  Sorted (fun a b => (fst a <= fst b)%N) l ->
  Sorted (fun a b => (fst a <= fst b)%N) (insert_by_index i v l).
Proof.
  induction l as [|[j w] t IH]; intros Hs; simpl.
  - repeat constructor.
  - destruct (i <? j)%N eqn:E.
    + apply N.ltb_lt in E. constructor; [exact Hs|].
      constructor. simpl. lia.
    + apply N.ltb_ge in E. inversion Hs as [|? ? Ht Hhd]; subst.
      constructor; [now apply IH|].
      destruct t as [|[j' w'] t']; simpl.
      * constructor. simpl. exact E.
      * destruct (i <? j')%N; constructor; simpl; [exact E|].
        now inversion Hhd.
Qed.

(** The array-index properties are enumerated in ascending numeric order. *)
Lemma indexed_sorted (A : Type) (o : Obj A) :
  Sorted (fun a b => (fst a <= fst b)%N) (indexed o).
Proof.
  induction o as [|[k v] t IH]; simpl; [constructor|].
  destruct (array_index k); [now apply insert_by_index_sorted | exact IH].
Qed.

Lemma indexed_keys (keys : list string) :
  Forall (fun iv => array_index (snd iv) = Some (fst iv))
    (indexed (map (fun k => (k, k)) keys)).
Proof.
  induction keys as [|k keys IH]; simpl; [constructor|].
  destruct (array_index k) as [i|] eqn:E; [|exact IH].
  eapply Permutation_Forall; [symmetry; apply insert_by_index_perm|].
  now constructor.
Qed.

(** C5, as stated, fails: the folder [10] is listed first, but [9] comes
    first in the tree. *)
Lemma buildTree_sibling_order_counterexample :
  buildTree ["10/x"; "9/y"]
  = Some [mkFileNode "9" "9" (Some [leaf "y" "9/y"]);
          mkFileNode "10" "10" (Some [leaf "x" "10/x"])] /\
  Set_from (next_segments [] ["10/x"; "9/y"]) = ["10"; "9"] /\
  map name [mkFileNode "9" "9" (Some [leaf "y" "9/y"]);
            mkFileNode "10" "10" (Some [leaf "x" "10/x"])]
  <> Set_from (next_segments [] ["10/x"; "9/y"]).
Proof. repeat split. discriminate. Qed.

(** C5, amended: at every level of the tree returned by [buildTree], the
    siblings are the segments found at that place in the listing, taken in
    order of first occurrence and then enumerated as the keys of an object:
    the names that are array indices first, in ascending numeric order, and
    the other names after them, in order of first occurrence (so the input
    order is kept wherever no name is an array index). *)
Theorem buildTree_sibling_order (files : list string) (tree : list FileNode) :
  buildTree files = Some tree ->
  map name tree = enumeration_order (Set_from (next_segments [] files)) /\
  forall n ch, In n (all_nodes tree) -> children n = Some ch ->
    map name ch
    = enumeration_order (Set_from (next_segments (path_parts (path n)) files)).
Proof.
  unfold buildTree.
  destruct (add_files files []) as [root|] eqn:Eroot; [|discriminate].
  intros [= <-].
  pose proof (@add_files_wf _ _ _ (wf_obj_nil "") Eroot) as Hwf.
  split.
  - rewrite (@convert_names_order _ _ Hwf).
    rewrite <- (@add_files_creation_order files root [] Eroot I).
    reflexivity.
  - intros n ch Hn Hch.
    destruct (@all_nodes_entry _ _ _ Hwf Hn) as (P & e & He & ->).
    rewrite convert_entry_children in Hch.
    destruct (raw_children e) as [c|] eqn:Ec; [|discriminate Hch].
    destruct (0 <? List.length c)%nat; [|discriminate Hch].
    injection Hch as <-.
    pose proof (@entry_at_descend _ _ _ _ He Ec) as Hd.
    pose proof (@descend_wf _ _ _ _ Hwf Hd) as Hwfc.
    pose proof (@entry_at_segments _ _ _ _ Hwf He) as Hseg.
    assert (Hparts : path_parts (path (convert_entry e)) = P).
    { rewrite convert_entry_path, (@entry_at_path _ _ _ _ Hwf He).
      destruct P as [|k P']; [discriminate He|].
      rewrite path_of_top by (inversion Hseg; subst; now apply is_segment_nonempty).
      apply path_parts_concat; [exact Hseg | discriminate]. }
    rewrite Hparts, (@convert_names_order _ _ Hwfc).
    rewrite <- (@add_files_creation_order files root P Eroot
                  (@entry_at_leaf_free _ _ _ _ He Ec)).
    unfold keys_at. now rewrite Hd.
Qed.

Lemma buildTree_sibling_order_witness :
  buildTree ["b.txt"; "10/x"; "9/y"; "a.txt"; "10/w"; "10/x"]
  = Some [mkFileNode "9" "9" (Some [leaf "y" "9/y"]);
          mkFileNode "10" "10" (Some [leaf "x" "10/x"; leaf "w" "10/w"]);
          leaf "b.txt" "b.txt"; leaf "a.txt" "a.txt"] /\
  map name [leaf "x" "10/x"; leaf "w" "10/w"]
  = enumeration_order
      (Set_from (next_segments (path_parts "10")
                   ["b.txt"; "10/x"; "9/y"; "a.txt"; "10/w"; "10/x"])).
Proof.
  split; [reflexivity|].
  apply (proj2 (@buildTree_sibling_order
                  ["b.txt"; "10/x"; "9/y"; "a.txt"; "10/w"; "10/x"] _ eq_refl)
           (mkFileNode "10" "10" (Some [leaf "x" "10/x"; leaf "w" "10/w"]))).
  - simpl. auto.
  - reflexivity.
Defined.

(** ** What re-deriving the folders achieves *)

Lemma subnodes_trans (n : FileNode) :
  forall m x, In m (subnodes n) -> In x (subnodes m) -> In x (subnodes n).
Proof.
  induction n as [nm p | nm p ch IH] using FileNode_nested_ind; intros m x Hm Hx.
  - destruct Hm as [<- | []]. exact Hx.
  - apply subnodes_inv in Hm as [-> | (l & c & Hl & Hc & Hm)]; [exact Hx|].
    simpl in Hl. injection Hl as <-. rewrite Forall_forall in IH.
    eapply subnodes_child; [reflexivity | exact Hc | eapply IH; eauto].
Qed.

Lemma leaves_paths (n : FileNode) :
  forall q, In q (getAllDescendantFiles n) -> In q (map path (subnodes n)).
Proof.
  induction n as [nm p | nm p ch IH] using FileNode_nested_ind; intros q Hq.
  - simpl in *. tauto.
  - simpl in Hq |- *. right. apply in_flat_map in Hq as [c [Hc Hq]].
    rewrite Forall_forall in IH. specialize (IH _ Hc _ Hq).
    apply in_map_iff in IH as [m [<- Hm]]. apply in_map.
    apply in_flat_map. eauto.
Qed.

Lemma leaves_paths_within (nodes : list FileNode) (m : FileNode) (q : string) :
  In m (flat_map subnodes nodes) -> In q (getAllDescendantFiles m) ->
  In q (map path (flat_map subnodes nodes)).
Proof.
  intros Hm Hq. apply leaves_paths, in_map_iff in Hq as [x [<- Hx]].
  apply in_map. apply in_flat_map in Hm as [c [Hc Hm]].
  apply in_flat_map. exists c. split; [exact Hc|].
  eapply subnodes_trans; eauto.
Qed.

Lemma not_folder_elsewhere (here there : list FileNode) (q : string) :
  NoDup (map path (here ++ there)) -> In q (map path here) ->
  not_folder_of there q.
Proof.
  rewrite map_app. intros Hnd Hq m Hm _ E.
  assert (Hthere : In q (map path there)) by (rewrite <- E; now apply in_map).
  clear E Hm. induction (map path here) as [|x l IH]; [contradiction|].
  simpl in Hnd. inversion Hnd as [|? ? Hx Hl].
  destruct Hq as [Hq | Hq]; [|now apply IH].
  apply Hx, in_or_app. right. now rewrite Hq.
Qed.

Lemma forallb_cons_true (b : bool) (l : list bool) :
  forallb (fun state => state) (b :: l) = true <->
  b = true /\ forallb (fun state => state) l = true.
Proof. simpl. apply andb_true_iff. Qed.

Lemma process_children_derived (l : list FileNode) :
  Forall (fun c => forall s, NoDup s -> NoDup (map path (subnodes c)) ->
            derived (subnodes c) (getAllDescendantFiles c)
              (fst (processNode c s)) (snd (processNode c s))) l ->
  forall s, NoDup s -> NoDup (map path (flat_map subnodes l)) ->
    derived (flat_map subnodes l) (flat_map getAllDescendantFiles l)
      (forallb (fun state => state) (fst (process_children processNode l s)))
      (snd (process_children processNode l s)).
Proof.
  induction 1 as [|c l Hc Hl IH]; intros s Hs Hnd.
  - simpl. repeat split; auto; contradiction.
  - rewrite process_children_cons. simpl fst. simpl snd.
    simpl flat_map in Hnd |- *.
    pose proof Hnd as Hsplit. rewrite map_app in Hsplit.
    pose proof (NoDup_app_remove_r _ _ Hsplit) as Hndc.
    pose proof (NoDup_app_remove_l _ _ Hsplit) as Hndl.
    destruct (Hc s Hs Hndc) as (Hs1 & Hb1 & Hf1).
    set (s1 := snd (processNode c s)) in *.
    set (b1 := fst (processNode c s)) in *.
    destruct (IH s1 Hs1 Hndl) as (Hs2 & Hb2 & Hf2).
    set (s2 := snd (process_children processNode l s1)) in *.
    assert (Hframe : forall q, In q (map path (subnodes c)) ->
              (In q s2 <-> In q s1)).
    { intros q Hq. apply process_children_frame.
      - apply Forall_forall. intros x _ s'. apply processNode_frame.
      - eapply not_folder_elsewhere; eauto. }
    assert (Hleaves : forall m, In m (subnodes c) ->
              ((forall q, In q (getAllDescendantFiles m) -> In q s2) <->
               (forall q, In q (getAllDescendantFiles m) -> In q s1))).
    { intros m Hm.
      assert (Hin : forall q, In q (getAllDescendantFiles m) ->
                In q (map path (subnodes c))).
      { intros q Hq. apply leaves_paths, in_map_iff in Hq as [x [<- Hx]].
        apply in_map. eapply subnodes_trans; eauto. }
      split; intros H q Hq; specialize (H q Hq);
        apply (Hframe q (Hin q Hq)); exact H. }
    split; [exact Hs2|]. split.
    + rewrite forallb_cons_true, Hb1, Hb2.
      rewrite <- (Hleaves c (subnodes_self c)). split.
      * intros [H1 H2] q Hq. apply in_app_or in Hq as [Hq | Hq]; auto.
      * intros H. split; intros q Hq; apply H, in_or_app; auto.
    + intros m Hm Hfolder. apply in_app_or in Hm as [Hm | Hm].
      * rewrite (Hleaves m Hm), Hframe by now apply in_map.
        now apply Hf1.
      * now apply Hf2.
Qed.

Lemma processNode_derived (n : FileNode) :
  forall s, NoDup s -> NoDup (map path (subnodes n)) ->
    derived (subnodes n) (getAllDescendantFiles n)
      (fst (processNode n s)) (snd (processNode n s)).
Proof.
  induction n as [nm p | nm p ch IH] using FileNode_nested_ind; intros s Hs Hnd.
  - simpl. split; [exact Hs|]. split.
    + rewrite includes_In.
      split; [intros H q [<- | []]; exact H | intros H; apply H; now left].
    + intros m [<- | []] Hfolder. exfalso. now apply Hfolder.
  - rewrite (@processNode_folder (mkFileNode nm p (Some ch)) ch s eq_refl).
    cbv zeta. simpl fst. simpl snd. simpl path.
    simpl in Hnd. inversion Hnd as [|? ? Hp Hkids]; subst.
    destruct (process_children_derived IH Hs Hkids) as (Hs1 & Hb1 & Hf1).
    set (s1 := snd (process_children processNode ch s)) in *.
    set (all := forallb (fun state => state)
                  (fst (process_children processNode ch s))) in *.
    set (s' := if all
               then if negb (includes s1 p) then s1 ++ [p] else s1
               else remove_first p s1).
    assert (Hother : forall q, q <> p -> (In q s' <-> In q s1)).
    { intros q Hq. subst s'. destruct all.
      - destruct (negb (includes s1 p)); [|reflexivity].
        rewrite in_app_iff. simpl. intuition congruence.
      - now apply remove_first_other. }
    assert (Hself : In p s' <-> all = true).
    { subst s'. destruct all.
      - split; [reflexivity | intros _].
        destruct (includes s1 p) eqn:E; simpl.
        + now apply includes_In.
        + apply in_or_app. right. now left.
      - split; [|discriminate]. intros H.
        now apply (proj2 (remove_first_NoDup p Hs1)) in H. }
    assert (Hbelow : forall q, In q (map path (flat_map subnodes ch)) -> q <> p)
      by (intros q Hq ->; contradiction).
    assert (Hleaves : forall m, In m (flat_map subnodes ch) ->
              ((forall q, In q (getAllDescendantFiles m) -> In q s') <->
               (forall q, In q (getAllDescendantFiles m) -> In q s1))).
    { intros m Hm.
      assert (Hne : forall q, In q (getAllDescendantFiles m) -> q <> p)
        by (intros q Hq; eapply Hbelow, leaves_paths_within; eauto).
      split; intros H q Hq; specialize (H q Hq);
        apply (Hother q (Hne q Hq)); exact H. }
    assert (Hall : all = true <->
              forall q, In q (flat_map getAllDescendantFiles ch) -> In q s').
    { assert (Hne : forall q, In q (flat_map getAllDescendantFiles ch) -> q <> p).
      { intros q Hq. apply in_flat_map in Hq as [c [Hc Hq]].
        apply Hbelow, (@leaves_paths_within ch c q); [|exact Hq].
        apply in_flat_map. exists c. split; [exact Hc | apply subnodes_self]. }
      rewrite Hb1. split; intros H q Hq; specialize (H q Hq);
        apply (Hother q (Hne q Hq)); exact H. }
    split; [|split].
    + subst s'. destruct all.
      * destruct (includes s1 p) eqn:E; simpl; [exact Hs1|].
        apply includes_not_In in E.
        apply Permutation_NoDup with (l := p :: s1);
          [apply Permutation_cons_append | now constructor].
      * apply remove_first_NoDup, Hs1.
    + exact Hall.
    + intros m [<- | Hm] Hfolder.
      * simpl. rewrite Hself. exact Hall.
      * rewrite (Hleaves m Hm), Hother; [now apply Hf1|].
        apply Hbelow. now apply in_map.
Qed.

(** After [updateParentStates], on a tree whose node paths are distinct and
    a selection without duplicates, every folder is stored exactly when all
    its descendant leaves are. *)
Lemma updateParentStates_consistent (tree : list FileNode) (s : list string) :
  NoDup (all_paths tree) -> NoDup s ->
  NoDup (updateParentStates tree s) /\
  folders_consistent tree (updateParentStates tree s).
Proof.
  intros Hnd Hs. unfold updateParentStates, folders_consistent.
  destruct (@process_children_derived tree) with (s := s) as (H1 & _ & H3);
    auto.
  apply Forall_forall. intros c _. apply processNode_derived.
Qed.

(** ** Evaluations *)

(** Siblings whose names are array indices come first, in ascending
    numeric order, whatever their order in the input; the other names keep
    their order of first occurrence. *)
Lemma buildTree_digit_names_reordered :
  map name
    match buildTree ["b.txt"; "10/x"; "9/y"; "a.txt"] with
    | Some tree => tree
    | None => []
    end
  = ["9"; "10"; "b.txt"; "a.txt"].
Proof. reflexivity. Qed.

(** ** Runs of toggles *)

Lemma apply_op_tree (st : FileTreeState) (op : SelectionOp) :
  tree (apply_op st op) = tree st.
Proof.
  destruct op as [p | n]; simpl; [reflexivity|].
  unfold toggleFolder. now destruct (children n).
Qed.

Lemma run_tree (ops : list SelectionOp) :
  forall st, tree (run st ops) = tree st.
Proof.
  unfold run. induction ops as [|op ops IH]; intros st; simpl; [reflexivity|].
  now rewrite IH, apply_op_tree.
Qed.

Lemma flip_NoDup (s : list string) (p : string) :
  NoDup s ->
  NoDup (if includes s p
         then filter (fun f => negb (String.eqb f p)) s
         else s ++ [p]).
Proof.
  intros Hs. destruct (includes s p) eqn:E.
  - now apply NoDup_filter.
  - apply includes_not_In in E.
    apply Permutation_NoDup with (l := p :: s);
      [apply Permutation_cons_append | now constructor].
Qed.

Lemma apply_op_NoDup (st : FileTreeState) (op : SelectionOp) :
  NoDup (all_paths (tree st)) -> NoDup (selected st) ->
  NoDup (selected (apply_op st op)).
Proof.
  intros Htree Hs. destruct op as [p | n]; simpl.
  - apply updateParentStates_consistent; [exact Htree | now apply flip_NoDup].
  - unfold toggleFolder. destruct (children n); [|exact Hs]. simpl.
    destruct (areAllChildrenSelected (selected st) n).
    + now apply NoDup_filter.
    + apply Set_from_NoDup.
Qed.

Lemma run_NoDup (ops : list SelectionOp) :
  forall st, NoDup (all_paths (tree st)) -> NoDup (selected st) ->
    NoDup (selected (run st ops)).
Proof.
  unfold run. induction ops as [|op ops IH]; intros st Htree Hs; simpl; [exact Hs|].
  apply IH; [now rewrite apply_op_tree | now apply apply_op_NoDup].
Qed.

Lemma run_snoc (st : FileTreeState) (ops : list SelectionOp) (op : SelectionOp) :
  run st (ops ++ [op]) = apply_op (run st ops) op.
Proof. unfold run. now rewrite fold_left_app. Qed.

(** C1, as stated, fails: [toggleFolder] does not call
    [updateParentStates], which [toggleFile] does.  After selecting the
    folder [sub] its path is not stored although both of its leaves are; and
    after selecting both leaves one by one and then deselecting the folder,
    its path stays stored although none of its leaves is. *)
Lemma toggleFolder_leaves_folders_stale :
  buildTree demo_files = Some (tree (demo_state [])) /\
  selected (run (demo_state []) [ToggleFolder demo_sub])
  = ["root/sub/b.txt"; "root/sub/c.txt"] /\
  ~ folders_consistent demo_tree
      (selected (run (demo_state []) [ToggleFolder demo_sub])) /\
  selected (run (demo_state [])
              [ToggleLeaf "root/sub/b.txt"; ToggleLeaf "root/sub/c.txt";
               ToggleFolder demo_sub])
  = ["root/sub"] /\
  ~ folders_consistent demo_tree
      (selected (run (demo_state [])
                   [ToggleLeaf "root/sub/b.txt"; ToggleLeaf "root/sub/c.txt";
                    ToggleFolder demo_sub])).
Proof.
  assert (Hsub : In demo_sub (all_nodes demo_tree)) by (simpl; auto).
  assert (Hf : is_folder demo_sub) by discriminate.
  repeat split; try reflexivity.
  - intros H. specialize (H demo_sub Hsub Hf).
    assert (Hin : In (path demo_sub)
                    (selected (run (demo_state []) [ToggleFolder demo_sub]))).
    { apply H. simpl. tauto. }
    simpl in Hin. destruct Hin as [E | [E | []]]; discriminate E.
  - intros H. specialize (H demo_sub Hsub Hf).
    assert (Hin : In "root/sub/b.txt"
                    (selected (run (demo_state [])
                       [ToggleLeaf "root/sub/b.txt"; ToggleLeaf "root/sub/c.txt";
                        ToggleFolder demo_sub]))).
    { apply H; [vm_compute; auto | simpl; auto]. }
    vm_compute in Hin. destruct Hin as [E | []]. discriminate E.
Qed.

(** C1, amended: on a tree returned by [buildTree], and starting from the
    empty selection (or from any selection without duplicates), after each
    [toggleFile] of a run of [toggleFile] and [toggleFolder] operations the
    path of every folder is in the selection if and only if the paths of all
    its descendant leaves are. *)
Theorem toggleFile_restores_consistency
    (files : list string) (st : FileTreeState)
    (ops : list SelectionOp) (p : string) :
  buildTree files = Some (tree st) ->
  NoDup (selected st) ->
  folders_consistent (tree st) (selected (run st (ops ++ [ToggleLeaf p]))).
Proof.
  intros Hbuild Hs.
  pose proof (@buildTree_paths_NoDup _ _ Hbuild) as Htree.
  rewrite run_snoc. simpl apply_op. rewrite toggleFile_selected.
  rewrite run_tree.
  apply updateParentStates_consistent; [exact Htree|].
  apply flip_NoDup. now apply run_NoDup.
Qed.

Lemma toggleFile_restores_consistency_witness :
  buildTree demo_files = Some (tree (demo_state [])) /\
  NoDup (selected (demo_state [])) /\
  (In (path demo_sub)
     (selected (run (demo_state [])
                  ([ToggleFolder demo_sub; ToggleLeaf "root/a.txt"]
                   ++ [ToggleLeaf "root/sub/c.txt"])))
   <-> forall q, In q (getAllDescendantFiles demo_sub) ->
         In q (selected (run (demo_state [])
                           ([ToggleFolder demo_sub; ToggleLeaf "root/a.txt"]
                            ++ [ToggleLeaf "root/sub/c.txt"])))).
Proof.
  split; [reflexivity|]. split; [constructor|].
  apply (@toggleFile_restores_consistency demo_files (demo_state [])
           [ToggleFolder demo_sub; ToggleLeaf "root/a.txt"] "root/sub/c.txt"
           eq_refl (NoDup_nil string) demo_sub).
  - simpl. auto.
  - discriminate.
Defined.

(** ** When the walk throws *)

(** A walk throws exactly when one of its segments is the name of a property
    of [Object.prototype]. *)
Lemma walk_returns parts :
  forall cp (o : Obj RawNode),
    Forall (fun part => inherited part = false) parts ->
    exists o', walk parts cp o = Some o'.
Proof.
  induction parts as [|part rest IH]; intros cp o Hall; [simpl; eauto|].
  inversion Hall as [|? ? Hpart Hrest]; subst. simpl. rewrite Hpart.
  destruct (own part o) as [n|].
  - destruct (raw_children n) as [ch|].
    + destruct (IH (join_path cp part) ch Hrest) as [ch' ->]. eauto.
    + destruct (IH (join_path cp part) [] Hrest) as [d ->]. eauto.
  - destruct rest as [|r rest']; [eauto|].
    destruct (IH (join_path cp part) [] Hrest) as [ch ->]. eauto.
Qed.

Lemma walk_throws parts :
  forall cp (o : Obj RawNode),
    walk parts cp o = None -> exists part, In part parts /\ inherited part = true.
Proof.
  induction parts as [|part rest IH]; intros cp o H; [discriminate H|].
  simpl in H. destruct (inherited part) eqn:Ei.
  - exists part. split; [now left | exact Ei].
  - assert (Hrest : exists cp' o', walk rest cp' o' = None).
    { destruct (own part o) as [n|].
      - destruct (raw_children n) as [ch|].
        + destruct (walk rest (join_path cp part) ch) eqn:E; [discriminate H | eauto].
        + destruct (walk rest (join_path cp part) []) eqn:E; [discriminate H | eauto].
      - destruct rest as [|r rest']; [discriminate H|].
        destruct (walk (r :: rest') (join_path cp part) []) eqn:E;
          [discriminate H | eauto]. }
    destruct Hrest as (cp' & o' & Hw).
    destruct (IH _ _ Hw) as (x & Hx & Hi). exists x. split; [now right | exact Hi].
Qed.

(** A segment named like a property of [Object.prototype] makes the property
    read succeed on an object that has no [__node], and the walk throws. *)
Lemma buildTree_inherited_name : buildTree ["src/constructor/index.ts"] = None.
Proof. reflexivity. Qed.

(** * Further properties of the component *)

(** ** Expanding and collapsing *)

Lemma Set_delete_In (s : list string) (x q : string) :
  In q (Set_delete s x) <-> In q s /\ q <> x.
Proof.
  unfold Set_delete. rewrite filter_In, negb_true_iff, String.eqb_neq. tauto.
Qed.

Lemma Set_delete_NoDup (s : list string) (x : string) :
  NoDup s -> NoDup (Set_delete s x).
Proof. apply NoDup_filter. Qed.

Lemma toggleExpand_expanded (st : FileTreeState) (p : string) :
  (In p (expanded (toggleExpand st p)) <-> ~ In p (expanded st)) /\
  (forall q, q <> p ->
     (In q (expanded (toggleExpand st p)) <-> In q (expanded st))) /\
  NoDup (expanded (toggleExpand st p)).
Proof.
  unfold toggleExpand, Set_has. simpl expanded.
  destruct (includes (Set_from (expanded st)) p) eqn:E.
  - apply includes_In in E. rewrite Set_from_In in E. split; [|split].
    + rewrite Set_delete_In. split; [intros [_ H]; congruence | tauto].
    + intros q Hq. rewrite Set_delete_In, Set_from_In. tauto.
    + apply Set_delete_NoDup, Set_from_NoDup.
  - apply includes_not_In in E. rewrite Set_from_In in E. split; [|split].
    + rewrite Set_add_In. tauto.
    + intros q Hq. rewrite Set_add_In, Set_from_In. tauto.
    + apply Set_add_NoDup, Set_from_NoDup.
Qed.

(** X1: [toggleExpand] flips the expansion of the one path it is given and
    of no other: expanding or collapsing a folder leaves the recorded state
    of its descendants and ancestors alone; the set keeps no duplicate. *)
Theorem toggleExpand_flips_one (st : FileTreeState) (p : string) :
  (In p (expanded (toggleExpand st p)) <-> ~ In p (expanded st)) /\
  (forall q, q <> p ->
     (In q (expanded (toggleExpand st p)) <-> In q (expanded st))) /\
  NoDup (expanded (toggleExpand st p)).
Proof. apply toggleExpand_expanded. Qed.

(** X2: toggling the expansion of the same path twice gives back a set
    with the same members. *)
Theorem toggleExpand_twice (st : FileTreeState) (p q : string) :
  In q (expanded (toggleExpand (toggleExpand st p) p)) <-> In q (expanded st).
Proof.
  destruct (toggleExpand_expanded st p) as (H1 & H2 & _).
  destruct (toggleExpand_expanded (toggleExpand st p) p) as (H3 & H4 & _).
  destruct (string_dec q p) as [-> | Hne].
  - rewrite H3, H1. destruct (in_dec string_dec p (expanded st)); tauto.
  - rewrite H4, H2 by exact Hne. reflexivity.
Qed.

(** ** Mounting *)

Lemma isFolder_true (n : FileNode) :
  isFolder n = true <-> exists c rest, children n = Some (c :: rest).
Proof.
  unfold isFolder. destruct (children n) as [[|c rest]|]; simpl.
  - split; [discriminate | intros (c & rest & H); discriminate H].
  - split; [eauto | reflexivity].
  - split; [discriminate | intros (c & rest & H); discriminate H].
Qed.

Lemma fold_collect_In (l : list FileNode) (q : string) :
  Forall (fun c => forall acc,
            In q (collectFolders_node c acc) <->
            In q acc \/ exists m, In m (subnodes c) /\ isFolder m = true /\ path m = q) l ->
  forall acc,
    In q (fold_left (fun a child => collectFolders_node child a) l acc) <->
    In q acc \/
    exists m, In m (flat_map subnodes l) /\ isFolder m = true /\ path m = q.
Proof.
  induction 1 as [|c l Hc Hl IH]; intros acc; simpl.
  - split; [auto | intros [H | (m & [] & _)]; exact H].
  - rewrite IH, Hc. split.
    + intros [[H | (m & Hm & Hf)] | (m & Hm & Hf)]; auto; right; exists m;
        (split; [apply in_or_app; auto | exact Hf]).
    + intros [H | (m & Hm & Hf)]; auto.
      apply in_app_or in Hm as [Hm | Hm]; [left; right | right]; eauto.
Qed.

Lemma collectFolders_node_In (n : FileNode) (q : string) :
  forall acc,
    In q (collectFolders_node n acc) <->
    In q acc \/ exists m, In m (subnodes n) /\ isFolder m = true /\ path m = q.
Proof.
  induction n as [nm p | nm p ch IH] using FileNode_nested_ind; intros acc.
  - simpl. split; [auto | intros [H | (m & [<- | []] & Hf & _)]; [exact H|]].
    discriminate Hf.
  - destruct ch as [|c rest].
    + simpl. split; [auto | intros [H | (m & [<- | []] & Hf & _)]; [exact H|]].
      discriminate Hf.
    + change (collectFolders_node (mkFileNode nm p (Some (c :: rest))) acc)
        with (fold_left (fun a child => collectFolders_node child a) (c :: rest)
                (Set_add acc p)).
      rewrite (fold_collect_In IH), Set_add_In.
      change (subnodes (mkFileNode nm p (Some (c :: rest))))
        with (mkFileNode nm p (Some (c :: rest)) :: flat_map subnodes (c :: rest)).
      split.
      * intros [[H | ->] | (m & Hm & Hf)]; auto.
        -- right. exists (mkFileNode nm p (Some (c :: rest))).
           split; [now left | split; reflexivity].
        -- right. exists m. split; [now right | exact Hf].
      * intros [H | (m & [<- | Hm] & Hf & Hp)]; auto.
        right. eauto.
Qed.

Lemma fold_collect_NoDup (l : list FileNode) :
  Forall (fun c => forall acc, NoDup acc -> NoDup (collectFolders_node c acc)) l ->
  forall acc, NoDup acc ->
    NoDup (fold_left (fun a child => collectFolders_node child a) l acc).
Proof.
  induction 1 as [|c l Hc Hl IH]; intros acc Hacc; simpl; auto.
Qed.

Lemma collectFolders_node_NoDup (n : FileNode) :
  forall acc, NoDup acc -> NoDup (collectFolders_node n acc).
Proof.
  induction n as [nm p | nm p ch IH] using FileNode_nested_ind; intros acc Hacc.
  - exact Hacc.
  - destruct ch as [|c rest]; [exact Hacc|].
    change (collectFolders_node (mkFileNode nm p (Some (c :: rest))) acc)
      with (fold_left (fun a child => collectFolders_node child a) (c :: rest)
              (Set_add acc p)).
    apply (fold_collect_NoDup IH). now apply Set_add_NoDup.
Qed.

Lemma collectFolders_all_folders (nodes : list FileNode) (q : string) :
  NoDup (collectFolders nodes []) /\
  (In q (collectFolders nodes []) <->
   exists m, In m (all_nodes nodes) /\ isFolder m = true /\ path m = q).
Proof.
  unfold collectFolders. split.
  - apply fold_collect_NoDup; [|constructor].
    apply Forall_forall. intros c _. apply collectFolders_node_NoDup.
  - rewrite fold_collect_In.
    + unfold all_nodes. simpl. tauto.
    + apply Forall_forall. intros c _. apply collectFolders_node_In.
Qed.

Lemma subnodes_wf (n : FileNode) :
  forall parent m, wf_node parent n -> In m (subnodes n) ->
    exists parent', wf_node parent' m.
Proof.
  induction n as [nm p | nm p ch IH] using FileNode_nested_ind;
    intros parent m Hwf Hm.
  - destruct Hm as [<- | []]. eauto.
  - apply subnodes_inv in Hm as [-> | (l & c & Hl & Hc & Hm)]; [eauto|].
    simpl in Hl. injection Hl as <-.
    inversion Hwf as [? ? _ _ Hkids]; subst.
    destruct (Hkids _ eq_refl) as (_ & _ & Hall).
    rewrite Forall_forall in IH, Hall. eapply IH; eauto.
Qed.

Lemma wf_forest_node parent (l : list FileNode) (m : FileNode) :
  wf_forest parent l -> In m (all_nodes l) -> exists parent', wf_node parent' m.
Proof.
  intros [_ Hall] Hm. apply all_nodes_inv in Hm as (n & Hn & Hm).
  rewrite Forall_forall in Hall. eapply subnodes_wf; eauto.
Qed.

Lemma wf_node_isFolder parent (n : FileNode) :
  wf_node parent n -> (isFolder n = true <-> is_folder n).
Proof.
  intros Hwf. inversion Hwf as [? ? _ _ Hkids]; subst.
  unfold isFolder, is_folder. destruct (children n) as [ch|].
  - destruct (Hkids _ eq_refl) as (Hne & _).
    destruct ch; [congruence|]. simpl. split; [discriminate | reflexivity].
  - split; [discriminate | congruence].
Qed.

(** [trim] on white space outside ASCII: an entry made of such code points
    only is blank, and a byte that ends another code point (here U+0420,
    D0 A0) is kept. *)
Lemma trim_white_space_code_points :
  trim ideographic_space = "" /\
  trim no_break_space = "" /\
  trim (" " ++ ideographic_space ++ "a b" ++ no_break_space ++ " ") = "a b" /\
  trim (String (ascii_of_nat 208) (String (ascii_of_nat 160) EmptyString))
  = String (ascii_of_nat 208) (String (ascii_of_nat 160) EmptyString).
Proof. repeat split; reflexivity. Qed.

(** X3: mounting the component on a listing keeps the selection, builds the
    tree of the entries that are not blank, and expands every folder of that
    tree and nothing else. *)
Theorem mount_expands_every_folder
    (files : list string) (st st' : FileTreeState) :
  mount files st = Some st' ->
  selected st' = selected st /\
  buildTree (filter (fun f => negb (String.eqb (trim f) "")) files)
  = Some (tree st') /\
  NoDup (expanded st') /\
  forall q, In q (expanded st') <->
            exists m, In m (all_nodes (tree st')) /\ is_folder m /\ path m = q.
Proof.
  unfold mount.
  destruct (buildTree (filter _ files)) as [built|] eqn:Eb; [|discriminate].
  intros [= <-]. simpl selected. simpl tree. simpl expanded.
  split; [reflexivity|]. split; [reflexivity|].
  pose proof (@buildTree_wf _ _ Eb) as Hwf.
  split; [exact (proj1 (collectFolders_all_folders built ""))|].
  intros q. rewrite (proj2 (collectFolders_all_folders built q)).
  split; intros (m & Hm & Hf & Hp); exists m;
    destruct (@wf_forest_node _ _ _ Hwf Hm) as [pp Hwm];
    (split; [exact Hm | split; [|exact Hp]]);
    now apply (@wf_node_isFolder _ _ Hwm).
Qed.

Lemma mount_expands_every_folder_witness :
  mount ["root/a.txt"; "  "; ideographic_space; "root/sub/b.txt";
         no_break_space; "root/sub/c.txt"] (demo_state [])
  = Some (demo_state []) /\
  NoDup (expanded (demo_state [])).
Proof.
  split; [reflexivity|].
  exact (proj1 (proj2 (proj2
    (@mount_expands_every_folder
       ["root/a.txt"; "  "; ideographic_space; "root/sub/b.txt";
        no_break_space; "root/sub/c.txt"]
       (demo_state []) (demo_state []) eq_refl)))).
Defined.

(** ** Rendering *)

Lemma renderNode_eq selected expanded (node : FileNode) prefix isLast :
  renderNode selected expanded node prefix isLast =
  mkRow node prefix isLast (isFolder node) (isChecked selected node)
    (Set_has expanded (path node))
    (if isFolder node then ToggleFolder node else ToggleLeaf (path node))
  :: match children node with
     | Some ch =>
         if isFolder node && Set_has expanded (path node)
         then renderTree selected expanded ch (prefix ++ [negb isLast])
         else []
     | None => []
     end.
Proof.
  destruct node as [nm p [ch|]]; [|reflexivity].
  simpl. f_equal.
  destruct (isFolder _ && Set_has expanded p); [|reflexivity].
  induction ch as [|c rest IH]; [reflexivity|]. simpl. now rewrite IH.
Qed.

Lemma renderTree_all_nodes selected expanded (nodes : list FileNode) :
  Forall (fun n => forall prefix isLast,
            (forall m, In m (subnodes n) -> isFolder m = true ->
                       In (path m) expanded) ->
            map row_node (renderNode selected expanded n prefix isLast)
            = subnodes n) nodes ->
  forall prefix,
    (forall m, In m (all_nodes nodes) -> isFolder m = true -> In (path m) expanded) ->
    map row_node (renderTree selected expanded nodes prefix) = all_nodes nodes.
Proof.
  induction 1 as [|n rest Hn Hrest IH]; intros prefix Hexp; [reflexivity|].
  simpl. rewrite map_app, Hn, IH; [reflexivity | |];
    intros m Hm; apply Hexp; unfold all_nodes; simpl; apply in_or_app; auto.
Qed.

Lemma renderNode_all_nodes selected expanded (n : FileNode) :
  forall prefix isLast,
    (forall m, In m (subnodes n) -> isFolder m = true -> In (path m) expanded) ->
    map row_node (renderNode selected expanded n prefix isLast) = subnodes n.
Proof.
  induction n as [nm p | nm p ch IH] using FileNode_nested_ind;
    intros prefix isLast Hexp.
  - reflexivity.
  - rewrite renderNode_eq. simpl children. simpl path. cbv beta iota.
    destruct (isFolder (mkFileNode nm p (Some ch))) eqn:Ef.
    + assert (Hp : Set_has expanded p = true).
      { apply includes_In. apply (Hexp (mkFileNode nm p (Some ch)));
          [apply subnodes_self | exact Ef]. }
      rewrite Hp. simpl andb. cbv iota. simpl map. simpl subnodes. f_equal.
      apply (@renderTree_all_nodes selected expanded ch IH).
      intros m Hm. apply Hexp. simpl. now right.
    + simpl andb. cbv iota. unfold isFolder in Ef. simpl in Ef.
      destruct ch; [reflexivity | discriminate Ef].
Qed.

(** X4: when every folder of the tree is expanded, [renderTree] renders
    every node of the tree exactly once, parents before children and
    siblings in tree order. *)
Theorem renderTree_shows_every_node
    (selected expanded : list string) (nodes : list FileNode) (prefix : list bool) :
  (forall m, In m (all_nodes nodes) -> isFolder m = true -> In (path m) expanded) ->
  map row_node (renderTree selected expanded nodes prefix) = all_nodes nodes.
Proof.
  apply renderTree_all_nodes. apply Forall_forall.
  intros n _. apply renderNode_all_nodes.
Qed.

Lemma renderTree_shows_every_node_witness :
  map row_node (renderTree ["root/a.txt"] ["root"; "root/sub"] demo_tree [])
  = all_nodes demo_tree.
Proof.
  apply renderTree_shows_every_node.
  intros m Hm Hf. simpl in Hm.
  destruct Hm as [<- | [<- | [<- | [<- | [<- | []]]]]];
    try discriminate Hf; simpl; auto.
Defined.

(** Rows are made of nodes of the rendered subtree only. *)
Lemma renderTree_within selected expanded (nodes : list FileNode) :
  Forall (fun n => forall prefix isLast r,
            In r (renderNode selected expanded n prefix isLast) ->
            In (row_node r) (subnodes n)) nodes ->
  forall prefix r,
    In r (renderTree selected expanded nodes prefix) ->
    In (row_node r) (all_nodes nodes).
Proof.
  induction 1 as [|n rest Hn Hrest IH]; intros prefix r Hr; [contradiction|].
  simpl in Hr. unfold all_nodes. simpl. apply in_or_app.
  apply in_app_or in Hr as [Hr | Hr]; [left; eauto | right; eapply IH; eauto].
Qed.

Lemma renderNode_within selected expanded (n : FileNode) :
  forall prefix isLast r,
    In r (renderNode selected expanded n prefix isLast) ->
    In (row_node r) (subnodes n).
Proof.
  induction n as [nm p | nm p ch IH] using FileNode_nested_ind;
    intros prefix isLast r Hr.
  - destruct Hr as [<- | []]. now left.
  - rewrite renderNode_eq in Hr. destruct Hr as [<- | Hr]; [now left|].
    simpl children in Hr. cbv beta iota in Hr.
    destruct (isFolder _ && Set_has expanded _); [|contradiction].
    simpl. right.
    apply (@renderTree_within selected expanded ch IH _ _ Hr).
Qed.

Lemma NoDup_app_disjoint (A : Type) (l1 l2 : list A) (x : A) :
  NoDup (l1 ++ l2) -> In x l1 -> In x l2 -> False.
Proof.
  induction l1 as [|y l1 IH]; simpl; [tauto|].
  intros Hnd [-> | H1] H2; inversion Hnd as [|? ? Hy Hl]; subst.
  - apply Hy, in_or_app. now right.
  - now apply IH.
Qed.

Lemma renderTree_collapsed selected expanded (nodes : list FileNode) :
  Forall (fun t => forall prefix isLast n m,
            NoDup (map path (subnodes t)) ->
            In n (subnodes t) -> ~ In (path n) expanded ->
            In m (subnodes n) -> m <> n ->
            ~ In m (map row_node (renderNode selected expanded t prefix isLast)))
    nodes ->
  forall prefix n m,
    NoDup (map path (all_nodes nodes)) ->
    In n (all_nodes nodes) -> ~ In (path n) expanded ->
    In m (subnodes n) -> m <> n ->
    ~ In m (map row_node (renderTree selected expanded nodes prefix)).
Proof.
  induction 1 as [|t rest Ht Hrest IH]; intros prefix n m Hnd Hn Hexp Hm Hne;
    [contradiction|].
  unfold all_nodes in Hnd, Hn. simpl in Hnd, Hn. rewrite map_app in Hnd.
  simpl. rewrite map_app. intros Hin.
  assert (Hrows1 : forall x isLast,
            In x (map row_node (renderNode selected expanded t prefix isLast)) ->
            In x (subnodes t)).
  { intros x isLast Hx. apply in_map_iff in Hx as (r & <- & Hr).
    eapply renderNode_within; eauto. }
  assert (Hrows2 : forall x,
            In x (map row_node (renderTree selected expanded rest prefix)) ->
            In x (all_nodes rest)).
  { intros x Hx. apply in_map_iff in Hx as (r & <- & Hr).
    eapply renderTree_within; [|exact Hr].
    apply Forall_forall. intros c _. apply renderNode_within. }
  apply in_app_or in Hn as [Hn | Hn], Hin as [Hin | Hin].
  - apply (Ht prefix _ n m (NoDup_app_remove_r _ _ Hnd) Hn Hexp Hm Hne Hin).
  - apply (@NoDup_app_disjoint _ _ _ (path m) Hnd).
    + apply in_map. eapply subnodes_trans; eauto.
    + apply in_map. now apply Hrows2.
  - apply (@NoDup_app_disjoint _ _ _ (path m) Hnd).
    + apply in_map. eapply Hrows1; eauto.
    + apply in_map. apply in_flat_map in Hn as (c & Hc & Hn).
      apply in_flat_map. exists c. split; [exact Hc|].
      eapply subnodes_trans; eauto.
  - apply (IH prefix n m (NoDup_app_remove_l _ _ Hnd) Hn Hexp Hm Hne Hin).
Qed.

Lemma renderNode_collapsed selected expanded (t : FileNode) :
  forall prefix isLast n m,
    NoDup (map path (subnodes t)) ->
    In n (subnodes t) -> ~ In (path n) expanded ->
    In m (subnodes n) -> m <> n ->
    ~ In m (map row_node (renderNode selected expanded t prefix isLast)).
Proof.
  induction t as [nm p | nm p ch IH] using FileNode_nested_ind;
    intros prefix isLast n m Hnd Hn Hexp Hm Hne Hin.
  - destruct Hn as [<- | []]. destruct Hm as [<- | []]. now apply Hne.
  - rewrite renderNode_eq in Hin. simpl children in Hin. cbv beta iota in Hin.
    simpl path in Hin. simpl map in Hin.
    simpl in Hnd. inversion Hnd as [|? ? Hp Hkids]; subst.
    apply subnodes_inv in Hn as [-> | (l & c & Hl & Hc & Hn)].
    + (* the collapsed node is this one *)
      assert (Hhas : Set_has expanded p = false)
        by (apply includes_not_In; exact Hexp).
      rewrite Hhas, andb_false_r in Hin.
      destruct Hin as [<- | []]. now apply Hne.
    + simpl in Hl. injection Hl as <-.
      assert (Hn' : In n (all_nodes ch))
        by (apply in_flat_map; eauto).
      assert (Hm' : In m (all_nodes ch)).
      { apply in_flat_map in Hn' as (c' & Hc' & Hn').
        apply in_flat_map. exists c'. split; [exact Hc'|].
        eapply subnodes_trans; eauto. }
      destruct Hin as [<- | Hin].
      * apply Hp. apply (in_map path) in Hm'. exact Hm'.
      * destruct (isFolder _ && Set_has expanded p); [|contradiction].
        exact (@renderTree_collapsed selected expanded ch IH _ n m
                 Hkids Hn' Hexp Hm Hne Hin).
Qed.

(** X5: in a tree returned by [buildTree], nothing below a collapsed folder
    is rendered, whatever the expansion state of the nodes below it. *)
Theorem renderTree_hides_collapsed
    (files selected expanded : list string) (tree : list FileNode)
    (prefix : list bool) (n m : FileNode) :
  buildTree files = Some tree ->
  In n (all_nodes tree) -> ~ In (path n) expanded ->
  In m (subnodes n) -> m <> n ->
  ~ In m (map row_node (renderTree selected expanded tree prefix)).
Proof.
  intros Hbuild. apply renderTree_collapsed.
  - apply Forall_forall. intros t _. apply renderNode_collapsed.
  - apply (@buildTree_paths_NoDup _ _ Hbuild).
Qed.

Lemma renderTree_hides_collapsed_witness :
  ~ In (leaf "b.txt" "root/sub/b.txt")
      (map row_node (renderTree [] ["root"] demo_tree [])).
Proof.
  apply (@renderTree_hides_collapsed demo_files [] ["root"] demo_tree []
           demo_sub (leaf "b.txt" "root/sub/b.txt") eq_refl).
  - simpl. auto.
  - simpl. intros [H | []]. discriminate H.
  - simpl. auto.
  - discriminate.
Defined.

(** ** What a click on a checkbox does *)

Lemma wf_node_has_leaf (n : FileNode) :
  forall parent, wf_node parent n -> getAllDescendantFiles n <> [].
Proof.
  induction n as [nm p | nm p ch IH] using FileNode_nested_ind;
    intros parent Hwf; [discriminate|].
  inversion Hwf as [? ? _ _ Hkids]; subst.
  destruct (Hkids _ eq_refl) as (Hne & _ & Hall).
  destruct ch as [|c rest]; [congruence|].
  inversion IH as [|? ? Hc _]; subst. inversion Hall as [|? ? Hwc _]; subst.
  simpl. specialize (Hc _ Hwc).
  destruct (getAllDescendantFiles c); [congruence | discriminate].
Qed.

(** What [toggleFolder] does to the selection: the descendant leaves of the
    folder are all added, or all removed when they were all there; no other
    path changes. *)
Lemma toggleFolder_selected (st : FileTreeState) (node : FileNode) (q : string) :
  is_folder node ->
  (In q (selected (toggleFolder st node)) <->
   if areAllChildrenSelected (selected st) node
   then In q (selected st) /\ ~ In q (getAllDescendantFiles node)
   else In q (selected st) \/ In q (getAllDescendantFiles node)).
Proof.
  unfold is_folder, toggleFolder. destruct (children node) eqn:Ech; [|congruence].
  intros _. simpl selected.
  destruct (areAllChildrenSelected (selected st) node).
  - rewrite filter_In, negb_true_iff, includes_not_In. reflexivity.
  - rewrite Set_from_In, in_app_iff. reflexivity.
Qed.

(** X6: [toggleFolder] on a folder changes the membership of its descendant
    leaves only: it selects them all, unless they were all selected, in which
    case it removes them all. *)
Theorem toggleFolder_cascades (st : FileTreeState) (node : FileNode) :
  is_folder node ->
  (forall q, ~ In q (getAllDescendantFiles node) ->
     (In q (selected (toggleFolder st node)) <-> In q (selected st))) /\
  (areAllChildrenSelected (selected st) node = true ->
   forall q, In q (getAllDescendantFiles node) ->
     ~ In q (selected (toggleFolder st node))) /\
  (areAllChildrenSelected (selected st) node = false ->
   forall q, In q (getAllDescendantFiles node) ->
     In q (selected (toggleFolder st node))).
Proof.
  intros Hf. repeat split.
  - rewrite (toggleFolder_selected st q Hf).
    destruct (areAllChildrenSelected _ _); tauto.
  - rewrite (toggleFolder_selected st q Hf).
    destruct (areAllChildrenSelected _ _); tauto.
  - intros E q Hq. rewrite (toggleFolder_selected st q Hf), E. tauto.
  - intros E q Hq. rewrite (toggleFolder_selected st q Hf), E. tauto.
Qed.

Lemma toggleFolder_cascades_witness :
  In "root/a.txt" (selected (toggleFolder (demo_state ["root/a.txt"]) demo_sub))
  <-> In "root/a.txt" (selected (demo_state ["root/a.txt"])).
Proof.
  apply (proj1 (@toggleFolder_cascades (demo_state ["root/a.txt"]) demo_sub
                  ltac:(discriminate))).
  simpl. intros [H | [H | []]]; discriminate H.
Defined.

Lemma isChecked_leaf (s : list string) (n : FileNode) :
  isFolder n = false -> children n <> Some [] ->
  isChecked s n = includes s (path n).
Proof.
  unfold isChecked, isFolder, areAllChildrenSelected.
  destruct (children n) as [[|c rest]|]; simpl; intros H1 H2;
    [congruence | discriminate H1 | reflexivity].
Qed.

Lemma isChecked_folder (s : list string) (n : FileNode) :
  isFolder n = true -> isChecked s n = areAllChildrenSelected s n.
Proof.
  unfold isChecked, isFolder.
  destruct (children n) as [[|c rest]|]; simpl; intros H;
    [discriminate H | reflexivity | discriminate H].
Qed.

Lemma bool_flip (a b : bool) : (a = true <-> b <> true) -> a = negb b.
Proof.
  destruct a, b; simpl; intros [H1 H2]; try reflexivity.
  - exfalso. now apply H1.
  - apply H2. discriminate.
Qed.

(** X7: in a tree returned by [buildTree], a click on the checkbox of any
    node flips what that checkbox shows. *)
Theorem checkbox_click_flips
    (files : list string) (st : FileTreeState) (node : FileNode) :
  buildTree files = Some (tree st) ->
  In node (all_nodes (tree st)) ->
  isChecked
    (selected (apply_op st (if isFolder node then ToggleFolder node
                            else ToggleLeaf (path node)))) node
  = negb (isChecked (selected st) node).
Proof.
  intros Hbuild Hnode.
  pose proof (@buildTree_wf _ _ Hbuild) as Hwf.
  destruct (@wf_forest_node _ _ _ Hwf Hnode) as [pp Hwn].
  pose proof (@wf_node_isFolder _ _ Hwn) as Hfold.
  destruct (isFolder node) eqn:Ef.
  - (* a folder *)
    assert (Hf : is_folder node) by now apply Hfold.
    simpl apply_op. rewrite !isChecked_folder by exact Ef.
    pose proof (fun s => @areAllChildrenSelected_folder s node Hf) as Hsel.
    pose proof (@wf_node_has_leaf node pp Hwn) as Hleaf.
    apply bool_flip. rewrite Hsel.
    destruct (areAllChildrenSelected (selected st) node) eqn:E.
    + split; [|congruence]. intros H _.
      destruct (getAllDescendantFiles node) as [|q l] eqn:El; [congruence|].
      assert (Hq : In q (q :: l)) by now left.
      specialize (H q Hq). rewrite <- El in Hq.
      apply (toggleFolder_selected st q Hf) in H. rewrite E in H. tauto.
    + split; [discriminate|]. intros _ q Hq.
      apply (toggleFolder_selected st q Hf). rewrite E. tauto.
  - (* a file *)
    assert (Hl : is_leaf node).
    { unfold is_leaf. destruct (children node) eqn:Ec; [|reflexivity].
      exfalso. assert (H : false = true)
        by (apply Hfold; unfold is_folder; congruence).
      discriminate H. }
    simpl apply_op. unfold is_leaf in Hl.
    assert (Hne : children node <> Some []) by congruence.
    rewrite !isChecked_leaf by assumption.
    apply bool_flip. rewrite includes_In, toggleFile_selected.
    rewrite updateParentStates_frame.
    + rewrite flip_self. rewrite <- includes_In.
      destruct (includes (selected st) (path node)); split; congruence.
    + apply leaf_not_folder; [|exact Hnode | exact Hl].
      apply (@buildTree_paths_NoDup _ _ Hbuild).
Qed.

Lemma checkbox_click_flips_witness :
  isChecked
    (selected (apply_op (demo_state ["root/sub/b.txt"])
                 (if isFolder demo_sub then ToggleFolder demo_sub
                  else ToggleLeaf (path demo_sub)))) demo_sub
  = negb (isChecked (selected (demo_state ["root/sub/b.txt"])) demo_sub).
Proof.
  apply (@checkbox_click_flips demo_files (demo_state ["root/sub/b.txt"])
           demo_sub eq_refl).
  simpl. auto.
Defined.

(** ** Re-deriving the folders twice *)

Lemma remove_first_absent (x : string) (l : list string) :
  ~ In x l -> remove_first x l = l.
Proof.
  induction l as [|y l IH]; simpl; [reflexivity|]. intros H.
  destruct (String.eqb x y) eqn:E.
  - apply String.eqb_eq in E. subst. exfalso. apply H. now left.
  - rewrite IH; [reflexivity | tauto].
Qed.

Lemma forallb_flat_map (A B : Type) (f : B -> bool) (g : A -> list B) (l : list A) :
  forallb f (flat_map g l) = forallb (fun x => forallb f (g x)) l.
Proof.
  induction l as [|x l IH]; simpl; [reflexivity|].
  now rewrite forallb_app, IH.
Qed.

Lemma process_children_fixed (l : list FileNode) (s : list string) :
  Forall (fun c => processNode c s
                   = (forallb (includes s) (getAllDescendantFiles c), s)) l ->
  process_children processNode l s
  = (map (fun c => forallb (includes s) (getAllDescendantFiles c)) l, s).
Proof.
  induction 1 as [|c l Hc Hl IH]; [reflexivity|].
  rewrite process_children_cons, Hc. simpl. now rewrite IH.
Qed.

Lemma processNode_fixed (n : FileNode) (s : list string) :
  (forall m, In m (subnodes n) -> is_folder m ->
     (In (path m) s <-> forall q, In q (getAllDescendantFiles m) -> In q s)) ->
  processNode n s = (forallb (includes s) (getAllDescendantFiles n), s).
Proof.
  induction n as [nm p | nm p ch IH] using FileNode_nested_ind; intros Hcons.
  - simpl. now rewrite andb_true_r.
  - rewrite (@processNode_folder (mkFileNode nm p (Some ch)) ch s eq_refl).
    rewrite process_children_fixed.
    + cbv zeta. simpl fst. simpl snd. simpl path.
      change (getAllDescendantFiles (mkFileNode nm p (Some ch)))
        with (flat_map getAllDescendantFiles ch).
      rewrite forallb_flat_map.
      assert (E : forallb (fun state : bool => state)
                    (map (fun c => forallb (includes s) (getAllDescendantFiles c)) ch)
                  = forallb (fun c => forallb (includes s) (getAllDescendantFiles c)) ch).
      { clear. induction ch as [|c ch IH]; simpl; [reflexivity | now rewrite IH]. }
      rewrite E. rewrite <- forallb_flat_map.
      specialize (Hcons (mkFileNode nm p (Some ch)) (subnodes_self _)
                    ltac:(discriminate)).
      simpl path in Hcons.
      change (getAllDescendantFiles (mkFileNode nm p (Some ch)))
        with (flat_map getAllDescendantFiles ch) in Hcons.
      destruct (forallb (includes s) (flat_map getAllDescendantFiles ch)) eqn:Eall.
      * assert (Hin : In p s).
        { apply Hcons. intros q Hq. apply includes_In.
          rewrite forallb_forall in Eall. now apply Eall. }
        apply includes_In in Hin. now rewrite Hin.
      * rewrite remove_first_absent; [reflexivity|].
        intros Hin. rewrite Hcons in Hin.
        assert (H : forallb (includes s) (flat_map getAllDescendantFiles ch) = true).
        { apply forallb_forall. intros q Hq. now apply includes_In, Hin. }
        congruence.
    + rewrite Forall_forall in IH |- *. intros c Hc. apply IH; [exact Hc|].
      intros m Hm. apply Hcons. simpl. right. apply in_flat_map. eauto.
Qed.

(** A selection in which every folder is stored exactly when all its leaves
    are is left as it is, order included. *)
Lemma updateParentStates_fixed (tree : list FileNode) (s : list string) :
  folders_consistent tree s -> updateParentStates tree s = s.
Proof.
  intros Hcons. unfold updateParentStates.
  rewrite process_children_fixed; [reflexivity|].
  apply Forall_forall. intros c Hc. apply processNode_fixed.
  intros m Hm. apply Hcons. apply all_nodes_inv. eauto.
Qed.

(** X8: on a tree returned by [buildTree] and a selection without
    duplicates, [updateParentStates] is idempotent: applied to its own result
    it changes nothing. *)
Theorem updateParentStates_idempotent
    (files : list string) (tree : list FileNode) (s : list string) :
  buildTree files = Some tree -> NoDup s ->
  updateParentStates tree (updateParentStates tree s)
  = updateParentStates tree s.
Proof.
  intros Hbuild Hs. apply updateParentStates_fixed.
  apply updateParentStates_consistent; [|exact Hs].
  apply (@buildTree_paths_NoDup _ _ Hbuild).
Qed.

Lemma updateParentStates_idempotent_witness :
  updateParentStates demo_tree
    (updateParentStates demo_tree ["root/sub/c.txt"; "root"; "root/sub/b.txt"])
  = updateParentStates demo_tree ["root/sub/c.txt"; "root"; "root/sub/b.txt"].
Proof.
  apply (@updateParentStates_idempotent demo_files demo_tree _ eq_refl).
  repeat constructor; simpl; intuition discriminate.
Defined.

(** ** Toggling a leaf twice *)

Lemma leaves_are_leaf_nodes (n : FileNode) :
  forall q, In q (getAllDescendantFiles n) ->
    exists x, In x (subnodes n) /\ is_leaf x /\ path x = q.
Proof.
  induction n as [nm p | nm p ch IH] using FileNode_nested_ind; intros q Hq.
  - simpl in Hq. destruct Hq as [<- | []].
    exists (mkFileNode nm p None). split; [now left | split; reflexivity].
  - simpl in Hq. apply in_flat_map in Hq as (c & Hc & Hq).
    rewrite Forall_forall in IH. destruct (IH _ Hc _ Hq) as (x & Hx & Hl & Hp).
    exists x. split; [|auto]. simpl. right. apply in_flat_map. eauto.
Qed.

Lemma folder_path_dec (nodes : list FileNode) (q : string) :
  (exists m, In m nodes /\ is_folder m /\ path m = q) \/ not_folder_of nodes q.
Proof.
  induction nodes as [|n nodes [(m & Hm & Hf & Hp) | IH]].
  - right. intros m [].
  - left. exists m. split; [now right | auto].
  - destruct (children n) eqn:Ec.
    + destruct (string_dec (path n) q) as [E | E].
      * left. exists n. split; [now left|]. split; [|exact E].
        unfold is_folder. congruence.
      * right. intros m [<- | Hm] Hf; [exact E | now apply IH].
    + right. intros m [<- | Hm] Hf; [|now apply IH].
      exfalso. now apply Hf.
Qed.

(** Two selections that agree on every path that is not a folder path, and
    in which the folders are stored consistently, have the same members. *)
Lemma consistent_agree (tree : list FileNode) (s1 s2 : list string) :
  NoDup (all_paths tree) ->
  folders_consistent tree s1 -> folders_consistent tree s2 ->
  (forall q, not_folder_of (all_nodes tree) q -> (In q s1 <-> In q s2)) ->
  forall q, In q s1 <-> In q s2.
Proof.
  intros Hnd H1 H2 Hagree q.
  destruct (folder_path_dec (all_nodes tree) q) as [(m & Hm & Hf & <-) | Hq];
    [|now apply Hagree].
  rewrite (H1 m Hm Hf), (H2 m Hm Hf).
  assert (Hleaf : forall x, In x (getAllDescendantFiles m) ->
            not_folder_of (all_nodes tree) x).
  { intros x Hx. apply leaves_are_leaf_nodes in Hx as (y & Hy & Hl & <-).
    apply leaf_not_folder; [exact Hnd | | exact Hl].
    apply all_nodes_inv in Hm as (t & Ht & Hm). apply all_nodes_inv.
    exists t. split; [exact Ht|]. eapply subnodes_trans; eauto. }
  split; intros H x Hx; apply (Hagree x (Hleaf x Hx)); now apply H.
Qed.

(** X9: on a tree returned by [buildTree], and from a selection without
    duplicates in which the folders are stored consistently, toggling the
    same path twice with [toggleFile] gives back a selection with the same
    members. *)
Theorem toggleFile_twice
    (files : list string) (st : FileTreeState) (p q : string) :
  buildTree files = Some (tree st) ->
  NoDup (selected st) ->
  folders_consistent (tree st) (selected st) ->
  (In q (selected (toggleFile (toggleFile st p) p)) <-> In q (selected st)).
Proof.
  intros Hbuild Hs Hcons.
  pose proof (@buildTree_paths_NoDup _ _ Hbuild) as Hnd.
  set (st1 := toggleFile st p).
  assert (H1 : NoDup (selected st1) /\ folders_consistent (tree st) (selected st1)).
  { subst st1. rewrite toggleFile_selected.
    apply updateParentStates_consistent; [exact Hnd | now apply flip_NoDup]. }
  assert (H2 : folders_consistent (tree st) (selected (toggleFile st1 p))).
  { rewrite toggleFile_selected.
    apply updateParentStates_consistent; [exact Hnd | apply flip_NoDup, H1]. }
  revert q. apply (consistent_agree Hnd H2 Hcons).
  intros q Hq.
  assert (Hstep : forall s0 : FileTreeState, tree s0 = tree st ->
            (In q (selected (toggleFile s0 p)) <->
             if String.eqb q p then ~ In q (selected s0) else In q (selected s0))).
  { intros s0 Htree. rewrite toggleFile_selected, Htree.
    rewrite updateParentStates_frame by exact Hq.
    destruct (String.eqb q p) eqn:E.
    - apply String.eqb_eq in E. subst q. apply flip_self.
    - apply String.eqb_neq in E. now apply flip_other. }
  rewrite (Hstep st1 eq_refl). subst st1.
  destruct (String.eqb q p) eqn:E; rewrite (Hstep st eq_refl); [|reflexivity].
  destruct (in_dec string_dec q (selected st)); tauto.
Qed.

Lemma toggleFile_twice_witness :
  In "root/sub/b.txt"
    (selected (toggleFile (toggleFile (demo_state ["root/a.txt"]) "root/sub/b.txt")
                 "root/sub/b.txt"))
  <-> In "root/sub/b.txt" (selected (demo_state ["root/a.txt"])).
Proof.
  apply (@toggleFile_twice demo_files (demo_state ["root/a.txt"])
           "root/sub/b.txt" "root/sub/b.txt" eq_refl).
  - repeat constructor. simpl. tauto.
  - intros f Hf Hfolder. simpl in Hf.
    destruct Hf as [<- | [<- | [<- | [<- | [<- | []]]]]];
      try (exfalso; now apply Hfolder); simpl; split.
    + intros [H | []]. discriminate H.
    + intros H. specialize (H "root/sub/b.txt"). simpl in H.
      destruct H as [H | []]; [auto | discriminate H].
    + intros [H | []]. discriminate H.
    + intros H. specialize (H "root/sub/b.txt"). simpl in H.
      destruct H as [H | []]; [auto | discriminate H].
Defined.

(** X10: on a tree returned by [buildTree], a run of [toggleFile] and
    [toggleFolder] operations never stores a path twice when it starts from
    a selection without duplicates. *)
Theorem selection_stays_duplicate_free
    (files : list string) (st : FileTreeState) (ops : list SelectionOp) :
  buildTree files = Some (tree st) ->
  NoDup (selected st) ->
  NoDup (selected (run st ops)).
Proof.
  intros Hbuild Hs. apply run_NoDup; [|exact Hs].
  apply (@buildTree_paths_NoDup _ _ Hbuild).
Qed.

Lemma selection_stays_duplicate_free_witness :
  NoDup (selected (run (demo_state [])
                     [ToggleFolder demo_sub; ToggleLeaf "root/a.txt";
                      ToggleFolder demo_root])).
Proof.
  apply (@selection_stays_duplicate_free demo_files (demo_state []) _ eq_refl).
  constructor.
Defined.

(** * Further properties of [buildTree] *)

Unset Implicit Arguments.

(** X11: two nodes of a tree returned by [buildTree] never share a path. *)
Theorem buildTree_no_shared_path
    (files : list string) (tree : list FileNode) (n m : FileNode) :
  buildTree files = Some tree ->
  In n (all_nodes tree) -> In m (all_nodes tree) -> path n = path m -> n = m.
Proof.
  intros Hbuild. apply NoDup_map_eq.
  apply (@buildTree_paths_NoDup _ _ Hbuild).
Qed.

Lemma buildTree_no_shared_path_witness :
  leaf "b.txt" "root/sub/b.txt" = leaf "b.txt" "root/sub/b.txt".
Proof.
  apply (buildTree_no_shared_path demo_files demo_tree _ _ eq_refl);
    [simpl; auto | simpl; auto | reflexivity].
Defined.

(** ** When [buildTree] throws *)

Lemma walk_inherited parts :
  forall cp (o : Obj RawNode) part,
    In part parts -> inherited part = true -> walk parts cp o = None.
Proof.
  induction parts as [|k rest IH]; intros cp o part Hin Hi; [contradiction|].
  simpl. destruct (inherited k) eqn:Ek; [reflexivity|].
  destruct Hin as [-> | Hin]; [congruence|].
  destruct (own k o) as [n|].
  - destruct (raw_children n) as [ch|]; now rewrite (IH _ _ part Hin Hi).
  - destruct rest as [|r rest']; [contradiction|].
    now rewrite (IH _ _ part Hin Hi).
Qed.

Lemma add_files_inherited files :
  forall (root : Obj RawNode) f part,
    In f files -> In part (path_parts f) -> inherited part = true ->
    add_files files root = None.
Proof.
  induction files as [|g files IH]; intros root f part Hf Hp Hi; [contradiction|].
  simpl. rewrite add_file_walk.
  destruct Hf as [-> | Hf].
  - now rewrite (walk_inherited _ _ _ part Hp Hi).
  - destruct (walk (path_parts g) "" root); [|reflexivity]. eapply IH; eauto.
Qed.

(** X12: [buildTree] throws (a [TypeError], on reading [children] of
    [undefined]) whenever some segment of some path of the listing is the
    name of a property inherited from [Object.prototype], such as
    [constructor], [toString] or [__proto__]. *)
Theorem buildTree_throws_on_inherited_name
    (files : list string) (f part : string) :
  In f files -> In part (path_parts f) -> inherited part = true ->
  buildTree files = None.
Proof.
  intros Hf Hp Hi. unfold buildTree.
  now rewrite (add_files_inherited files [] f part Hf Hp Hi).
Qed.

Lemma buildTree_throws_on_inherited_name_witness :
  In "lib/toString/x.js" ["src/main.ts"; "lib/toString/x.js"; "README.md"] /\
  path_parts "lib/toString/x.js" = ["lib"; "toString"; "x.js"] /\
  inherited "toString" = true /\
  buildTree ["src/main.ts"; "lib/toString/x.js"; "README.md"] = None.
Proof.
  split; [simpl; auto|]. split; [reflexivity|]. split; [reflexivity|].
  apply (buildTree_throws_on_inherited_name
           ["src/main.ts"; "lib/toString/x.js"; "README.md"]
           "lib/toString/x.js" "toString").
  - simpl. auto.
  - simpl. auto.
  - reflexivity.
Defined.

(** ** Entries that add nothing *)

Lemma replace_own_same (A : Type) k (v : A) (o : Obj A) :
  own k o = Some v -> replace_own k v o = o.
Proof.
  induction o as [|[k' v'] t IH]; simpl; [reflexivity|].
  destruct (String.eqb k k') eqn:E; [intros [= ->]; reflexivity|].
  intros H. now rewrite IH.
Qed.

Lemma with_children_same (n : RawNode) ch :
  raw_children n = Some ch -> with_children n ch = n.
Proof. destruct n. simpl. now intros ->. Qed.

Lemma walk_not_inherited parts :
  forall cp (o o' : Obj RawNode),
    walk parts cp o = Some o' -> Forall (fun part => inherited part = false) parts.
Proof.
  intros cp o o' H. apply Forall_forall. intros part Hin.
  destruct (inherited part) eqn:E; [|reflexivity].
  rewrite (walk_inherited _ _ _ part Hin E) in H. discriminate H.
Qed.

Lemma walk_settles parts :
  forall cp (o o' : Obj RawNode), walk parts cp o = Some o' -> settled o' parts.
Proof.
  induction parts as [|part rest IH]; intros cp o o' Hw; [exact I|].
  apply walk_cons_inv in Hw as [_ Hw]. simpl.
  destruct Hw as [(Ho & _ & ->) | [(Ho & _ & c0 & Hw & ->) |
                [(n0 & c0 & c0' & Ho & Hc0 & Hw & ->) | (n0 & Ho & Hc0 & _ & ->)]]].
  - rewrite own_define_own, Ho, String.eqb_refl. exact I.
  - rewrite own_define_own, Ho, String.eqb_refl. simpl. eapply IH; eauto.
  - rewrite own_replace_own, String.eqb_refl, Ho. simpl. eapply IH; eauto.
  - rewrite Ho, Hc0. exact I.
Qed.

Lemma walk_keeps_settled parts' :
  forall cp (o o' : Obj RawNode) parts,
    walk parts' cp o = Some o' -> settled o parts -> settled o' parts.
Proof.
  induction parts' as [|part rest IH]; intros cp o o' parts Hw Hs.
  - simpl in Hw. now injection Hw as <-.
  - destruct parts as [|k r]; [exact I|]. simpl in Hs |- *.
    destruct (own k o) as [n|] eqn:Ek; [|contradiction].
    apply walk_cons_inv in Hw as [_ Hw].
    destruct Hw as [(Ho & _ & ->) | [(Ho & _ & c0 & Hw & ->) |
                  [(n0 & c0 & c0' & Ho & Hc0 & Hw & ->) | (n0 & Ho & Hc0 & _ & ->)]]].
    + rewrite own_define_own, Ek. exact Hs.
    + rewrite own_define_own, Ek. exact Hs.
    + rewrite own_replace_own, Ek.
      destruct (String.eqb k part) eqn:E; [|exact Hs].
      apply String.eqb_eq in E. subst k. rewrite Ek in Ho. injection Ho as <-.
      rewrite Hc0 in Hs. simpl. eapply IH; eauto.
    + rewrite Ek. exact Hs.
Qed.

Lemma settled_walk parts :
  forall cp (o : Obj RawNode),
    settled o parts -> Forall (fun part => inherited part = false) parts ->
    walk parts cp o = Some o.
Proof.
  induction parts as [|k r IH]; intros cp o Hs Hall; [reflexivity|].
  inversion Hall as [|? ? Hk Hr]; subst. simpl in Hs |- *. rewrite Hk.
  destruct (own k o) as [n|] eqn:Ek; [|contradiction].
  destruct (raw_children n) as [ch|] eqn:Ec.
  - rewrite (IH _ _ Hs Hr), (with_children_same _ _ Ec), (replace_own_same _ _ _ _ Ek).
    reflexivity.
  - destruct (@walk_returns r (join_path cp k) [] Hr) as [d ->]. reflexivity.
Qed.

Lemma add_files_keeps_settled files :
  forall (o o' : Obj RawNode) parts,
    add_files files o = Some o' -> settled o parts -> settled o' parts.
Proof.
  induction files as [|f files IH]; intros o o' parts H Hs; simpl in H.
  - now injection H as <-.
  - rewrite add_file_walk in H.
    destruct (walk (path_parts f) "" o) as [o1|] eqn:Ew; [|discriminate].
    eapply IH; [exact H|]. eapply walk_keeps_settled; eauto.
Qed.

(** X13: a listed path adds nothing when a path with the same segments
    comes earlier in the listing: duplicates, and paths that differ only by
    the separator used, by doubled separators or by a leading or trailing
    separator, are merged. *)
Theorem buildTree_merges_duplicates (l1 l2 l3 : list string) (f g : string) :
  path_parts g = path_parts f ->
  buildTree (l1 ++ f :: l2 ++ g :: l3) = buildTree (l1 ++ f :: l2 ++ l3).
Proof.
  intros Hg. unfold buildTree.
  rewrite !add_files_app.
  destruct (add_files l1 []) as [r1|]; [|reflexivity].
  simpl. rewrite !add_file_walk.
  destruct (walk (path_parts f) "" r1) as [r2|] eqn:E2; [|reflexivity].
  rewrite !add_files_app.
  destruct (add_files l2 r2) as [r3|] eqn:E3; [|reflexivity].
  simpl. rewrite add_file_walk, Hg.
  rewrite (settled_walk (path_parts f) "" r3); [reflexivity | |].
  - apply (add_files_keeps_settled _ _ _ _ E3). apply (walk_settles _ _ _ _ E2).
  - apply (walk_not_inherited _ _ _ _ E2).
Qed.

Lemma buildTree_merges_duplicates_witness :
  buildTree (["docs/a.md"] ++ "src/lib/x.ts" :: ["src/y.ts"]
               ++ "\src\\lib/x.ts/" :: ["z"])
  = buildTree (["docs/a.md"] ++ "src/lib/x.ts" :: ["src/y.ts"] ++ ["z"]).
Proof.
  apply (buildTree_merges_duplicates ["docs/a.md"] ["src/y.ts"] ["z"]
           "src/lib/x.ts" "\src\\lib/x.ts/").
  reflexivity.
Defined.

(** X14: a listed path without any segment (empty, or made of separators
    only) adds nothing to the tree. *)
Theorem buildTree_skips_empty_paths (l1 l2 : list string) (f : string) :
  path_parts f = [] ->
  buildTree (l1 ++ f :: l2) = buildTree (l1 ++ l2).
Proof.
  intros Hf. unfold buildTree. rewrite !add_files_app.
  destruct (add_files l1 []) as [r1|]; [|reflexivity].
  simpl. now rewrite add_file_walk, Hf.
Qed.

Lemma buildTree_skips_empty_paths_witness :
  buildTree (["a/b"] ++ "//\" :: ["c"]) = buildTree (["a/b"] ++ ["c"]).
Proof.
  apply (buildTree_skips_empty_paths ["a/b"] ["c"] "//\"). reflexivity.
Defined.

(** ** Where the nodes come from *)

Lemma is_prefix_refl (l : list string) : is_prefix l l = true.
Proof. induction l as [|x l IH]; simpl; [reflexivity|]. now rewrite String.eqb_refl. Qed.

Lemma entry_at_nil_obj (P : list string) : entry_at [] P = None.
Proof. destruct P; reflexivity. Qed.

Lemma entry_at_step (o : Obj RawNode) (k : string) (P : list string) :
  entry_at o (k :: P) =
  match own k o with
  | Some n =>
      match P with
      | [] => Some n
      | _ :: _ =>
          match raw_children n with
          | Some ch => entry_at ch P
          | None => None
          end
      end
  | None => None
  end.
Proof. reflexivity. Qed.

(** An entry found after a walk was there before, with the same kind, or was
    created by the walk: then its segments start the walked path, and it is
    a leaf exactly when they are the whole of it. *)
Lemma walk_entry_origin parts :
  forall cp (o o' : Obj RawNode) P e',
    walk parts cp o = Some o' -> entry_at o' P = Some e' ->
    (exists e, entry_at o P = Some e /\
               (raw_children e = None <-> raw_children e' = None)) \/
    (is_prefix P parts = true /\ (raw_children e' = None <-> P = parts)).
Proof.
  induction parts as [|part rest IH]; intros cp o o' P e' Hw He.
  - simpl in Hw. injection Hw as <-. left. exists e'. tauto.
  - destruct P as [|k P']; [discriminate He|].
    rewrite entry_at_step in He.
    apply walk_cons_inv in Hw as [_ Hw].
    destruct Hw as [(Ho & -> & ->) | [(Ho & Hne & c0 & Hw & ->) |
                  [(n0 & c0 & c0' & Ho & Hc0 & Hw & ->) | (n0 & Ho & Hc0 & _ & ->)]]].
    + rewrite own_define_own in He. destruct (own k o) as [x|] eqn:Ek.
      * left. exists e'. rewrite entry_at_step, Ek. tauto.
      * destruct (String.eqb k part) eqn:E; [|discriminate He].
        apply String.eqb_eq in E. subst k. right.
        destruct P' as [|k' P'']; [|discriminate He].
        injection He as <-. simpl. rewrite String.eqb_refl. tauto.
    + rewrite own_define_own in He. destruct (own k o) as [x|] eqn:Ek.
      * left. exists e'. rewrite entry_at_step, Ek. tauto.
      * destruct (String.eqb k part) eqn:E; [|discriminate He].
        apply String.eqb_eq in E. subst k. right.
        destruct P' as [|k' P''].
        -- injection He as <-. simpl. rewrite String.eqb_refl.
           split; [now destruct rest|]. split; [discriminate|].
           intros [= <-]. congruence.
        -- simpl raw_children in He.
           destruct (IH _ _ _ _ _ Hw He) as [(e & Habs & _) | [Hpre Hkind]].
           ++ rewrite entry_at_nil_obj in Habs. discriminate Habs.
           ++ simpl. rewrite String.eqb_refl. split; [exact Hpre|].
              rewrite Hkind. split; [now intros <- | now intros [= ->]].
    + rewrite own_replace_own in He.
      destruct (String.eqb k part) eqn:E.
      * apply String.eqb_eq in E. subst k. rewrite Ho in He.
        destruct P' as [|k' P''].
        -- injection He as <-. left. exists n0.
           rewrite entry_at_step, Ho. split; [reflexivity|].
           simpl. rewrite Hc0. split; discriminate.
        -- simpl raw_children in He.
           destruct (IH _ _ _ _ _ Hw He) as [(e & He0 & Hkind) | [Hpre Hkind]].
           ++ left. exists e. rewrite entry_at_step, Ho, Hc0. auto.
           ++ right. simpl. rewrite String.eqb_refl. split; [exact Hpre|].
              rewrite Hkind. split; [now intros <- | now intros [= ->]].
      * left. exists e'. rewrite entry_at_step. split; [exact He | tauto].
    + left. exists e'. rewrite entry_at_step. split; [exact He | tauto].
Qed.

Lemma add_files_entry_origin files :
  forall (o o' : Obj RawNode) P e',
    add_files files o = Some o' -> entry_at o' P = Some e' ->
    (exists e, entry_at o P = Some e /\
               (raw_children e = None <-> raw_children e' = None)) \/
    (exists f, In f files /\ is_prefix P (path_parts f) = true /\
               (raw_children e' = None <-> P = path_parts f)).
Proof.
  induction files as [|f files IH]; intros o o' P e' H He; simpl in H.
  - injection H as <-. left. exists e'. tauto.
  - rewrite add_file_walk in H.
    destruct (walk (path_parts f) "" o) as [o1|] eqn:Ew; [|discriminate].
    destruct (IH _ _ _ _ H He) as [(e1 & He1 & Hk1) | (g & Hg & Hpre & Hk)].
    + destruct (walk_entry_origin _ _ _ _ _ _ Ew He1)
        as [(e & He0 & Hk0) | [Hpre Hk]].
      * left. exists e. split; [exact He0 | tauto].
      * right. exists f. split; [now left|]. split; [exact Hpre | tauto].
    + right. exists g. split; [now right | auto].
Qed.

Lemma entry_at_wf P :
  forall cp (o : Obj RawNode) e,
    wf_obj cp o -> entry_at o P = Some e -> exists parent key, wf_raw parent key e.
Proof.
  induction P as [|k P' IH]; intros cp o e Hwf He; [discriminate He|].
  rewrite entry_at_step in He. destruct (own k o) as [n|] eqn:Ek; [|discriminate He].
  pose proof (@wf_obj_own cp o k n Hwf Ek) as Hn.
  destruct P' as [|k' P'']; [injection He as <-; eauto|].
  destruct (raw_children n) as [c|] eqn:Ec; [|discriminate He].
  eapply IH; [|exact He]. eapply wf_raw_children; eauto.
Qed.

Lemma entry_node_parts (root : Obj RawNode) P e :
  wf_obj "" root -> entry_at root P = Some e ->
  path (convert_entry e) = String.concat "/" P /\
  path_parts (path (convert_entry e)) = P /\
  (is_leaf (convert_entry e) <-> raw_children e = None).
Proof.
  intros Hwf He.
  pose proof (@entry_at_segments _ _ _ _ Hwf He) as Hseg.
  assert (Hpath : path (convert_entry e) = String.concat "/" P).
  { rewrite convert_entry_path, (@entry_at_path _ _ _ _ Hwf He).
    destruct P as [|k P']; [discriminate He|].
    apply path_of_top. inversion Hseg; subst. now apply is_segment_nonempty. }
  split; [exact Hpath|]. split.
  - rewrite Hpath. apply path_parts_concat; [exact Hseg|].
    destruct P; [discriminate He | discriminate].
  - unfold is_leaf. rewrite convert_entry_children.
    destruct (raw_children e) as [c|] eqn:Ec; [|tauto].
    destruct (entry_at_wf _ _ _ _ Hwf He) as (pp & key & Hwe).
    inversion Hwe as [? ? ? _ _ _ Hkids]; subst.
    destruct (Hkids _ Ec) as (Hne & _).
    destruct c; [congruence|]. simpl. split; discriminate.
Qed.

Lemma nodes_origin
    (files : list string) (tree : list FileNode) (n : FileNode) :
  buildTree files = Some tree -> In n (all_nodes tree) ->
  exists f, In f files /\
    is_prefix (path_parts (path n)) (path_parts f) = true /\
    (is_leaf n <-> path n = String.concat "/" (path_parts f)).
Proof.
  unfold buildTree.
  destruct (add_files files []) as [root|] eqn:Eroot; [|discriminate].
  intros [= <-] Hn.
  pose proof (@add_files_wf _ _ _ (wf_obj_nil "") Eroot) as Hwf.
  destruct (@all_nodes_entry _ _ _ Hwf Hn) as (P & e & He & ->).
  destruct (entry_node_parts _ _ _ Hwf He) as (Hpath & Hparts & Hleaf).
  destruct (add_files_entry_origin _ _ _ _ _ Eroot He)
    as [(e0 & Habs & _) | (f & Hf & Hpre & Hkind)].
  - rewrite entry_at_nil_obj in Habs. discriminate Habs.
  - exists f. split; [exact Hf|]. rewrite Hparts. split; [exact Hpre|].
    rewrite Hleaf, Hkind, Hpath. split; [now intros -> |].
    intros E. rewrite <- Hparts, Hpath, E.
    apply path_parts_concat; [apply path_parts_segments|].
    intros Hnil. rewrite Hnil in Hpre. destruct P; [discriminate He | discriminate Hpre].
Qed.

(** X15: every node of the tree comes from the listing: its segments start
    some listed path, and it is a leaf exactly when they are the whole of
    the first listed path that reached it.  In particular the path of every
    leaf is the normal form of a listed path. *)
Theorem buildTree_nodes_come_from_listing
    (files : list string) (tree : list FileNode) (n : FileNode) :
  buildTree files = Some tree -> In n (all_nodes tree) ->
  exists f, In f files /\
    is_prefix (path_parts (path n)) (path_parts f) = true /\
    (is_leaf n <-> path n = String.concat "/" (path_parts f)).
Proof. apply nodes_origin. Qed.

Lemma buildTree_nodes_come_from_listing_witness :
  exists f, In f demo_files /\
    is_prefix (path_parts (path demo_sub)) (path_parts f) = true /\
    (is_leaf demo_sub <-> path demo_sub = String.concat "/" (path_parts f)).
Proof.
  apply (buildTree_nodes_come_from_listing demo_files demo_tree demo_sub eq_refl).
  simpl. auto.
Defined.

(** ** What becomes of the listed paths *)

Lemma add_files_settles files :
  forall (o o' : Obj RawNode) f,
    add_files files o = Some o' -> In f files -> settled o' (path_parts f).
Proof.
  induction files as [|g files IH]; intros o o' f H Hf; [contradiction|].
  simpl in H. rewrite add_file_walk in H.
  destruct (walk (path_parts g) "" o) as [o1|] eqn:Ew; [|discriminate].
  destruct Hf as [-> | Hf]; [|eapply IH; eauto].
  apply (add_files_keeps_settled _ _ _ _ H). apply (walk_settles _ _ _ _ Ew).
Qed.

Lemma settled_entry parts :
  forall (o : Obj RawNode),
    settled o parts -> parts <> [] ->
    exists Q e, entry_at o Q = Some e /\ is_prefix Q parts = true /\
                (Q = parts \/ raw_children e = None).
Proof.
  induction parts as [|k r IH]; intros o Hs Hne; [congruence|].
  simpl in Hs. destruct (own k o) as [n|] eqn:Ek; [|contradiction].
  destruct (raw_children n) as [ch|] eqn:Ec.
  - destruct r as [|k' r'].
    + exists [k], n. rewrite entry_at_step, Ek. simpl. rewrite String.eqb_refl. auto.
    + destruct (IH _ Hs ltac:(discriminate)) as (Q & e & He & Hpre & Hkind).
      exists (k :: Q), e. split; [eapply entry_at_cons; eauto|].
      simpl is_prefix. rewrite String.eqb_refl. split; [exact Hpre|].
      destruct Hkind as [-> | Hkind]; auto.
  - exists [k], n. rewrite entry_at_step, Ek. simpl. rewrite String.eqb_refl. auto.
Qed.

(** X16: no listed path is lost without trace: every listed path with at
    least one segment is shown in the tree, as the node whose path is its
    normal form, or lies below a node that is shown as a file. *)
Theorem buildTree_keeps_every_entry
    (files : list string) (tree : list FileNode) (f : string) :
  buildTree files = Some tree -> In f files -> path_parts f <> [] ->
  exists n, In n (all_nodes tree) /\
    (path n = String.concat "/" (path_parts f) \/
     (is_leaf n /\ is_prefix (path_parts (path n)) (path_parts f) = true)).
Proof.
  unfold buildTree.
  destruct (add_files files []) as [root|] eqn:Eroot; [|discriminate].
  intros [= <-] Hf Hne.
  pose proof (@add_files_wf _ _ _ (wf_obj_nil "") Eroot) as Hwf.
  destruct (settled_entry _ _ (add_files_settles _ _ _ _ Eroot Hf) Hne)
    as (Q & e & He & Hpre & Hkind).
  destruct (entry_node_parts _ _ _ Hwf He) as (Hpath & Hparts & Hleaf).
  exists (convert_entry e). split; [eapply entry_at_node; eauto|].
  destruct Hkind as [-> | Hkind]; [left; exact Hpath | right].
  split; [now apply Hleaf | now rewrite Hparts].
Qed.

Lemma buildTree_keeps_every_entry_witness :
  exists n, In n (all_nodes [leaf "a" "a"]) /\
    (path n = String.concat "/" (path_parts "a/b.txt") \/
     (is_leaf n /\ is_prefix (path_parts (path n)) (path_parts "a/b.txt") = true)).
Proof.
  apply (buildTree_keeps_every_entry ["a"; "a/b.txt"] [leaf "a" "a"] "a/b.txt"
           eq_refl).
  - simpl. auto.
  - discriminate.
Defined.

(** * The selection panel and the application handlers *)

Lemma counted_In (files : list string) (s : string) :
  existsb (fun f => String.eqb f s && negb (endsWith f "/")) files = true <->
  In s files /\ endsWith s "/" = false.
Proof.
  rewrite existsb_exists. split.
  - intros (f & Hf & H). apply andb_true_iff in H as [E Hn].
    apply String.eqb_eq in E. subst f. apply negb_true_iff in Hn. auto.
  - intros [Hs Hn]. exists s. rewrite String.eqb_refl, Hn. auto.
Qed.

(** X17: the panel never counts more selected files than there are files,
    as long as the selection holds no path twice. *)
Theorem selectedCount_bounded (files selected : list string) :
  NoDup selected -> selectedCount files selected <= totalFiles files.
Proof.
  intros Hs. unfold selectedCount, totalFiles.
  apply NoDup_incl_length; [now apply NoDup_filter|].
  intros s Hin. apply filter_In in Hin as [_ Hc].
  apply counted_In in Hc as [Hf Hn]. apply filter_In.
  now rewrite Hn.
Qed.

Lemma selectedCount_bounded_witness :
  selectedCount ["src/"; "src/a.ts"; "b.md"] ["b.md"; "src"; "src/"; "zzz"]
  <= totalFiles ["src/"; "src/a.ts"; "b.md"].
Proof.
  apply selectedCount_bounded.
  repeat constructor; simpl; intuition discriminate.
Defined.

(** X18: after Select All the panel counts every file of the listing (the
    entries that do not end with a separator), and after Deselect All or
    Back it counts none. *)
Theorem select_all_counts_every_file (a : AppState) :
  selectedCount (app_files (handleSelectAll a)) (app_selected (handleSelectAll a))
  = totalFiles (app_files a) /\
  selectedCount (app_files (handleDeselectAll a))
    (app_selected (handleDeselectAll a)) = 0 /\
  selectedCount (app_files (handleBack a)) (app_selected (handleBack a)) = 0.
Proof.
  repeat split. unfold selectedCount, totalFiles. simpl. f_equal.
  apply filter_ext_in. intros s Hs.
  destruct (endsWith s "/") eqn:E; simpl.
  - destruct (existsb _ (app_files a)) eqn:Ex; [|reflexivity].
    apply counted_In in Ex as [_ Hn]. congruence.
  - apply counted_In. auto.
Qed.

Lemma isChecked_nothing parent (n : FileNode) :
  wf_node parent n -> isChecked [] n = false.
Proof.
  intros Hwf. pose proof (@wf_node_has_leaf n parent Hwf) as Hleaf.
  unfold isChecked, areAllChildrenSelected.
  destruct (children n) as [[|c rest]|]; simpl; try reflexivity.
  destruct (getAllDescendantFiles n) as [|q l]; [congruence | reflexivity].
Qed.

(** X19: after Deselect All no checkbox of the tree mounted on the listing
    is checked, folders included. *)
Theorem deselect_all_unchecks_every_node
    (a : AppState) (st st' : FileTreeState) (n : FileNode) :
  mount (app_files a) st = Some st' ->
  In n (all_nodes (tree st')) ->
  isChecked (app_selected (handleDeselectAll a)) n = false.
Proof.
  unfold mount.
  destruct (buildTree (filter _ (app_files a))) as [built|] eqn:Eb; [|discriminate].
  intros [= <-] Hn. simpl in Hn |- *.
  destruct (@wf_forest_node _ _ _ (@buildTree_wf _ _ Eb) Hn) as [pp Hwn].
  exact (isChecked_nothing pp n Hwn).
Qed.

Lemma deselect_all_unchecks_every_node_witness :
  isChecked (app_selected (handleDeselectAll (mkApp demo_files demo_files false None)))
    demo_root = false.
Proof.
  apply (deselect_all_unchecks_every_node
           (mkApp demo_files demo_files false None) (demo_state []) (demo_state [])
           demo_root eq_refl).
  simpl. auto.
Defined.

(** X20: after Select All every checkbox of the tree mounted on the listing
    is checked, provided every listed path is written in normal form (its
    segments joined by ["/"]); the path of a leaf is then a listed path. *)
Theorem select_all_checks_every_node
    (a : AppState) (st st' : FileTreeState) (n : FileNode) :
  mount (app_files a) st = Some st' ->
  (forall f, In f (app_files a) -> String.concat "/" (path_parts f) = f) ->
  In n (all_nodes (tree st')) ->
  isChecked (app_selected (handleSelectAll a)) n = true.
Proof.
  unfold mount.
  destruct (buildTree (filter _ (app_files a))) as [built|] eqn:Eb; [|discriminate].
  intros [= <-] Hnorm Hn. simpl in Hn |- *.
  assert (Hleaf : forall x, In x (all_nodes built) -> is_leaf x ->
            In (path x) (app_files a)).
  { intros x Hx Hl.
    destruct (nodes_origin _ _ _ Eb Hx) as (f & Hf & _ & Hk).
    apply filter_In in Hf as [Hf _].
    rewrite (proj1 Hk Hl), (Hnorm f Hf). exact Hf. }
  unfold isChecked, areAllChildrenSelected.
  destruct (children n) as [[|c rest]|] eqn:Ec; simpl.
  - exfalso. destruct (@wf_forest_node _ _ _ (@buildTree_wf _ _ Eb) Hn) as [pp Hwn].
    inversion Hwn as [? ? _ _ Hkids]; subst.
    destruct (Hkids _ Ec) as (Hne & _). congruence.
  - apply forallb_forall. intros q Hq. apply includes_In.
    apply leaves_are_leaf_nodes in Hq as (x & Hx & Hl & <-).
    apply Hleaf; [|exact Hl].
    apply all_nodes_inv in Hn as (t & Ht & Hn). apply all_nodes_inv.
    exists t. split; [exact Ht|]. eapply subnodes_trans; eauto.
  - apply includes_In. now apply Hleaf.
Qed.

Lemma select_all_checks_every_node_witness :
  isChecked (app_selected (handleSelectAll (mkApp demo_files [] false None)))
    demo_root = true.
Proof.
  apply (select_all_checks_every_node
           (mkApp demo_files [] false None) (demo_state []) (demo_state [])
           demo_root eq_refl).
  - intros f [<- | [<- | [<- | []]]]; reflexivity.
  - simpl. auto.
Defined.

(** * Growing listings and the order of toggles *)

(** An entry stays where it is, with its kind, through a walk. *)
Lemma walk_entry_persists parts :
  forall cp (o o' : Obj RawNode) P e,
    walk parts cp o = Some o' -> entry_at o P = Some e ->
    exists e', entry_at o' P = Some e' /\
               (raw_children e = None <-> raw_children e' = None).
Proof.
  induction parts as [|part rest IH]; intros cp o o' P e Hw He.
  - simpl in Hw. injection Hw as <-. exists e. tauto.
  - destruct P as [|k P']; [discriminate He|].
    rewrite entry_at_step in He.
    destruct (own k o) as [n|] eqn:Ek; [|discriminate He].
    apply walk_cons_inv in Hw as [_ Hw].
    destruct Hw as [(Ho & _ & ->) | [(Ho & _ & c0 & Hw & ->) |
                  [(n0 & c0 & c0' & Ho & Hc0 & Hw & ->) | (n0 & Ho & Hc0 & _ & ->)]]].
    + exists e. rewrite entry_at_step, own_define_own, Ek. tauto.
    + exists e. rewrite entry_at_step, own_define_own, Ek. tauto.
    + rewrite entry_at_step, own_replace_own, Ek.
      destruct (String.eqb k part) eqn:E.
      * apply String.eqb_eq in E. subst k. rewrite Ek in Ho. injection Ho as <-.
        destruct P' as [|k' P''].
        -- injection He as <-. exists (with_children n c0').
           split; [reflexivity|]. simpl. rewrite Hc0. split; discriminate.
        -- rewrite Hc0 in He. simpl raw_children.
           exact (IH _ _ _ _ _ Hw He).
      * exists e. tauto.
    + exists e. rewrite entry_at_step, Ek. tauto.
Qed.

Lemma add_files_entry_persists files :
  forall (o o' : Obj RawNode) P e,
    add_files files o = Some o' -> entry_at o P = Some e ->
    exists e', entry_at o' P = Some e' /\
               (raw_children e = None <-> raw_children e' = None).
Proof.
  induction files as [|f files IH]; intros o o' P e H He; simpl in H.
  - injection H as <-. exists e. tauto.
  - rewrite add_file_walk in H.
    destruct (walk (path_parts f) "" o) as [o1|] eqn:Ew; [|discriminate].
    destruct (walk_entry_persists _ _ _ _ _ _ Ew He) as (e1 & He1 & Hk1).
    destruct (IH _ _ _ _ H He1) as (e' & He' & Hk').
    exists e'. split; [exact He' | tauto].
Qed.

(** X21: listing more paths never removes a node and never changes a file
    into a folder or a folder into a file: every node of the tree of a
    listing is found, with the same path and the same kind, in the tree of
    any longer listing. *)
Theorem buildTree_grows
    (files more : list string) (tree tree' : list FileNode) (n : FileNode) :
  buildTree files = Some tree ->
  buildTree (files ++ more) = Some tree' ->
  In n (all_nodes tree) ->
  exists n', In n' (all_nodes tree') /\ path n' = path n /\
             (is_leaf n' <-> is_leaf n).
Proof.
  unfold buildTree. rewrite add_files_app.
  destruct (add_files files []) as [root|] eqn:Eroot; [|discriminate].
  destruct (add_files more root) as [root'|] eqn:Emore; [|discriminate].
  intros [= <-] [= <-] Hn.
  pose proof (@add_files_wf _ _ _ (wf_obj_nil "") Eroot) as Hwf.
  pose proof (@add_files_wf _ _ _ Hwf Emore) as Hwf'.
  destruct (@all_nodes_entry _ _ _ Hwf Hn) as (P & e & He & ->).
  destruct (add_files_entry_persists _ _ _ _ _ Emore He) as (e' & He' & Hk).
  destruct (entry_node_parts _ _ _ Hwf He) as (Hpath & _ & Hleaf).
  destruct (entry_node_parts _ _ _ Hwf' He') as (Hpath' & _ & Hleaf').
  exists (convert_entry e'). split; [eapply entry_at_node; eauto|].
  split; [congruence | tauto].
Qed.

Lemma buildTree_grows_witness :
  exists n', In n' (all_nodes [leaf "a" "a"; leaf "c" "c"]) /\
             path n' = path (leaf "a" "a") /\
             (is_leaf n' <-> is_leaf (leaf "a" "a")).
Proof.
  apply (buildTree_grows ["a"] ["a/b.txt"; "c"] [leaf "a" "a"]
           [leaf "a" "a"; leaf "c" "c"] (leaf "a" "a") eq_refl eq_refl).
  simpl. auto.
Defined.

(** X22: on a tree returned by [buildTree] and a selection without
    duplicates, the order of two [toggleFile] operations does not matter for
    the members of the resulting selection. *)
Theorem toggleFile_commutes
    (files : list string) (st : FileTreeState) (p1 p2 q : string) :
  buildTree files = Some (tree st) ->
  NoDup (selected st) ->
  (In q (selected (toggleFile (toggleFile st p1) p2)) <->
   In q (selected (toggleFile (toggleFile st p2) p1))).
Proof.
  intros Hbuild Hs.
  pose proof (@buildTree_paths_NoDup _ _ Hbuild) as Hnd.
  assert (Hc : forall s0 p, tree s0 = tree st -> NoDup (selected s0) ->
            NoDup (selected (toggleFile s0 p)) /\
            folders_consistent (tree st) (selected (toggleFile s0 p))).
  { intros s0 p Ht Hs0. rewrite toggleFile_selected, Ht.
    apply updateParentStates_consistent; [exact Hnd | now apply flip_NoDup]. }
  assert (Hstep : forall s0 p x, tree s0 = tree st ->
            not_folder_of (all_nodes (tree st)) x ->
            (In x (selected (toggleFile s0 p)) <->
             if String.eqb x p then ~ In x (selected s0) else In x (selected s0))).
  { intros s0 p x Htree Hx. rewrite toggleFile_selected, Htree.
    rewrite updateParentStates_frame by exact Hx.
    destruct (String.eqb x p) eqn:E.
    - apply String.eqb_eq in E. subst x. apply flip_self.
    - apply String.eqb_neq in E. now apply flip_other. }
  destruct (Hc st p1 eq_refl Hs) as [Hs1 _].
  destruct (Hc st p2 eq_refl Hs) as [Hs2 _].
  revert q. apply (@consistent_agree (tree st)); [exact Hnd | | |].
  - apply (Hc (toggleFile st p1) p2 eq_refl Hs1).
  - apply (Hc (toggleFile st p2) p1 eq_refl Hs2).
  - intros x Hx.
    rewrite (Hstep (toggleFile st p1) p2 x eq_refl Hx).
    rewrite (Hstep (toggleFile st p2) p1 x eq_refl Hx).
    destruct (String.eqb x p2) eqn:E2, (String.eqb x p1) eqn:E1;
      rewrite !(Hstep st _ x eq_refl Hx), ?E1, ?E2; reflexivity.
Qed.

Lemma toggleFile_commutes_witness :
  In "root"
    (selected (toggleFile (toggleFile (demo_state ["root/sub/b.txt"; "root/a.txt"])
                             "root/sub/c.txt") "root/a.txt"))
  <-> In "root"
        (selected (toggleFile (toggleFile (demo_state ["root/sub/b.txt"; "root/a.txt"])
                                 "root/a.txt") "root/sub/c.txt")).
Proof.
  apply (toggleFile_commutes demo_files
           (demo_state ["root/sub/b.txt"; "root/a.txt"])
           "root/sub/c.txt" "root/a.txt" "root" eq_refl).
  repeat constructor; simpl; intuition discriminate.
Defined.
